(** * component-env-graph: the dependency graph engine

    A shallow embedding of the classifier ([classify.ts]), of the file set
    reconciler ([files.ts]), of the directive and import extractor
    ([analyze.ts]) and of the engine class ([index.ts]) in its two
    revisions, together with the earlier single-file versions of the
    engine and their in-place classifier.

    Data model.
    - A JavaScript [Map<string, FileNode>] iterates in insertion order, and
      the in-place classifier reads node types while it walks the map, so
      the node store is an association list in insertion order; a JS map
      has no duplicate keys, which is the [NoDup] hypothesis of the
      theorems that need it.
    - The maps and sets that are local to one classification (the visited
      set, the result map, the importer index) are only ever queried by
      key, so they are stdpp [gmap]s and [gset]s.
    - The recursive closure [visit] takes its recursion depth as fuel;
      [visit_total] shows that one more than the number of nodes is always
      enough.
    - What lies outside the repository is a parameter: the glob and
      pattern matchers are predicates on paths, the parser is the
      [SourceFile] it produces, the file system is a finite map that stays
      fixed during a [build()].  Paths are absolute and in the standard
      form in which ts-morph reports them ([getFilePath()]).
    - A call that can throw returns a [Completion].  [refreshChangedFiles]
      of [files.ts] calls [excludes.test]; the argument it is given is a
      regular expression in one revision of [index.ts] and an arrow
      function in the other, and the call throws on the second.
    - The update listeners are observers of the node store that return or
      throw; what a listener may write to the graph it closes over is not
      modelled, and the theorems about [build()] speak of the state in
      which the listeners are called. *)

From Stdlib Require Import Strings.Ascii.
From stdpp Require Import gmap strings list fin_maps relations.

Set Default Proof Using "Type".
#[local] Set Warnings "-clear-no-such-hyp".

(** ** types.ts *)

Inductive ComponentType := client | server | universal.

#[global] Instance ComponentType_eq_dec : EqDecision ComponentType.
Proof. solve_decision. Defined.

Record FileNode := mkFileNode {
  filePath : string;
  isClient : bool;
  imports : list string;
  type : option ComponentType
}.

#[global] Instance FileNode_eq_dec : EqDecision FileNode.
Proof. solve_decision. Defined.

(** ** The node store: [Map<string, FileNode>] in insertion order *)

Abbreviation NodeStore := (list (string * FileNode)).

Definition keys (nodes : NodeStore) : list string := nodes.*1.

Definition values (nodes : NodeStore) : list FileNode := nodes.*2.

(** [nodes.get(fp)] *)
Fixpoint nodes_get (nodes : NodeStore) (fp : string) : option FileNode :=
  match nodes with
  | [] => None
  | (k, n) :: rest => if decide (k = fp) then Some n else nodes_get rest fp
  end.

(** [nodes.has(fp)] *)
Definition nodes_has (nodes : NodeStore) (fp : string) : bool :=
  bool_decide (is_Some (nodes_get nodes fp)).

(** [nodes.set(fp, n)]: an existing key keeps its position, a new key goes
    to the end. *)
Fixpoint nodes_set (nodes : NodeStore) (fp : string) (n : FileNode) : NodeStore :=
  match nodes with
  | [] => [(fp, n)]
  | (k, m) :: rest =>
      if decide (k = fp) then (k, n) :: rest else (k, m) :: nodes_set rest fp n
  end.

(** [nodes.delete(fp)] *)
Definition nodes_delete (nodes : NodeStore) (fp : string) : NodeStore :=
  filter (λ kn, kn.1 ≠ fp) nodes.

(** [node.type = ty] on the node object stored under [fp]. *)
Definition setType (n : FileNode) (ty : ComponentType) : FileNode :=
  mkFileNode (filePath n) (isClient n) (imports n) (Some ty).

Fixpoint nodes_setType (nodes : NodeStore) (fp : string) (ty : ComponentType)
  : NodeStore :=
  match nodes with
  | [] => []
  | (k, m) :: rest =>
      if decide (k = fp) then (k, setType m ty) :: rest
      else (k, m) :: nodes_setType rest fp ty
  end.

(** ** classify.ts: the pure classifier *)

Module Classify.

(** [Array.from(nodes.values()).filter(n => n.isClient).map(n => n.filePath)] *)
Definition getClientEntries (nodes : NodeStore) : list string :=
  filePath <$> filter (λ n, isClient n = true) (values nodes).

(** The [for (const imp of node.imports)] loop of [visit]; [rec] is the
    recursive call. *)
Fixpoint visitImports (nodes : NodeStore)
    (rec : string → gset string → option (gset string))
    (imps : list string) (clientReachable : gset string)
  : option (gset string) :=
  match imps with
  | [] => Some clientReachable
  | imp :: rest =>
      if nodes_has nodes imp then
        match rec imp clientReachable with
        | Some clientReachable' => visitImports nodes rec rest clientReachable'
        | None => None
        end
      else visitImports nodes rec rest clientReachable
  end.

(** The closure [visit] of [getClientReachable]; the set it mutates is
    threaded through, [None] is fuel exhausted. *)
Fixpoint visit (fuel : nat) (nodes : NodeStore) (fp : string)
    (clientReachable : gset string) : option (gset string) :=
  match fuel with
  | O => None
  | S fuel' =>
      if decide (fp ∈ clientReachable) then Some clientReachable
      else
        let clientReachable := clientReachable ∪ {[fp]} in
        match nodes_get nodes fp with
        | None => Some clientReachable
        | Some node =>
            visitImports nodes (visit fuel' nodes) (imports node) clientReachable
        end
  end.

(** The [for (const entry of clientEntries)] loop. *)
Fixpoint visitEntries (fuel : nat) (nodes : NodeStore) (entries : list string)
    (clientReachable : gset string) : option (gset string) :=
  match entries with
  | [] => Some clientReachable
  | entry :: rest =>
      match visit fuel nodes entry clientReachable with
      | Some clientReachable' => visitEntries fuel nodes rest clientReachable'
      | None => None
      end
  end.

Definition getClientReachable (fuel : nat) (nodes : NodeStore)
    (clientEntries : list string) : option (gset string) :=
  visitEntries fuel nodes clientEntries ∅.

Definition initNodeTypes (nodes : NodeStore) (clientReachable : gset string)
  : gmap string ComponentType :=
  foldl (λ types fp,
           <[fp := if decide (fp ∈ clientReachable) then client else server]> types)
        ∅ (keys nodes).

(** The body of the inner loop of [collectImporters]. *)
Definition addImporter (fp : string) (importers : gmap string (gset string))
    (imp : string) : gmap string (gset string) :=
  let importers :=
    match importers !! imp with
    | None => <[imp := ∅]> importers
    | Some _ => importers
    end in
  match importers !! imp with
  | Some from => <[imp := from ∪ {[fp]}]> importers
  | None => importers
  end.

Definition collectImporters (nodes : NodeStore) : gmap string (gset string) :=
  foldl (λ importers '(fp, node), foldl (addImporter fp) importers (imports node))
        ∅ nodes.

(** The loop of [isUniversalType], with its early return. *)
Fixpoint isUniversalTypeLoop (types : gmap string ComponentType)
    (importers : list string) (hasClient hasServer : bool) : bool :=
  match importers with
  | [] => false
  | importer :: rest =>
      let t := types !! importer in
      let hasClient := if decide (t = Some client) then true else hasClient in
      let hasServer := if decide (t = Some server) then true else hasServer in
      if hasClient && hasServer then true
      else isUniversalTypeLoop types rest hasClient hasServer
  end.

Definition isUniversalType (types : gmap string ComponentType)
    (importers : gset string) : bool :=
  isUniversalTypeLoop types (elements importers) false false.

Definition computeUniversalSet (nodes : NodeStore)
    (importers : gmap string (gset string))
    (types : gmap string ComponentType) : gset string :=
  foldl (λ universal '(fp, node),
           if isClient node then universal
           else match importers !! fp with
                | None => universal
                | Some from =>
                    if isUniversalType types from then universal ∪ {[fp]}
                    else universal
                end)
        ∅ nodes.

(** [computeComponentTypes] with the recursion budget of [visit] explicit. *)
Definition computeComponentTypesFuel (fuel : nat) (nodes : NodeStore)
  : option (gmap string ComponentType) :=
  let clientEntries := getClientEntries nodes in
  match getClientReachable fuel nodes clientEntries with
  | None => None
  | Some clientReachable =>
      let types := initNodeTypes nodes clientReachable in
      let importers := collectImporters nodes in
      let universalSet := computeUniversalSet nodes importers types in
      Some (foldl (λ types fp, <[fp := universal]> types)
                  types (elements universalSet))
  end.

Definition computeComponentTypes (nodes : NodeStore)
  : option (gmap string ComponentType) :=
  computeComponentTypesFuel (S (length nodes)) nodes.

End Classify.

(** ** The in-place classifier of the single-file engine

    [classifyComponentTypes] of the earlier versions of the engine writes
    [node.type] on the node objects of [this.nodes].  [getClientEntries],
    [getClientReachable] and [collectImporters] have the text of the pure
    classifier with [this.nodes] for [nodes]. *)

Module InPlace.

(** [setNodeTypes] *)
Definition setNodeTypes (clientReachable : gset string) (nodes : NodeStore)
  : NodeStore :=
  (λ '(fp, node),
     (fp, setType node (if decide (fp ∈ clientReachable) then client else server)))
  <$> nodes.

(** The loop of [isUniversalType]: [this.nodes.get(importer)?.type] is read
    from the store as it is now. *)
Fixpoint isUniversalTypeLoop (nodes : NodeStore) (importers : list string)
    (hasClient hasServer : bool) : bool :=
  match importers with
  | [] => false
  | importer :: rest =>
      let t := nodes_get nodes importer ≫= type in
      let hasClient := if decide (t = Some client) then true else hasClient in
      let hasServer := if decide (t = Some server) then true else hasServer in
      if hasClient && hasServer then true
      else isUniversalTypeLoop nodes rest hasClient hasServer
  end.

Definition isUniversalType (nodes : NodeStore) (importers : gset string) : bool :=
  isUniversalTypeLoop nodes (elements importers) false false.

(** [setUniversalTypes]: the entries are walked in the order of the map,
    [cur] is the store with the writes made so far. *)
Definition setUniversalTypes (importers : gmap string (gset string))
    (nodes : NodeStore) : NodeStore :=
  foldl (λ cur '(fp, node),
           if isClient node then cur
           else match importers !! fp with
                | None => cur
                | Some from =>
                    if isUniversalType cur from
                    then nodes_setType cur fp universal
                    else cur
                end)
        nodes nodes.

Definition classifyComponentTypesFuel (fuel : nat) (nodes : NodeStore)
  : option NodeStore :=
  let clientEntries := Classify.getClientEntries nodes in
  match Classify.getClientReachable fuel nodes clientEntries with
  | None => None
  | Some clientReachable =>
      let nodes := setNodeTypes clientReachable nodes in
      let importers := Classify.collectImporters nodes in
      Some (setUniversalTypes importers nodes)
  end.

Definition classifyComponentTypes (nodes : NodeStore) : option NodeStore :=
  classifyComponentTypesFuel (S (length nodes)) nodes.

End InPlace.

(** ** Source files, the parse set and the file system

    What the engine reads of a ts-morph [SourceFile]: the kind and text of
    its statements, and for each import and export declaration the path of
    the file its module specifier names, if it names a file.  Whether that
    file is a source file of the project is asked when a node is extracted
    ([getModuleSpecifierSourceFile]).

    The ts-morph [Project] is the set of registered source files with what
    was last parsed of each; the disk maps the path of every existing file
    to what parsing its present text gives.  The disk does not change
    during a [build()]. *)

Record Statement := mkStatement { kindName : string; text : string }.

Record SourceFile := mkSourceFile {
  statements : list Statement;
  importDeclarations : list (option string);
  exportDeclarations : list (option string)
}.

Abbreviation Project := (gmap string SourceFile).
Abbreviation Disk := (gmap string SourceFile).

(** [declaration.getModuleSpecifierSourceFile()]: the source file the
    declaration names, when the project has it at the time of the call. *)
Definition getModuleSpecifierSourceFile (project : Project)
    (declaration : option string) : option string :=
  declaration ≫= λ p, if decide (is_Some (project !! p)) then Some p else None.

(** ** analyze.ts: the directive and import extractor *)

Module Analyze.

(** The text of a statement is held in UTF-8.  A byte [10xxxxxx] continues
    the character that the bytes before it began. *)
Definition isContinuationByte (a : ascii) : bool :=
  match a with
  | Ascii _ _ _ _ _ _ b6 b7 => b7 && negb b6
  end.

Definition startsCharacter (s : string) : bool :=
  match s with
  | EmptyString => true
  | String a _ => negb (isContinuationByte a)
  end.

(** The characters of a text, each with the bytes that encode it. *)
Fixpoint characters (s : string) : list string :=
  match s with
  | EmptyString => []
  | String a s' =>
      match characters s' with
      | [] => [String a EmptyString]
      | c :: cs =>
          if startsCharacter c then String a EmptyString :: c :: cs
          else String a c :: cs
      end
  end.

Definition join (cs : list string) : string := foldr String.append "" cs.

(** What [String.prototype.trim] strips, the white space and the line
    terminators of ECMAScript: U+0009 to U+000D, U+0020, U+00A0, U+1680,
    U+2000 to U+200A, U+2028, U+2029, U+202F, U+205F, U+3000 and U+FEFF. *)
Definition whiteSpace : list string :=
  String.string_of_list_ascii <$>
    [ ["009"]; ["010"]; ["011"]; ["012"]; ["013"]; [" "];
      ["194"; "160"];
      ["225"; "154"; "128"];
      ["226"; "128"; "128"]; ["226"; "128"; "129"]; ["226"; "128"; "130"];
      ["226"; "128"; "131"]; ["226"; "128"; "132"]; ["226"; "128"; "133"];
      ["226"; "128"; "134"]; ["226"; "128"; "135"]; ["226"; "128"; "136"];
      ["226"; "128"; "137"]; ["226"; "128"; "138"];
      ["226"; "128"; "168"]; ["226"; "128"; "169"]; ["226"; "128"; "175"];
      ["226"; "129"; "159"];
      ["227"; "128"; "128"];
      ["239"; "187"; "191"] ]%char.

Definition isSpace (c : string) : bool := bool_decide (c ∈ whiteSpace).

Fixpoint trimStart (cs : list string) : list string :=
  match cs with
  | [] => []
  | c :: cs' => if isSpace c then trimStart cs' else cs
  end.

Fixpoint trimEnd (cs : list string) : list string :=
  match cs with
  | [] => []
  | c :: cs' =>
      match trimEnd cs' with
      | [] => if isSpace c then [] else [c]
      | r => c :: r
      end
  end.

(** [String.prototype.trim] *)
Definition trim (s : string) : string :=
  join (trimEnd (trimStart (characters s))).

Definition dquote : string := String "034"%char EmptyString.

Definition hasUseClientDirective (sf : SourceFile) : bool :=
  match statements sf with
  | stmt :: _ =>
      if bool_decide (kindName stmt = "ExpressionStatement") then
        let text := trim (text stmt) in
        bool_decide (text = "'use client'")
        || bool_decide (text = dquote +:+ "use client" +:+ dquote)
        || bool_decide (text = "'use client';")
        || bool_decide (text = dquote +:+ "use client" +:+ dquote +:+ ";")
      else false
  | [] => false
  end.

Definition getStaticImports (project : Project) (sf : SourceFile)
  : list string :=
  let importFiles :=
    omap (getModuleSpecifierSourceFile project) (importDeclarations sf) in
  let exportFiles :=
    omap (getModuleSpecifierSourceFile project) (exportDeclarations sf) in
  importFiles ++ exportFiles.

End Analyze.

(** ** constants.ts *)

Module Constants.

Fixpoint endsWith (suffix s : string) : bool :=
  bool_decide (s = suffix)
  || match s with
     | EmptyString => false
     | String _ s' => endsWith suffix s'
     end.

Fixpoint includes (sub s : string) : bool :=
  String.prefix sub s
  || match s with
     | EmptyString => false
     | String _ s' => includes sub s'
     end.

(** The regular expression
    [/\.(stories|config|d|test|spec)\.(ts|tsx)$|__mocks__/] as a test. *)
Definition EXCLUDES (p : string) : bool :=
  existsb (λ kind, existsb (λ ext, endsWith ("." +:+ kind +:+ "." +:+ ext) p)
                           ["ts"; "tsx"])
          ["stories"; "config"; "d"; "test"; "spec"]
  || includes "__mocks__" p.

Definition DEFAULT_EXCLUDE : list string :=
  [ "**/*.stories.tsx"; "**/*.stories.ts"; "**/*.spec.ts"; "**/*.spec.tsx";
    "**/*.test.ts"; "**/*.test.tsx"; "**/*.d.ts"; "**/*.config.ts";
    "**/*.config.tsx"; "**/__mocks__/**"; "node_modules/**"; ".git/**";
    ".next/**"; "dist/**"; "out/**"; "build/**"; "coverage/**" ].

End Constants.

(** ** ts-morph and the file system *)

(** [Set<string>.add]: a set keeps insertion order. *)
Definition setAdd (s : list string) (x : string) : list string :=
  if decide (x ∈ s) then s else s ++ [x].

Module TsMorph.

(** [fs.existsSync(p)] *)
Definition existsSync (disk : Disk) (p : string) : bool :=
  bool_decide (is_Some (disk !! p)).

(** [project.getSourceFiles()], as the paths of the files.  The order in
    which ts-morph lists the files is not modelled: the list is in the
    order of the map. *)
Definition getSourceFiles (project : Project) : list string :=
  (map_to_list project).*1.

(** [project.addSourceFileAtPath(p)]; [None] is the exception it throws
    when there is no file at [p]. *)
Definition addSourceFileAtPath (disk : Disk) (project : Project) (p : string)
  : option Project :=
  match disk !! p with
  | Some sf => Some (<[p := sf]> project)
  | None => None
  end.

(** [sf.refreshFromFileSystemSync()]: the file is read again, and is
    forgotten by the project when it is gone. *)
Definition refreshFromFileSystemSync (disk : Disk) (project : Project)
    (p : string) : Project :=
  match disk !! p with
  | Some sf => <[p := sf]> project
  | None => delete p project
  end.

(** [project.addSourceFilesAtPaths(glob)]: every file on disk that the glob
    list selects is registered, unless it already is. *)
Definition addSourceFilesAtPaths (disk : Disk) (selects : string → bool)
    (project : Project) : Project :=
  foldl (λ project '(p, sf),
           if selects p then
             match project !! p with
             | Some _ => project
             | None => <[p := sf]> project
             end
           else project)
        project (map_to_list disk).

End TsMorph.

(** How a call ends: it returns, or it throws, in either case with what it
    has written so far. *)
Inductive Completion (A : Type) : Type :=
| Normal (a : A)
| Throw (exn : string) (a : A).

Arguments Normal {A} a.
Arguments Throw {A} exn a.

(** ** files.ts *)

Module Files.

(** The fifth argument of [refreshChangedFiles], as the value the caller
    passes.  files.ts declares it a [RegExp] and calls [excludes.test].
    The earlier [index.ts] passes the regular expression [EXCLUDES]; the
    present [index.ts] passes the arrow function [isGlobExcluded], and a
    function has no property [test]. *)
Inductive Excludes :=
| RegExp (test : string → bool)
| ArrowFunction (call : string → bool).

(** What [excludes.test(changed)] throws when [excludes] has no [test]. *)
Definition notAFunction : string :=
  "TypeError: excludes.test is not a function".

(** [addAllSourceFiles]: [inScope] stands for the two patterns
    [rootDir/**/*.ts] and [rootDir/**/*.tsx], [globExclude] for the negated
    patterns. *)
Definition addAllSourceFiles (disk : Disk) (inScope globExclude : string → bool)
    (project : Project) : Project :=
  TsMorph.addSourceFilesAtPaths disk
    (λ p, inScope p && negb (globExclude p)) project.

(** The body of the loop of [refreshChangedFiles], for an [excludes] whose
    method [test] is [test]. *)
Definition refreshChangedFilesStep (disk : Disk) (test : string → bool)
    (st : Project * NodeStore * list string) (changed : string)
  : Project * NodeStore * list string :=
  let '(project, nodes, affectedFiles) := st in
  if test changed then
    let nodes := nodes_delete nodes changed in
    let project :=
      match project !! changed with
      | Some _ => delete changed project
      | None => project
      end in
    (project, nodes, affectedFiles)
  else
    let project :=
      match project !! changed with
      | Some _ => TsMorph.refreshFromFileSystemSync disk project changed
      | None =>
          match TsMorph.addSourceFileAtPath disk project changed with
          | Some project' => project'
          | None => project
          end
      end in
    (project, nodes, setAdd affectedFiles changed).

(** [refreshChangedFiles]: every iteration starts with
    [excludes.test(changed)], which throws when [excludes] is not a regular
    expression, before the iteration has written anything. *)
Fixpoint refreshChangedFiles (disk : Disk) (project : Project)
    (nodes : NodeStore) (changedFiles : list string)
    (affectedFiles : list string) (excludes : Excludes)
  : Completion (Project * NodeStore * list string) :=
  match changedFiles with
  | [] => Normal (project, nodes, affectedFiles)
  | changed :: rest =>
      match excludes with
      | ArrowFunction _ => Throw notAFunction (project, nodes, affectedFiles)
      | RegExp test =>
          let '(project, nodes, affectedFiles) :=
            refreshChangedFilesStep disk test (project, nodes, affectedFiles)
                                    changed in
          refreshChangedFiles disk project nodes rest affectedFiles excludes
      end
  end.

Definition removeDeletedFiles (disk : Disk) (project : Project)
    (nodes : NodeStore) : Project * NodeStore :=
  foldl (λ '(project, nodes) p,
           if TsMorph.existsSync disk p then (project, nodes)
           else (delete p project, nodes_delete nodes p))
        (project, nodes) (TsMorph.getSourceFiles project).

Definition markAllFilesAsAffected (project : Project)
    (affectedFiles : list string) : list string :=
  foldl setAdd affectedFiles (TsMorph.getSourceFiles project).

End Files.

(** ** The engine state shared by the versions of [index.ts]

    [inScope], [isGlobExcluded] and [tsConfigFiles] are what the external
    matchers make of [rootDir], [excludePatterns] and the tsconfig file.  A
    listener is taken as an observer: it sees the node store and returns,
    or throws ([Some] of what it throws); what a listener could itself
    write to the public fields of the graph is not modelled.  [log] is a
    ghost field: every method appends its name when it is entered. *)

Inductive Event :=
| EvRemoveDeletedFiles
| EvRefreshChangedFiles
| EvAddAllSourceFiles
| EvMarkAllFilesAsAffected
| EvUpdateFileNodes
| EvClassify
| EvListener (i : nat).

#[global] Instance Event_eq_dec : EqDecision Event.
Proof. solve_decision. Defined.

Record Engine := mkEngine {
  nodes : NodeStore;
  project : Project;
  inScope : string → bool;
  isGlobExcluded : string → bool;
  listeners : list (NodeStore → option string);
  log : list Event
}.

Inductive BuildResult :=
| Returned (e : Engine)
| Raised (exn : string) (e : Engine)
| OutOfFuel.

Definition resultEngine (r : BuildResult) : option Engine :=
  match r with
  | Returned e | Raised _ e => Some e
  | OutOfFuel => None
  end.

Definition withGraph (e : Engine) (project' : Project) (nodes' : NodeStore)
    (ev : Event) : Engine :=
  mkEngine nodes' project' (inScope e) (isGlobExcluded e) (listeners e)
           (log e ++ [ev]).

(** The constructor: [new Project] registers the files the tsconfig file
    selects ([skipAddingFilesFromTsConfig: false]). *)
Definition construct (disk : Disk) (tsConfigFiles inScope exclude : string → bool)
  : Engine :=
  mkEngine [] (filter (λ kv, tsConfigFiles kv.1 = true) disk)
           inScope exclude [] [].

Definition onDidUpdate (listener : NodeStore → option string) (e : Engine)
  : Engine :=
  mkEngine (nodes e) (project e) (inScope e) (isGlobExcluded e)
           (listeners e ++ [listener]) (log e).

(** [EventEmitter.emit]: the listeners are called in the order they were
    registered; what one throws leaves [emit] at once. *)
Fixpoint emit (ls : list (NodeStore → option string)) (i : nat) (e : Engine)
  : BuildResult :=
  match ls with
  | [] => Returned e
  | listener :: rest =>
      let e := withGraph e (project e) (nodes e) (EvListener i) in
      match listener (nodes e) with
      | Some exn => Raised exn e
      | None => emit rest (S i) e
      end
  end.

Definition fireDidUpdate (e : Engine) : BuildResult :=
  emit (listeners e) 0 e.

(** The node [{ filePath, isClient, imports }] written by [updateFileNodes];
    the imports are resolved against the project as it is then. *)
Definition freshNode (project : Project) (filePath : string)
    (sf : SourceFile) : FileNode :=
  mkFileNode filePath (Analyze.hasUseClientDirective sf)
             (Analyze.getStaticImports project sf) None.

(** ** index.ts *)

Module ComponentEnvGraph.

Definition removeDeletedFiles (disk : Disk) (e : Engine) : Engine :=
  let '(project', nodes') := Files.removeDeletedFiles disk (project e) (nodes e) in
  withGraph e project' nodes' EvRemoveDeletedFiles.

(** What a method that entered [refreshChangedFiles] of files.ts leaves. *)
Definition refreshed (e : Engine)
    (r : Completion (Project * NodeStore * list string))
  : Completion (Engine * list string) :=
  match r with
  | Normal (project', nodes', affectedFiles) =>
      Normal (withGraph e project' nodes' EvRefreshChangedFiles, affectedFiles)
  | Throw exn (project', nodes', affectedFiles) =>
      Throw exn (withGraph e project' nodes' EvRefreshChangedFiles,
                 affectedFiles)
  end.

(** [refreshChangedFiles] passes [this.isGlobExcluded], the arrow function
    itself. *)
Definition refreshChangedFiles (disk : Disk) (changedFiles : list string)
    (affectedFiles : list string) (e : Engine)
  : Completion (Engine * list string) :=
  refreshed e
    (Files.refreshChangedFiles disk (project e) (nodes e) changedFiles
       affectedFiles (Files.ArrowFunction (isGlobExcluded e))).

Definition addAllSourceFiles (disk : Disk) (e : Engine) : Engine :=
  withGraph e
    (Files.addAllSourceFiles disk (inScope e) (isGlobExcluded e) (project e))
    (nodes e) EvAddAllSourceFiles.

Definition markAllFilesAsAffected (affectedFiles : list string) (e : Engine)
  : Engine * list string :=
  (withGraph e (project e) (nodes e) EvMarkAllFilesAsAffected,
   Files.markAllFilesAsAffected (project e) affectedFiles).

(** [changedFiles && changedFiles.length > 0] *)
Definition nonEmpty (changedFiles : option (list string)) : option (list string) :=
  match changedFiles with
  | Some (c :: cs) => Some (c :: cs)
  | _ => None
  end.

Definition updateProjectSourceFiles (disk : Disk)
    (changedFiles : option (list string)) (e : Engine)
  : Completion (Engine * list string) :=
  let affectedFiles := [] in
  let e := removeDeletedFiles disk e in
  match nonEmpty changedFiles with
  | Some changedFiles => refreshChangedFiles disk changedFiles affectedFiles e
  | None =>
      let e := addAllSourceFiles disk e in
      Normal (markAllFilesAsAffected affectedFiles e)
  end.

Definition updateFileNodes (filesToUpdate : list string) (e : Engine) : Engine :=
  withGraph e (project e)
    (foldl (λ nodes filePath,
              match project e !! filePath with
              | None => nodes_delete nodes filePath
              | Some sf =>
                  nodes_set nodes filePath (freshNode (project e) filePath sf)
              end)
           (nodes e) filesToUpdate)
    EvUpdateFileNodes.

(** The loop of [build] that writes the types back. *)
Definition applyTypes (types : gmap string ComponentType) (nodes : NodeStore)
  : NodeStore :=
  (λ '(fp, node),
     (fp, match types !! fp with
          | Some ty => setType node ty
          | None => node
          end)) <$> nodes.

(** What [build] does once [updateProjectSourceFiles] has returned. *)
Definition update (filesToUpdate : list string) (e : Engine) : BuildResult :=
  let e := updateFileNodes filesToUpdate e in
  match Classify.computeComponentTypes (nodes e) with
  | None => OutOfFuel
  | Some types =>
      let e := withGraph e (project e) (applyTypes types (nodes e)) EvClassify in
      fireDidUpdate e
  end.

(** [build] has no handler: what [updateProjectSourceFiles] throws leaves
    it at once. *)
Definition build (disk : Disk) (changedFiles : option (list string))
    (e : Engine) : BuildResult :=
  match updateProjectSourceFiles disk changedFiles e with
  | Throw exn (e, _) => Raised exn e
  | Normal (e, filesToUpdate) => update filesToUpdate e
  end.

End ComponentEnvGraph.

(** ** index.ts with the regular expression

    The revision of [index.ts] that came before the present one: its
    [refreshChangedFiles] hands the regular expression [EXCLUDES] to
    files.ts, and its [updateProjectSourceFiles] runs the deletion pass
    after the additions or refreshes.  [addAllSourceFiles],
    [removeDeletedFiles], [markAllFilesAsAffected], [updateFileNodes] and
    the rest of [build] have the text of the present [index.ts]. *)

Module Previous.

Definition refreshChangedFiles (disk : Disk) (changedFiles : list string)
    (affectedFiles : list string) (e : Engine)
  : Completion (Engine * list string) :=
  ComponentEnvGraph.refreshed e
    (Files.refreshChangedFiles disk (project e) (nodes e) changedFiles
       affectedFiles (Files.RegExp Constants.EXCLUDES)).

Definition updateProjectSourceFiles (disk : Disk)
    (changedFiles : option (list string)) (e : Engine)
  : Completion (Engine * list string) :=
  let affectedFiles := [] in
  match
    match ComponentEnvGraph.nonEmpty changedFiles with
    | Some changedFiles => refreshChangedFiles disk changedFiles affectedFiles e
    | None => Normal (ComponentEnvGraph.addAllSourceFiles disk e, affectedFiles)
    end
  with
  | Throw exn r => Throw exn r
  | Normal (e, affectedFiles) =>
      let e := ComponentEnvGraph.removeDeletedFiles disk e in
      match ComponentEnvGraph.nonEmpty changedFiles with
      | Some _ => Normal (e, affectedFiles)
      | None =>
          Normal (ComponentEnvGraph.markAllFilesAsAffected affectedFiles e)
      end
  end.

Definition build (disk : Disk) (changedFiles : option (list string))
    (e : Engine) : BuildResult :=
  match updateProjectSourceFiles disk changedFiles e with
  | Throw exn (e, _) => Raised exn e
  | Normal (e, filesToUpdate) => ComponentEnvGraph.update filesToUpdate e
  end.

End Previous.

(** ** The single-file engine that came before

    [isExcludedFile] is [EXCLUDES.test]; the glob of [_addAllSourceFiles]
    carries the negated [globExclude] patterns, here [isGlobExcluded]. *)

Module Historic.

Definition _refreshChangedFiles (disk : Disk) (changedFiles : list string)
    (affectedFiles : list string) (e : Engine) : Engine * list string :=
  let '(project', affectedFiles) :=
    foldl (λ '(project, affectedFiles) changed,
             let project :=
               match project !! changed with
               | Some _ => TsMorph.refreshFromFileSystemSync disk project changed
               | None =>
                   match TsMorph.addSourceFileAtPath disk project changed with
                   | Some project' => project'
                   | None => project
                   end
               end in
             (project, setAdd affectedFiles changed))
          (project e, affectedFiles) changedFiles in
  (withGraph e project' (nodes e) EvRefreshChangedFiles, affectedFiles).

Definition _addAllSourceFiles (disk : Disk) (e : Engine) : Engine :=
  withGraph e
    (TsMorph.addSourceFilesAtPaths disk
       (λ p, inScope e p && negb (isGlobExcluded e p)) (project e))
    (nodes e) EvAddAllSourceFiles.

Definition _removeDeletedFiles (disk : Disk) (e : Engine) : Engine :=
  let '(project', nodes') :=
    foldl (λ '(project, nodes) p,
             if TsMorph.existsSync disk p then (project, nodes)
             else (delete p project, nodes_delete nodes p))
          (project e, nodes e) (TsMorph.getSourceFiles (project e)) in
  withGraph e project' nodes' EvRemoveDeletedFiles.

Definition _markAllFilesAsAffected (affectedFiles : list string) (e : Engine)
  : Engine * list string :=
  (withGraph e (project e) (nodes e) EvMarkAllFilesAsAffected,
   foldl setAdd affectedFiles (TsMorph.getSourceFiles (project e))).

Definition _updateProjectSourceFiles (disk : Disk)
    (changedFiles : option (list string)) (e : Engine) : Engine * list string :=
  let affectedFiles := [] in
  let '(e, affectedFiles) :=
    match ComponentEnvGraph.nonEmpty changedFiles with
    | Some changedFiles => _refreshChangedFiles disk changedFiles affectedFiles e
    | None => (_addAllSourceFiles disk e, affectedFiles)
    end in
  let e := _removeDeletedFiles disk e in
  match ComponentEnvGraph.nonEmpty changedFiles with
  | Some _ => (e, affectedFiles)
  | None => _markAllFilesAsAffected affectedFiles e
  end.

Definition isExcludedFile (filePath : string) : bool :=
  Constants.EXCLUDES filePath.

Definition _updateFileNodes (filesToUpdate : list string) (e : Engine) : Engine :=
  withGraph e (project e)
    (foldl (λ nodes filePath,
              match project e !! filePath with
              | Some sf =>
                  if isExcludedFile filePath then nodes_delete nodes filePath
                  else nodes_set nodes filePath
                         (freshNode (project e) filePath sf)
              | None => nodes_delete nodes filePath
              end)
           (nodes e) filesToUpdate)
    EvUpdateFileNodes.

Definition build (disk : Disk) (changedFiles : option (list string))
    (e : Engine) : BuildResult :=
  let '(e, filesToUpdate) := _updateProjectSourceFiles disk changedFiles e in
  let e := _updateFileNodes filesToUpdate e in
  match InPlace.classifyComponentTypes (nodes e) with
  | None => OutOfFuel
  | Some nodes' =>
      let e := withGraph e (project e) nodes' EvClassify in
      fireDidUpdate e
  end.

End Historic.

(** * Specification vocabulary *)

(** [edge nodes x y]: [x] is a node that imports [y], and [y] is a node. *)
Definition edge (nodes : NodeStore) (x y : string) : Prop :=
  ∃ n, nodes_get nodes x = Some n ∧ y ∈ imports n ∧ nodes_has nodes y = true.

(** What one call of [visit] (or one run of a loop of calls) from the paths
    [roots] does to the visited set. *)
Record visited (nodes : NodeStore) (roots : list string)
    (before after : gset string) : Prop := mkVisited {
  visited_mono : before ⊆ after;
  visited_roots : ∀ r, r ∈ roots → r ∈ after;
  visited_closed :
    ∀ x y, x ∈ after → x ∉ before → edge nodes x y → y ∈ after;
  visited_sound :
    ∀ x, x ∈ after → x ∉ before → ∃ r, r ∈ roots ∧ rtc (edge nodes) r x
}.

(** The number of nodes not yet visited: the measure of the traversal. *)
Definition unvisited (nodes : NodeStore) (cr : gset string) : nat :=
  size (list_to_set (C := gset string) (keys nodes) ∖ cr).

(** [importer nodes t p]: the node [p] has [t] among its imports. *)
Definition importer (nodes : NodeStore) (t p : string) : Prop :=
  ∃ n, (p, n) ∈ nodes ∧ t ∈ imports n.

(** [clientReach nodes x]: a client entry reaches [x]. *)
Definition clientReach (nodes : NodeStore) (x : string) : Prop :=
  ∃ e, e ∈ Classify.getClientEntries nodes ∧ rtc (edge nodes) e x.

(** [mixedImporters types t]: [t] has an importer typed client and an
    importer typed server by [types]. *)
Definition mixedImporters (nodes : NodeStore)
    (types : gmap string ComponentType) (t : string) : Prop :=
  (∃ p, importer nodes t p ∧ types !! p = Some client) ∧
  (∃ q, importer nodes t q ∧ types !! q = Some server).

(** [recorded importers t p]: [p] is in the set stored under [t]. *)
Definition recorded (importers : gmap string (gset string)) (t p : string)
  : Prop :=
  ∃ from, importers !! t = Some from ∧ p ∈ from.

(** What the loop of [refreshChangedFiles] leaves when [excludes] is a
    regular expression whose method [test] is [test]. *)
Definition refreshedFiles (disk : Disk) (project : Project)
    (nodes : NodeStore) (changedFiles : list string)
    (affectedFiles : list string) (test : string → bool)
  : Project * NodeStore * list string :=
  foldl (Files.refreshChangedFilesStep disk test)
        (project, nodes, affectedFiles) changedFiles.

(** [ComponentEnvGraph.update] up to [fireDidUpdate]: the state the
    listeners are notified in. *)
Definition classified (filesToUpdate : list string) (e : Engine)
  : option Engine :=
  let e := ComponentEnvGraph.updateFileNodes filesToUpdate e in
  match Classify.computeComponentTypes (nodes e) with
  | None => None
  | Some types =>
      Some (withGraph e (project e)
              (ComponentEnvGraph.applyTypes types (nodes e)) EvClassify)
  end.

(** The graph update of [build]: the state [build] has made when it calls
    [fireDidUpdate], if it gets that far. *)
Definition graphUpdate (disk : Disk) (changedFiles : option (list string))
    (e : Engine) : option Engine :=
  match ComponentEnvGraph.updateProjectSourceFiles disk changedFiles e with
  | Normal (e, filesToUpdate) => classified filesToUpdate e
  | Throw _ _ => None
  end.

(** The same for the revision of [index.ts] with the regular expression. *)
Definition previousUpdate (disk : Disk) (changedFiles : option (list string))
    (e : Engine) : option Engine :=
  match Previous.updateProjectSourceFiles disk changedFiles e with
  | Normal (e, filesToUpdate) => classified filesToUpdate e
  | Throw _ _ => None
  end.

(** The methods entered during a build that started with an empty log. *)
Definition buildLog (r : BuildResult) : list Event :=
  match resultEngine r with
  | Some e => log e
  | None => []
  end.

(** A log in which the deletion pass runs once, after the additions or
    refreshes and before the nodes are recomputed. *)
Definition deletionPassAfterAdditions (evs : list Event) : Prop :=
  ∃ pre post,
    evs = pre ++ EvRemoveDeletedFiles :: post ∧
    (EvRemoveDeletedFiles ∉ pre) ∧ (EvRemoveDeletedFiles ∉ post) ∧
    (EvRefreshChangedFiles ∈ pre ∨ EvAddAllSourceFiles ∈ pre) ∧
    (EvUpdateFileNodes ∉ pre) ∧ EvUpdateFileNodes ∈ post.

(** The phases of a full scan of [index.ts], in the order they are
    entered. *)
Definition fullScanPhases : list Event :=
  [EvRemoveDeletedFiles; EvAddAllSourceFiles; EvMarkAllFilesAsAffected;
   EvUpdateFileNodes; EvClassify].

(** The paths and types of the nodes a build leaves. *)
Definition typesAfterBuild (r : BuildResult)
  : option (list (string * option ComponentType)) :=
  (λ e, (λ '(fp, node), (fp, type node)) <$> nodes e) <$> resultEngine r.

(** ** Example inputs *)

Module Examples.

(** [x] is client-marked and imports [u]; [y] imports [u] and [t]; [u]
    imports [t]. *)
Definition cascade : NodeStore :=
  [ ("/app/x.tsx", mkFileNode "/app/x.tsx" true ["/app/u.tsx"] None);
    ("/app/y.tsx",
     mkFileNode "/app/y.tsx" false ["/app/u.tsx"; "/app/t.tsx"] None);
    ("/app/u.tsx", mkFileNode "/app/u.tsx" false ["/app/t.tsx"] None);
    ("/app/t.tsx", mkFileNode "/app/t.tsx" false [] None) ].

(** The same nodes, [t] inserted before [u]. *)
Definition cascadeReordered : NodeStore :=
  [ ("/app/x.tsx", mkFileNode "/app/x.tsx" true ["/app/u.tsx"] None);
    ("/app/y.tsx",
     mkFileNode "/app/y.tsx" false ["/app/u.tsx"; "/app/t.tsx"] None);
    ("/app/t.tsx", mkFileNode "/app/t.tsx" false [] None);
    ("/app/u.tsx", mkFileNode "/app/u.tsx" false ["/app/t.tsx"] None) ].

Definition cycle : NodeStore :=
  [ ("/app/a.tsx", mkFileNode "/app/a.tsx" false ["/app/b.tsx"] None);
    ("/app/b.tsx", mkFileNode "/app/b.tsx" false ["/app/a.tsx"] None) ].

(** [export const A = () => null;] *)
Definition plainFile : SourceFile :=
  mkSourceFile [mkStatement "VariableStatement" "export const A = () => null;"]
               [] [].

(** [import { A } from "./a"; export default {};] *)
Definition storiesFile : SourceFile :=
  mkSourceFile [mkStatement "ImportDeclaration" "import { A } from './a';";
                mkStatement "ExportAssignment" "export default {};"]
               [Some "/app/a.tsx"] [].

(** A project directory [/app] with [a.tsx] and [a.stories.tsx]. *)
Definition storiesDisk : Disk :=
  <["/app/a.tsx" := plainFile]> (<["/app/a.stories.tsx" := storiesFile]> ∅).

(** [/app/**/*.ts] and [/app/**/*.tsx] *)
Definition inApp (p : string) : bool :=
  String.prefix "/app/" p
  && (Constants.endsWith ".ts" p || Constants.endsWith ".tsx" p).

(** The engine made for [/app] when both files are there, with a tsconfig
    file that includes every file.  The exclusion test is [EXCLUDES]; on the
    paths of these examples it agrees with the patterns of
    [DEFAULT_EXCLUDE]. *)
Definition storiesEngine : Engine :=
  construct storiesDisk (λ _, true) inApp Constants.EXCLUDES.

(** An engine that tracks [/app/shared.tsx]. *)
Definition sharedEngine : Engine :=
  mkEngine [("/app/shared.tsx", mkFileNode "/app/shared.tsx" false [] (Some server))]
           (<["/app/shared.tsx" := plainFile]> ∅)
           inApp Constants.EXCLUDES [] [].

(** Two listeners: the first throws, the second returns. *)
Definition failingListener : NodeStore → option string :=
  λ _, Some "listener failed".

Definition quietListener : NodeStore → option string := λ _, None.

Definition listeningEngine : Engine :=
  onDidUpdate quietListener (onDidUpdate failingListener storiesEngine).

(** The directive ["use client";] as the text of a statement. *)
Definition useClient : Statement :=
  mkStatement "ExpressionStatement"
              (Analyze.dquote +:+ "use client" +:+ Analyze.dquote +:+ ";").

(** U+00A0 and U+000A in UTF-8. *)
Definition noBreakSpace : string :=
  String "194"%char (String "160"%char EmptyString).

Definition lineFeed : string := String "010"%char EmptyString.

(** [a.tsx] is client-marked and imports [b.tsx], which imports [c.tsx]. *)
Definition chainDisk : Disk :=
  <["/app/a.tsx" :=
      mkSourceFile [useClient;
                    mkStatement "ImportDeclaration" "import { B } from './b';";
                    mkStatement "VariableStatement" "export const A = () => null;"]
                   [Some "/app/b.tsx"] []]>
  (<["/app/b.tsx" :=
      mkSourceFile [mkStatement "ImportDeclaration" "import { C } from './c';";
                    mkStatement "VariableStatement" "export const B = () => null;"]
                   [Some "/app/c.tsx"] []]>
  (<["/app/c.tsx" := plainFile]> ∅)).

(** [index.ts] is client-marked and re-exports [Button.tsx]; it also
    imports a package that resolves to no file. *)
Definition reexportDisk : Disk :=
  <["/app/index.ts" :=
      mkSourceFile [useClient;
                    mkStatement "ExportDeclaration" "export * from './Button';"]
                   [None] [Some "/app/Button.tsx"]]>
  (<["/app/Button.tsx" := plainFile]> ∅).

(** The engine of the tests: made when [/app] holds no source file. *)
Definition emptyEngine : Engine :=
  construct ∅ (λ _, true) inApp Constants.EXCLUDES.

(** [a] is client-marked; [a] and [b] import a path that is not a node. *)
Definition dangling : NodeStore :=
  [ ("/app/a.tsx",
     mkFileNode "/app/a.tsx" true ["/app/b.tsx"; "/lib/gone.tsx"] None);
    ("/app/b.tsx", mkFileNode "/app/b.tsx" false ["/lib/gone.tsx"] None) ].

End Examples.

(** ** Vocabulary of the further properties *)

(** A node without its type, and a store without its types. *)
Definition untypedNode (n : FileNode) : FileNode :=
  mkFileNode (filePath n) (isClient n) (imports n) None.

Definition untyped (nodes : NodeStore) : NodeStore :=
  (λ '(k, n), (k, untypedNode n)) <$> nodes.

(** The store with every import that is not a node removed. *)
Definition pruneImports (nodes : NodeStore) : NodeStore :=
  (λ '(k, n),
     (k, mkFileNode (filePath n) (isClient n)
                    (filter (λ imp, nodes_has nodes imp = true) (imports n))
                    (type n))) <$> nodes.

(** [importsNode nodes p t]: the node stored under [p] imports [t]. *)
Definition importsNode (nodes : NodeStore) (p t : string) : Prop :=
  ∃ n, nodes_get nodes p = Some n ∧ t ∈ imports n.

(** [promoted nodes k]: the node [k] is not client-marked, one of its
    importers is reached by a client entry and one is not. *)
Definition promoted (nodes : NodeStore) (k : string) : Prop :=
  (∃ n, nodes_get nodes k = Some n ∧ isClient n = false) ∧
  (∃ p, importsNode nodes p k ∧ clientReach nodes p) ∧
  (∃ q, importsNode nodes q k ∧ ¬ clientReach nodes q).

(** The node store is a map, every node is stored under its own path, and
    it carries the client mark of the source file registered under that
    path. *)
Definition consistent (e : Engine) : Prop :=
  NoDup (keys (nodes e)) ∧
  ∀ q n, nodes_get (nodes e) q = Some n →
         filePath n = q ∧
         ∃ sf, project e !! q = Some sf ∧
               isClient n = Analyze.hasUseClientDirective sf.

(** What [updateProjectSourceFiles] makes of the parse set and the node
    store, and the affected files it returns, with the deletion pass first:
    [test] is the exclusion test of the refresh, when it has one. *)
Definition reconcile (disk : Disk) (inScope exclude : string → bool)
    (changedFiles : option (list string)) (project : Project)
    (nodes : NodeStore) : Project * NodeStore * list string :=
  let r0 := Files.removeDeletedFiles disk project nodes in
  match ComponentEnvGraph.nonEmpty changedFiles with
  | Some changedFiles =>
      refreshedFiles disk r0.1 r0.2 changedFiles [] exclude
  | None =>
      let project1 := Files.addAllSourceFiles disk inScope exclude r0.1 in
      (project1, r0.2, Files.markAllFilesAsAffected project1 [])
  end.

(** The same with the deletion pass after the additions or refreshes. *)
Definition reconcileLast (disk : Disk) (inScope exclude : string → bool)
    (changedFiles : option (list string)) (project : Project)
    (nodes : NodeStore) : Project * NodeStore * list string :=
  let r1 :=
    match ComponentEnvGraph.nonEmpty changedFiles with
    | Some changedFiles =>
        refreshedFiles disk project nodes changedFiles [] exclude
    | None =>
        (Files.addAllSourceFiles disk inScope exclude project, nodes, [])
    end in
  let r2 := Files.removeDeletedFiles disk r1.1.1 r1.1.2 in
  match ComponentEnvGraph.nonEmpty changedFiles with
  | Some _ => (r2.1, r2.2, r1.2)
  | None => (r2.1, r2.2, Files.markAllFilesAsAffected r2.1 [])
  end.

(** The loop of [updateFileNodes] on the node store alone. *)
Definition updateNodes (project : Project) (filesToUpdate : list string)
    (nodes : NodeStore) : NodeStore :=
  foldl (λ nodes filePath,
           match project !! filePath with
           | None => nodes_delete nodes filePath
           | Some sf => nodes_set nodes filePath (freshNode project filePath sf)
           end) nodes filesToUpdate.

(** The node store the classifier is given, for what the reconciler
    left. *)
Definition storeToClassify (r : Project * NodeStore * list string)
  : NodeStore :=
  updateNodes r.1.1 r.2 r.1.2.

(** Case analysis on membership in an explicit list. *)
Ltac elem_of_cases H :=
  repeat (apply elem_of_cons in H as [H|H]);
  [..| by apply elem_of_nil in H]; simplify_eq/=.

(** * Properties *)

(** ** The node store *)

Section node_store.
Implicit Types (nodes : NodeStore) (k fp : string) (n : FileNode).

Lemma nodes_get_elem_of nodes k n :
  nodes_get nodes k = Some n → (k, n) ∈ nodes.
Proof.
  induction nodes as [|[k' m] rest IH]; simpl; [done|].
  case_decide; intros Hg.
  - simplify_eq. left.
  - right. by apply IH.
Qed.

Lemma nodes_get_None nodes k : nodes_get nodes k = None ↔ k ∉ keys nodes.
Proof.
  unfold keys. induction nodes as [|[k' m] rest IH]; simpl.
  - split; [intros _; apply not_elem_of_nil | done].
  - rewrite not_elem_of_cons. case_decide; naive_solver.
Qed.

Lemma nodes_get_is_Some nodes k : is_Some (nodes_get nodes k) ↔ k ∈ keys nodes.
Proof.
  rewrite <-not_eq_None_Some, nodes_get_None.
  destruct (decide (k ∈ keys nodes)); naive_solver.
Qed.

Lemma nodes_has_true nodes k : nodes_has nodes k = true ↔ k ∈ keys nodes.
Proof.
  unfold nodes_has. rewrite bool_decide_eq_true. apply nodes_get_is_Some.
Qed.

Lemma nodes_get_of_elem nodes k n :
  NoDup (keys nodes) → (k, n) ∈ nodes → nodes_get nodes k = Some n.
Proof.
  unfold keys. induction nodes as [|[k' m] rest IH]; simpl.
  - intros _ H. by apply elem_of_nil in H.
  - rewrite NoDup_cons. intros [Hk ND] [H|H]%elem_of_cons.
    + simplify_eq. by rewrite decide_True.
    + rewrite decide_False; [by apply IH|].
      intros ->. apply Hk. apply list_elem_of_fmap. by exists (k, n).
Qed.

Lemma nodes_get_perm nodes nodes' k :
  NoDup (keys nodes) → nodes ≡ₚ nodes' →
  nodes_get nodes' k = nodes_get nodes k.
Proof.
  intros ND HP.
  assert (NoDup (keys nodes')) as ND'.
  { unfold keys in *. by rewrite <-HP. }
  destruct (nodes_get nodes k) as [n|] eqn:E.
  - apply nodes_get_of_elem; [done|]. rewrite <-HP. by apply nodes_get_elem_of.
  - apply nodes_get_None. apply nodes_get_None in E.
    unfold keys in *. by rewrite <-HP.
Qed.

End node_store.

(** ** The client-reachability traversal *)

Section traversal.
Variable nodes : NodeStore.
Implicit Types (fp : string) (cr : gset string).

Lemma visited_nil cr : visited nodes [] cr cr.
Proof. split; [done| |done..]. intros r Hr. by apply elem_of_nil in Hr. Qed.

Lemma visited_skip r roots cr cr' :
  r ∈ cr → visited nodes roots cr cr' → visited nodes (r :: roots) cr cr'.
Proof.
  intros Hr [Hm Hro Hc Hs]. split; [done| |done|].
  - intros r' [->|?]%elem_of_cons; [by apply Hm | by apply Hro].
  - intros x Hx Hnx. destruct (Hs x Hx Hnx) as (r' & ? & ?).
    exists r'. split; [by right | done].
Qed.

Lemma visited_cons r roots cr cr1 cr2 :
  visited nodes [r] cr cr1 → visited nodes roots cr1 cr2 →
  visited nodes (r :: roots) cr cr2.
Proof.
  intros [Hm1 Hr1 Hc1 Hs1] [Hm2 Hr2 Hc2 Hs2]. split.
  - set_solver.
  - intros r' [->|?]%elem_of_cons; [apply Hm2, Hr1; left | by apply Hr2].
  - intros x y Hx Hnx He. destruct (decide (x ∈ cr1)) as [Hx1|Hx1].
    + apply Hm2. by apply (Hc1 x y).
    + by apply (Hc2 x y).
  - intros x Hx Hnx. destruct (decide (x ∈ cr1)) as [Hx1|Hx1].
    + destruct (Hs1 x Hx1 Hnx) as (r' & ->%list_elem_of_singleton & ?).
      exists r. split; [left | done].
    + destruct (Hs2 x Hx Hx1) as (r' & ? & ?).
      exists r'. split; [by right | done].
Qed.

(** Skipping the imports that are not nodes loses no edge. *)
Lemma visitImports_visited rec imps :
  (∀ fp cr cr', rec fp cr = Some cr' → visited nodes [fp] cr cr') →
  ∀ cr cr', Classify.visitImports nodes rec imps cr = Some cr' →
    visited nodes (filter (λ imp, nodes_has nodes imp = true) imps) cr cr'.
Proof.
  intros Hrec. induction imps as [|imp rest IH]; simpl; intros cr cr' H.
  - simplify_eq. apply visited_nil.
  - destruct (nodes_has nodes imp) eqn:Hhas.
    + rewrite filter_cons_True by done.
      destruct (rec imp cr) as [cr1|] eqn:E; [|done].
      eapply visited_cons; [by apply Hrec | by apply IH].
    + rewrite filter_cons_False by (by rewrite Hhas). by apply IH.
Qed.

Lemma visit_visited fuel :
  ∀ fp cr cr', Classify.visit fuel nodes fp cr = Some cr' →
    visited nodes [fp] cr cr'.
Proof.
  induction fuel as [|fuel IH]; simpl; intros fp cr cr' H; [done|].
  case_decide as Hin.
  - simplify_eq. apply visited_skip; [done | apply visited_nil].
  - destruct (nodes_get nodes fp) as [node|] eqn:Hget.
    + apply (visitImports_visited _ _ IH) in H.
      destruct H as [Hm Hro Hc Hs]. split.
      * set_solver.
      * intros r ->%list_elem_of_singleton. apply Hm. set_solver.
      * intros x y Hx Hnx He. destruct (decide (x = fp)) as [->|Hne].
        -- destruct He as (n & Hn & Hy & Hhas). simplify_eq.
           apply Hro. by apply list_elem_of_filter.
        -- apply (Hc x y); [done| set_solver | done].
      * intros x Hx Hnx. exists fp. split; [left|].
        destruct (decide (x = fp)) as [->|Hne]; [done|].
        destruct (Hs x Hx) as (r & [Hhas Hr]%list_elem_of_filter & Hrt);
          [set_solver|].
        eapply rtc_l; [|done]. by exists node.
    + simplify_eq. split.
      * set_solver.
      * intros r ->%list_elem_of_singleton. set_solver.
      * intros x y Hx Hnx (n & Hn & _).
        assert (x = fp) as -> by set_solver. congruence.
      * intros x Hx Hnx. assert (x = fp) as -> by set_solver.
        exists fp. split; [left | done].
Qed.

Lemma visitEntries_visited fuel entries :
  ∀ cr cr', Classify.visitEntries fuel nodes entries cr = Some cr' →
    visited nodes entries cr cr'.
Proof.
  induction entries as [|entry rest IH]; simpl; intros cr cr' H.
  - simplify_eq. apply visited_nil.
  - destruct (Classify.visit fuel nodes entry cr) as [cr1|] eqn:E; [|done].
    eapply visited_cons; [by eapply visit_visited | by apply IH].
Qed.

(** Started from the empty set, the traversal returns the paths reachable
    from the roots. *)
Lemma visited_empty_reachable roots cr :
  visited nodes roots ∅ cr →
  ∀ x, x ∈ cr ↔ ∃ r, r ∈ roots ∧ rtc (edge nodes) r x.
Proof.
  intros [Hm Hro Hc Hs] x. split.
  - intros Hx. apply Hs; [done | set_solver].
  - intros (r & Hr & Hrt). apply Hro in Hr.
    induction Hrt as [|a b c Hab _ IH]; [done|].
    apply IH. apply (Hc a b); [done | set_solver | done].
Qed.

(** *** Termination: the recursion never goes deeper than the number of
    nodes not yet visited, plus one. *)

Lemma unvisited_mono cr cr' :
  cr ⊆ cr' → unvisited nodes cr' ≤ unvisited nodes cr.
Proof. intros H. unfold unvisited. apply subseteq_size. set_solver. Qed.

Lemma unvisited_add fp cr :
  fp ∈ keys nodes → fp ∉ cr →
  unvisited nodes (cr ∪ {[fp]}) < unvisited nodes cr.
Proof.
  intros Hk Hn. unfold unvisited. apply subset_size, strict_spec_alt. split.
  - set_solver.
  - intros Heq. assert (fp ∈ list_to_set (C := gset string) (keys nodes) ∖ cr)
      as Hfp by set_solver.
    rewrite <-Heq in Hfp. set_solver.
Qed.

Lemma unvisited_le_length cr : unvisited nodes cr ≤ length nodes.
Proof.
  unfold unvisited, keys.
  etrans; [apply subseteq_size, subseteq_difference_l; reflexivity|].
  rewrite <-(length_fmap fst nodes).
  induction (nodes.*1) as [|a l IH].
  - by rewrite list_to_set_nil, size_empty.
  - rewrite list_to_set_cons, size_union_alt, size_singleton. simpl.
    assert (size (list_to_set (C := gset string) l ∖ {[a]})
            ≤ size (list_to_set (C := gset string) l)) as Hle
      by (apply subseteq_size; set_solver).
    lia.
Qed.

Lemma visitImports_total rec bound imps :
  (∀ fp cr cr', rec fp cr = Some cr' → cr ⊆ cr') →
  (∀ fp cr, unvisited nodes cr < bound → is_Some (rec fp cr)) →
  ∀ cr, unvisited nodes cr < bound →
    is_Some (Classify.visitImports nodes rec imps cr).
Proof.
  intros Hmono Htot. induction imps as [|imp rest IH]; simpl; intros cr Hb.
  - by eexists.
  - destruct (nodes_has nodes imp); [|by apply IH].
    destruct (Htot imp cr Hb) as [cr1 E]. rewrite E. apply IH.
    pose proof (unvisited_mono _ _ (Hmono _ _ _ E)). lia.
Qed.

Lemma visit_total fuel :
  ∀ fp cr, unvisited nodes cr < fuel →
    is_Some (Classify.visit fuel nodes fp cr).
Proof.
  induction fuel as [|fuel IH]; simpl; intros fp cr Hb; [lia|].
  case_decide as Hin; [by eexists|].
  destruct (nodes_get nodes fp) as [node|] eqn:Hget; [|by eexists].
  apply (visitImports_total _ fuel).
  - intros fp' cr1 cr2 E. by destruct (visit_visited _ _ _ _ E).
  - done.
  - assert (fp ∈ keys nodes) as Hk by (apply nodes_get_is_Some; eauto).
    pose proof (unvisited_add fp cr Hk Hin). lia.
Qed.

Lemma visitEntries_total fuel entries :
  length nodes < fuel →
  ∀ cr, is_Some (Classify.visitEntries fuel nodes entries cr).
Proof.
  intros Hf. induction entries as [|entry rest IH]; simpl; intros cr.
  - by eexists.
  - destruct (visit_total fuel entry cr) as [cr1 E].
    + pose proof (unvisited_le_length cr). lia.
    + rewrite E. apply IH.
Qed.

(** [getClientReachable] returns, and returns the set of the paths that
    the entries reach through imports that are nodes. *)
Lemma getClientReachable_reachable fuel entries :
  length nodes < fuel →
  ∃ cr, Classify.getClientReachable fuel nodes entries = Some cr ∧
        ∀ x, x ∈ cr ↔ ∃ r, r ∈ entries ∧ rtc (edge nodes) r x.
Proof.
  intros Hf. unfold Classify.getClientReachable.
  destruct (visitEntries_total fuel entries Hf ∅) as [cr E].
  exists cr. split; [done|].
  apply visited_empty_reachable. by eapply visitEntries_visited.
Qed.

End traversal.

(** ** The steps of the classifier *)

Section classifier_steps.
Implicit Types (nodes : NodeStore) (cr : gset string)
  (types : gmap string ComponentType) (importers : gmap string (gset string)).

Lemma getClientEntries_elem_of nodes e :
  e ∈ Classify.getClientEntries nodes ↔
  ∃ k n, (k, n) ∈ nodes ∧ isClient n = true ∧ filePath n = e.
Proof.
  unfold Classify.getClientEntries, values. rewrite list_elem_of_fmap.
  split.
  - intros (n & -> & [Hc ((k & n') & -> & Hin)%list_elem_of_fmap]%list_elem_of_filter).
    by exists k, n'.
  - intros (k & n & Hin & Hc & <-). exists n. split; [done|].
    apply list_elem_of_filter. split; [done|].
    apply list_elem_of_fmap. by exists (k, n).
Qed.

Lemma initNodeTypes_lookup nodes cr k :
  Classify.initNodeTypes nodes cr !! k =
  if decide (k ∈ keys nodes)
  then Some (if decide (k ∈ cr) then client else server) else None.
Proof.
  unfold Classify.initNodeTypes.
  assert (∀ l (acc : gmap string ComponentType),
    foldl (λ types fp,
             <[fp := if decide (fp ∈ cr) then client else server]> types) acc l
      !! k
    = if decide (k ∈ l)
      then Some (if decide (k ∈ cr) then client else server) else acc !! k)
    as Hgen.
  { induction l as [|a l IH]; intros acc; cbn [foldl].
    - destruct (decide (k ∈ [])) as [Hk|Hk]; [|done].
      by apply elem_of_nil in Hk.
    - rewrite IH.
      destruct (decide (k ∈ l)) as [Hl|Hl],
               (decide (k ∈ a :: l)) as [Hal|Hal]; try done.
      + exfalso. apply Hal. by right.
      + apply elem_of_cons in Hal as [->|?]; [|done].
        by rewrite lookup_insert_eq.
      + rewrite lookup_insert_ne; [done|]. intros ->. apply Hal. left. }
  rewrite Hgen. by rewrite lookup_empty.
Qed.

Lemma addImporter_recorded fp importers imp t p :
  recorded (Classify.addImporter fp importers imp) t p ↔
  recorded importers t p ∨ (t = imp ∧ p = fp).
Proof.
  unfold recorded, Classify.addImporter.
  destruct (importers !! imp) as [from|] eqn:E.
  - rewrite E. destruct (decide (t = imp)) as [->|Hne].
    + rewrite lookup_insert_eq, E. split.
      * intros (from' & ? & Hp). simplify_eq.
        apply elem_of_union in Hp as [Hp|Hp]; [left; eauto|].
        right. set_solver.
      * intros [(from' & ? & Hp)|[_ ->]]; simplify_eq;
          eexists; (split; [done|]); set_solver.
    + rewrite lookup_insert_ne by done. naive_solver.
  - rewrite lookup_insert_eq. destruct (decide (t = imp)) as [->|Hne].
    + rewrite insert_insert_eq, lookup_insert_eq, E. split.
      * intros (from' & ? & Hp). simplify_eq. right. set_solver.
      * intros [(from' & ? & Hp)|[_ ->]]; [done|].
        eexists. split; [done|]. set_solver.
    + rewrite !lookup_insert_ne by done. naive_solver.
Qed.

Lemma collectImporters_recorded nodes t p :
  recorded (Classify.collectImporters nodes) t p ↔ importer nodes t p.
Proof.
  unfold Classify.collectImporters, importer.
  assert (∀ fp imps importers,
    recorded (foldl (Classify.addImporter fp) importers imps) t p ↔
    recorded importers t p ∨ (t ∈ imps ∧ p = fp)) as Hinner.
  { intros fp. induction imps as [|imp imps IH]; intros importers; simpl.
    - rewrite elem_of_nil. naive_solver.
    - rewrite IH, addImporter_recorded, elem_of_cons. naive_solver. }
  assert (∀ l importers,
    recorded (foldl (λ importers '(fp, node),
                       foldl (Classify.addImporter fp) importers (imports node))
                    importers l) t p ↔
    recorded importers t p ∨ ∃ n, (p, n) ∈ l ∧ t ∈ imports n) as Houter.
  { induction l as [|[fp node] l IH]; intros importers; simpl.
    - split; [by left|]. intros [?|(n & Hn & _)]; [done|].
      by apply elem_of_nil in Hn.
    - rewrite IH, Hinner. setoid_rewrite elem_of_cons. split.
      + intros [[?|[? ->]]|(n & ? & ?)]; [by left|right..].
        * exists node. split; [by left | done].
        * exists n. split; [by right | done].
      + intros [?|(n & [?|?] & ?)]; [by left; left| |].
        * simplify_eq. left. by right.
        * right. by exists n. }
  rewrite Houter. unfold recorded. rewrite lookup_empty. naive_solver.
Qed.

Lemma isUniversalTypeLoop_true types l hasClient hasServer :
  hasClient && hasServer = false →
  Classify.isUniversalTypeLoop types l hasClient hasServer = true ↔
  (hasClient = true ∨ ∃ p, p ∈ l ∧ types !! p = Some client) ∧
  (hasServer = true ∨ ∃ q, q ∈ l ∧ types !! q = Some server).
Proof.
  revert hasClient hasServer.
  induction l as [|a l IH]; intros hc hs Hinv;
    cbn [Classify.isUniversalTypeLoop].
  - setoid_rewrite elem_of_nil. destruct hc, hs; naive_solver.
  - setoid_rewrite elem_of_cons.
    destruct (decide (types !! a = Some client)) as [Ec|Ec];
      destruct (decide (types !! a = Some server)) as [Es|Es];
      [congruence|..];
      destruct hc, hs; try discriminate Hinv; cbn [andb];
      try (rewrite IH by done);
      (split; [intros H | intros [[?|(p & [->|?] & ?)] [?|(q & [->|?] & ?)]]]);
      try congruence; try done; naive_solver.
Qed.

Lemma isUniversalType_true types (from : gset string) :
  Classify.isUniversalType types from = true ↔
  (∃ p, p ∈ from ∧ types !! p = Some client) ∧
  (∃ q, q ∈ from ∧ types !! q = Some server).
Proof.
  unfold Classify.isUniversalType.
  rewrite isUniversalTypeLoop_true by done.
  setoid_rewrite elem_of_elements. naive_solver.
Qed.

Lemma computeUniversalSet_elem_of nodes importers types k :
  k ∈ Classify.computeUniversalSet nodes importers types ↔
  ∃ n from, (k, n) ∈ nodes ∧ isClient n = false ∧
            importers !! k = Some from ∧
            Classify.isUniversalType types from = true.
Proof.
  unfold Classify.computeUniversalSet.
  assert (∀ l (acc : gset string),
    k ∈ foldl (λ universal '(fp, node),
                 if isClient node then universal
                 else match importers !! fp with
                      | None => universal
                      | Some from =>
                          if Classify.isUniversalType types from
                          then universal ∪ {[fp]} else universal
                      end) acc l ↔
    k ∈ acc ∨ ∃ n from, (k, n) ∈ l ∧ isClient n = false ∧
                        importers !! k = Some from ∧
                        Classify.isUniversalType types from = true) as Hgen.
  { induction l as [|[fp node] l IH]; intros acc; simpl.
    - split; [by left|]. intros [?|(n & from & Hn & _)]; [done|].
      by apply elem_of_nil in Hn.
    - rewrite IH. setoid_rewrite elem_of_cons. split.
      + intros [Hacc|(n & from & ? & ?)]; [|right; exists n, from; naive_solver].
        destruct (isClient node) eqn:Ec; [by left|].
        destruct (importers !! fp) as [from|] eqn:Ei; [|by left].
        destruct (Classify.isUniversalType types from) eqn:Eu; [|by left].
        apply elem_of_union in Hacc as [?|Hk]; [by left|].
        apply elem_of_singleton in Hk as ->.
        right. exists node, from. naive_solver.
      + intros [Hacc|(n & from & [Heq|?] & Hc & Hi & Hu)].
        * left. destruct (isClient node); [done|].
          destruct (importers !! fp); [|done].
          destruct (Classify.isUniversalType types g); set_solver.
        * simplify_eq. left. rewrite Hc, Hi, Hu. set_solver.
        * right. exists n, from. naive_solver. }
  rewrite Hgen. set_solver.
Qed.

Lemma promote_lookup types (universalSet : gset string) k :
  foldl (λ types fp, <[fp := universal]> types) types (elements universalSet)
    !! k
  = if decide (k ∈ universalSet) then Some universal else types !! k.
Proof.
  assert (∀ l (acc : gmap string ComponentType),
    foldl (λ types fp, <[fp := universal]> types) acc l !! k
    = if decide (k ∈ l) then Some universal else acc !! k) as Hgen.
  { induction l as [|a l IH]; intros acc; cbn [foldl].
    - destruct (decide (k ∈ [])) as [Hk|Hk]; [|done].
      by apply elem_of_nil in Hk.
    - rewrite IH.
      destruct (decide (k ∈ l)) as [Hl|Hl],
               (decide (k ∈ a :: l)) as [Hal|Hal]; try done.
      + exfalso. apply Hal. by right.
      + apply elem_of_cons in Hal as [->|?]; [|done].
        by rewrite lookup_insert_eq.
      + rewrite lookup_insert_ne; [done|]. intros ->. apply Hal. left. }
  rewrite Hgen. destruct (decide (k ∈ universalSet)) as [Hk|Hk].
  - rewrite decide_True; [done | by apply elem_of_elements].
  - rewrite decide_False; [done | by rewrite elem_of_elements].
Qed.

End classifier_steps.

(** ** The classifier as a whole *)

Section classifier.
Implicit Types (nodes : NodeStore) (cr : gset string)
  (types : gmap string ComponentType).

Lemma universalSet_mixed nodes types k :
  k ∈ Classify.computeUniversalSet nodes (Classify.collectImporters nodes) types
  ↔ (∃ n, (k, n) ∈ nodes ∧ isClient n = false) ∧ mixedImporters nodes types k.
Proof.
  rewrite computeUniversalSet_elem_of. unfold mixedImporters.
  setoid_rewrite isUniversalType_true.
  setoid_rewrite <-collectImporters_recorded. unfold recorded. split.
  - intros (n & from & Hn & Hc & Hi & (p & Hp & Tp) & (q & Hq & Tq)).
    split; [by exists n|]. split; [exists p | exists q]; eauto.
  - intros [(n & Hn & Hc) [(p & (from & Hi & Hp) & Tp) (q & (from' & Hi' & Hq) & Tq)]].
    simplify_eq. exists n, from. eauto 10.
Qed.

(** The result of [computeComponentTypes], step by step: the traversal
    returns the client-reachable set, the baseline types come from it, and
    the universal set, computed on the baseline types, overrides them. *)
Lemma computeComponentTypesFuel_steps fuel nodes :
  length nodes < fuel →
  ∃ cr types,
    Classify.getClientReachable fuel nodes (Classify.getClientEntries nodes)
      = Some cr ∧
    (∀ x, x ∈ cr ↔ clientReach nodes x) ∧
    Classify.computeComponentTypesFuel fuel nodes = Some types ∧
    ∀ k, types !! k =
      if decide (k ∈ Classify.computeUniversalSet nodes
                       (Classify.collectImporters nodes)
                       (Classify.initNodeTypes nodes cr))
      then Some universal
      else Classify.initNodeTypes nodes cr !! k.
Proof.
  intros Hf.
  destruct (getClientReachable_reachable nodes fuel
              (Classify.getClientEntries nodes) Hf) as (cr & E & Hcr).
  unfold Classify.computeComponentTypesFuel. rewrite E.
  eexists cr, _. split_and!; [done|done|done|].
  intros k. apply promote_lookup.
Qed.

Lemma computeComponentTypes_steps nodes :
  ∃ cr types,
    Classify.getClientReachable (S (length nodes)) nodes
      (Classify.getClientEntries nodes) = Some cr ∧
    (∀ x, x ∈ cr ↔ clientReach nodes x) ∧
    Classify.computeComponentTypes nodes = Some types ∧
    ∀ k, types !! k =
      if decide (k ∈ Classify.computeUniversalSet nodes
                       (Classify.collectImporters nodes)
                       (Classify.initNodeTypes nodes cr))
      then Some universal
      else Classify.initNodeTypes nodes cr !! k.
Proof. apply computeComponentTypesFuel_steps. lia. Qed.

(** Any fuel above the number of nodes gives the same result. *)
Lemma computeComponentTypesFuel_enough fuel nodes :
  length nodes < fuel →
  Classify.computeComponentTypesFuel fuel nodes
  = Classify.computeComponentTypes nodes.
Proof.
  intros Hf.
  destruct (computeComponentTypesFuel_steps fuel nodes Hf)
    as (cr & types & _ & Hcr & -> & Hty).
  destruct (computeComponentTypes_steps nodes)
    as (cr' & types' & _ & Hcr' & -> & Hty').
  f_equal. apply map_eq. intros k. rewrite Hty, Hty'.
  assert (cr = cr') as -> by (apply set_eq; intros x; by rewrite Hcr, Hcr').
  done.
Qed.

(** The classification of a store, in terms of reachability and importers. *)
Lemma computeComponentTypes_classes nodes :
  ∃ types, Classify.computeComponentTypes nodes = Some types ∧
  ∀ k,
    (k ∉ keys nodes → types !! k = None) ∧
    (k ∈ keys nodes →
       ∀ baseline : gmap string ComponentType,
         (∀ p, p ∈ keys nodes →
               (clientReach nodes p → baseline !! p = Some client) ∧
               (¬ clientReach nodes p → baseline !! p = Some server)) →
         ((∃ n, (k, n) ∈ nodes ∧ isClient n = false) ∧
            mixedImporters nodes baseline k →
          types !! k = Some universal) ∧
         (¬ ((∃ n, (k, n) ∈ nodes ∧ isClient n = false) ∧
             mixedImporters nodes baseline k) →
          types !! k = baseline !! k)).
Proof.
  destruct (computeComponentTypes_steps nodes)
    as (cr & types & _ & Hcr & E & Hty).
  exists types. split; [done|]. intros k.
  assert (∀ baseline : gmap string ComponentType,
    (∀ p, p ∈ keys nodes →
          (clientReach nodes p → baseline !! p = Some client) ∧
          (¬ clientReach nodes p → baseline !! p = Some server)) →
    ∀ p, p ∈ keys nodes →
         baseline !! p = Classify.initNodeTypes nodes cr !! p) as Hbase.
  { intros baseline Hb p Hp. rewrite initNodeTypes_lookup.
    rewrite decide_True by done. destruct (Hb p Hp) as [Hc Hs].
    case_decide as Hin; [apply Hc | apply Hs]; by rewrite <-Hcr. }
  assert (∀ baseline : gmap string ComponentType,
    (∀ p, p ∈ keys nodes →
          (clientReach nodes p → baseline !! p = Some client) ∧
          (¬ clientReach nodes p → baseline !! p = Some server)) →
    ∀ t, mixedImporters nodes baseline t ↔
         mixedImporters nodes (Classify.initNodeTypes nodes cr) t) as Hmixed.
  { intros baseline Hb t. unfold mixedImporters, importer.
    assert (∀ p n, (p, n) ∈ nodes → p ∈ keys nodes) as Hkey.
    { intros p n Hin. apply list_elem_of_fmap. by exists (p, n). }
    split; intros [(p & (n & Hn & Ht) & Tp) (q & (m & Hm & Ht') & Tq)];
      (split; [exists p | exists q]); (split; [eauto|]).
    all: first [ by rewrite <-(Hbase baseline Hb) by eauto
               | by rewrite (Hbase baseline Hb) by eauto ]. }
  split.
  - intros Hk. rewrite Hty, initNodeTypes_lookup.
    rewrite (decide_False (P := k ∈ keys nodes)) by done.
    case_decide as HU; [|done].
    apply universalSet_mixed in HU as [(n & Hn & _) _].
    exfalso. apply Hk, list_elem_of_fmap. by exists (k, n).
  - intros Hk baseline Hb. rewrite Hty. split.
    + intros [Hn Hm]. rewrite decide_True; [done|].
      apply universalSet_mixed. split; [done|]. by apply (Hmixed baseline Hb).
    + intros Hnot. rewrite decide_False.
      * symmetry. by apply Hbase.
      * rewrite universalSet_mixed. intros [Hn Hm]. apply Hnot.
        split; [done|]. by apply (Hmixed baseline).
Qed.

End classifier.

(** ** Stores given by their entries, in any insertion order *)

Lemma store_of_entries (nodes l : NodeStore) :
  NoDup (keys l) → nodes ≡ₚ l →
  NoDup (keys nodes) ∧
  (∀ k, nodes_get nodes k = nodes_get l k) ∧
  (∀ k n, (k, n) ∈ nodes ↔ (k, n) ∈ l) ∧
  (∀ k, k ∈ keys nodes ↔ k ∈ keys l).
Proof.
  intros ND HP. split_and!.
  - unfold keys in *. by rewrite HP.
  - intros k. by apply nodes_get_perm.
  - intros k n. by rewrite HP.
  - intros k. unfold keys. by rewrite HP.
Qed.

(** C1.  Fan-in universal promotion.  A store of exactly three nodes, in any
    insertion order: [a] is client-marked and imports [b], [c] is not and
    imports [b], [b] is not and imports nothing.  [computeComponentTypes]
    returns, and gives [a] client, [c] server and [b] universal. *)
Theorem fan_in_universal_promotion (a b c : string)
    (ta tb tc : option ComponentType) (nodes : NodeStore) :
  a ≠ b → a ≠ c → b ≠ c →
  nodes ≡ₚ [ (a, mkFileNode a true [b] ta);
             (b, mkFileNode b false [] tb);
             (c, mkFileNode c false [b] tc) ] →
  ∃ types, Classify.computeComponentTypes nodes = Some types ∧
           types !! a = Some client ∧
           types !! c = Some server ∧
           types !! b = Some universal.
Proof.
  intros Hab Hac Hbc HP.
  assert (NoDup [a; b; c]) as ND0.
  { repeat constructor; rewrite ?elem_of_cons, ?elem_of_nil; naive_solver. }
  pose proof HP as HS.
  apply store_of_entries in HS as (ND & Hget & Hel & Hkeys); [|exact ND0].
  assert (∀ k, k ∈ keys nodes ↔ k = a ∨ k = b ∨ k = c) as Hkeys'.
  { intros k. rewrite Hkeys. unfold keys. cbn [fmap list_fmap fst].
    rewrite !elem_of_cons, elem_of_nil. naive_solver. }
  assert (nodes_get nodes a = Some (mkFileNode a true [b] ta)) as Ga.
  { rewrite Hget. cbn [nodes_get]. by rewrite decide_True. }
  assert (nodes_get nodes b = Some (mkFileNode b false [] tb)) as Gb.
  { rewrite Hget. cbn [nodes_get].
    rewrite decide_False by done. by rewrite decide_True. }
  assert (nodes_get nodes c = Some (mkFileNode c false [b] tc)) as Gc.
  { rewrite Hget. cbn [nodes_get].
    rewrite !decide_False by done. by rewrite decide_True. }
  assert (∀ t p, importer nodes t p → t = b ∧ (p = a ∨ p = c)) as Himp.
  { intros t p (n & Hn%Hel & Ht). elem_of_cases Hn.
    - apply list_elem_of_singleton in Ht. auto.
    - by apply elem_of_nil in Ht.
    - apply list_elem_of_singleton in Ht. auto. }
  assert (∀ x y, edge nodes x y → y = b) as Hedge.
  { intros x y (n & Hn & Hy & _). apply nodes_get_elem_of in Hn.
    apply (Himp y x). by exists n. }
  assert (∀ e, e ∈ Classify.getClientEntries nodes ↔ e = a) as Hentries.
  { intros e. rewrite getClientEntries_elem_of. split.
    - intros (k & n & Hn%Hel & Hc & <-). by elem_of_cases Hn.
    - intros ->. eexists a, _. split; [by apply nodes_get_elem_of|done]. }
  assert (∀ x, clientReach nodes x ↔ x = a ∨ x = b) as Hreach.
  { intros x. split.
    - intros (e & ->%Hentries & Hrt).
      assert (∀ s, rtc (edge nodes) s x → s = a ∨ s = b → x = a ∨ x = b)
        as Hind; [|by eapply Hind; eauto].
      clear Hrt. intros s Hrt. induction Hrt as [|s s' x He _ IH]; [done|].
      intros _. apply IH. right. by apply Hedge in He.
    - intros [->| ->]; exists a; (split; [by apply Hentries|]); [done|].
      apply rtc_once. eexists. split_and!; [done|left|].
      apply nodes_has_true, Hkeys'. auto. }
  destruct (computeComponentTypes_classes nodes) as (types & E & Hty).
  exists types. split; [done|].
  set (baseline := (<[a := client]> (<[b := client]> (<[c := server]> ∅))
                      : gmap string ComponentType)).
  assert (baseline !! a = Some client) as Ba.
  { unfold baseline. by rewrite lookup_insert_eq. }
  assert (baseline !! b = Some client) as Bb.
  { unfold baseline. rewrite lookup_insert_ne by done.
    by rewrite lookup_insert_eq. }
  assert (baseline !! c = Some server) as Bc.
  { unfold baseline. rewrite !lookup_insert_ne by done.
    by rewrite lookup_insert_eq. }
  clearbody baseline.
  assert (∀ p, p ∈ keys nodes →
               (clientReach nodes p → baseline !! p = Some client) ∧
               (¬ clientReach nodes p → baseline !! p = Some server)) as Hb.
  { intros p Hp%Hkeys'. rewrite Hreach.
    destruct Hp as [->|[->| ->]]; naive_solver. }
  assert (∀ t, mixedImporters nodes baseline t → t = b) as Hmixed.
  { intros t [(p & Hp%Himp & _) _]. tauto. }
  assert (a ∈ keys nodes) as Ka by (apply Hkeys'; auto).
  assert (b ∈ keys nodes) as Kb by (apply Hkeys'; auto).
  assert (c ∈ keys nodes) as Kc by (apply Hkeys'; auto).
  split_and!.
  - destruct (Hty a) as [_ Ha]. rewrite (proj2 (Ha Ka baseline Hb)); [done|].
    intros [_ Hm%Hmixed]. done.
  - destruct (Hty c) as [_ Hc]. rewrite (proj2 (Hc Kc baseline Hb)); [done|].
    intros [_ Hm%Hmixed]. done.
  - destruct (Hty b) as [_ Hb']. apply (Hb' Kb baseline Hb). split.
    + eexists. split; [by apply nodes_get_elem_of|done].
    + split; [exists a | exists c]; (split; [|done]).
      * eexists. split; [by apply nodes_get_elem_of|left].
      * eexists. split; [by apply nodes_get_elem_of|left].
Qed.

Lemma fan_in_universal_promotion_witness :
  ∃ types,
    Classify.computeComponentTypes
      [ ("/app/c.tsx", mkFileNode "/app/c.tsx" false ["/app/b.tsx"] None);
        ("/app/a.tsx", mkFileNode "/app/a.tsx" true ["/app/b.tsx"] None);
        ("/app/b.tsx", mkFileNode "/app/b.tsx" false [] None) ] = Some types ∧
    types !! "/app/a.tsx" = Some client ∧
    types !! "/app/c.tsx" = Some server ∧
    types !! "/app/b.tsx" = Some universal.
Proof.
  apply (fan_in_universal_promotion "/app/a.tsx" "/app/b.tsx" "/app/c.tsx"
           None None None); [done|done|done|].
  etrans; [apply Permutation_swap|]. apply perm_skip, Permutation_swap.
Defined.

(** C2.  Universal promotion reads the baseline types only.  [baseline] is the
    map built by [initNodeTypes] from the client-reachable set, before any
    promotion.  A node that is not client-marked ends universal exactly
    when one of its importers is client in [baseline] and one is server in
    [baseline]; otherwise it keeps its baseline type.  The final type of an
    importer, which may itself be universal, plays no part. *)
Theorem promotion_reads_baseline_types (nodes : NodeStore) :
  NoDup (keys nodes) →
  ∃ clientReachable types,
    Classify.getClientReachable (S (length nodes)) nodes
      (Classify.getClientEntries nodes) = Some clientReachable ∧
    Classify.computeComponentTypes nodes = Some types ∧
    let baseline := Classify.initNodeTypes nodes clientReachable in
    ∀ t n, nodes_get nodes t = Some n → isClient n = false →
      (types !! t = Some universal ↔
         (∃ p np, nodes_get nodes p = Some np ∧ t ∈ imports np ∧
                  baseline !! p = Some client) ∧
         (∃ q nq, nodes_get nodes q = Some nq ∧ t ∈ imports nq ∧
                  baseline !! q = Some server)) ∧
      (types !! t ≠ Some universal → types !! t = baseline !! t).
Proof.
  intros ND.
  destruct (computeComponentTypes_steps nodes)
    as (cr & types & Ecr & Hcr & E & Hty).
  exists cr, types. split_and!; [done..|]. intros baseline t n Hn Hc.
  assert (types !! t = Some universal ↔
          t ∈ Classify.computeUniversalSet nodes
                (Classify.collectImporters nodes) baseline) as HU.
  { rewrite Hty. fold baseline. case_decide as Hin; [done|].
    split; [|done]. unfold baseline. rewrite initNodeTypes_lookup.
    repeat case_decide; congruence. }
  split.
  - rewrite HU, universalSet_mixed. unfold mixedImporters, importer. split.
    + intros [_ [(p & (np & Hp & Ht) & Tp) (q & (nq & Hq & Ht') & Tq)]].
      split; [exists p, np | exists q, nq];
        (split_and!; [by apply nodes_get_of_elem|done..]).
    + intros [(p & np & Hp & Ht & Tp) (q & nq & Hq & Ht' & Tq)].
      split; [exists n; split; [by apply nodes_get_elem_of|done]|].
      split; [exists p | exists q]; (split; [|done]);
        eexists; (split; [by apply nodes_get_elem_of|done]).
  - intros Hnu. rewrite Hty. fold baseline.
    rewrite decide_False; [done|]. by rewrite <-HU.
Qed.

Lemma promotion_reads_baseline_types_witness :
  NoDup (keys Examples.cascade) ∧
  ∃ clientReachable types,
    Classify.getClientReachable 5 Examples.cascade
      (Classify.getClientEntries Examples.cascade) = Some clientReachable ∧
    Classify.computeComponentTypes Examples.cascade = Some types ∧
    let baseline := Classify.initNodeTypes Examples.cascade clientReachable in
    ∀ t n, nodes_get Examples.cascade t = Some n → isClient n = false →
      (types !! t = Some universal ↔
         (∃ p np, nodes_get Examples.cascade p = Some np ∧ t ∈ imports np ∧
                  baseline !! p = Some client) ∧
         (∃ q nq, nodes_get Examples.cascade q = Some nq ∧ t ∈ imports nq ∧
                  baseline !! q = Some server)) ∧
      (types !! t ≠ Some universal → types !! t = baseline !! t).
Proof.
  assert (NoDup (keys Examples.cascade)) as ND.
  { unfold keys, Examples.cascade. cbn [fmap list_fmap fst].
    repeat constructor; rewrite ?elem_of_cons, ?elem_of_nil; naive_solver. }
  split; [exact ND|].
  exact (promotion_reads_baseline_types Examples.cascade ND).
Defined.

(** C3.  A self-declaring file is never demoted: a node stored under its own
    path with [isClient = true] is typed client, whatever imports it. *)
Theorem client_marked_node_is_client (nodes : NodeStore) (k : string)
    (n : FileNode) :
  NoDup (keys nodes) →
  nodes_get nodes k = Some n →
  filePath n = k →
  isClient n = true →
  ∃ types, Classify.computeComponentTypes nodes = Some types ∧
           types !! k = Some client.
Proof.
  intros ND Hn Hfp Hc.
  destruct (computeComponentTypes_steps nodes)
    as (cr & types & _ & Hcr & E & Hty).
  exists types. split; [done|]. rewrite Hty.
  rewrite decide_False.
  - rewrite initNodeTypes_lookup.
    rewrite decide_True by (apply nodes_get_is_Some; eauto).
    rewrite decide_True; [done|]. apply Hcr. exists k. split; [|done].
    apply getClientEntries_elem_of. exists k, n.
    split_and!; [by apply nodes_get_elem_of|done..].
  - rewrite universalSet_mixed. intros [(n' & Hn' & Hc') _].
    apply nodes_get_of_elem in Hn'; [|done]. congruence.
Qed.

Lemma client_marked_node_is_client_witness :
  ∃ types,
    Classify.computeComponentTypes
      [ ("/app/s1.tsx", mkFileNode "/app/s1.tsx" false ["/app/a.tsx"] None);
        ("/app/a.tsx", mkFileNode "/app/a.tsx" true [] None);
        ("/app/s2.tsx", mkFileNode "/app/s2.tsx" true ["/app/a.tsx"] None) ]
      = Some types ∧
    types !! "/app/a.tsx" = Some client.
Proof.
  eapply (client_marked_node_is_client _ "/app/a.tsx");
    [|reflexivity|reflexivity|reflexivity].
  unfold keys. cbn [fmap list_fmap fst].
  repeat constructor; rewrite ?elem_of_cons, ?elem_of_nil; naive_solver.
Defined.

(** Without a client-marked node every node is server. *)
Lemma all_server_without_client_entry (nodes : NodeStore) :
  (∀ k n, (k, n) ∈ nodes → isClient n = false) →
  ∃ types, Classify.computeComponentTypes nodes = Some types ∧
           ∀ k, k ∈ keys nodes → types !! k = Some server.
Proof.
  intros Hplain.
  destruct (computeComponentTypes_steps nodes)
    as (cr & types & _ & Hcr & E & Hty).
  exists types. split; [done|].
  assert (∀ x, x ∉ cr) as Hempty.
  { intros x (e & He & _)%Hcr.
    apply getClientEntries_elem_of in He as (k & n & Hn & Hc & _).
    apply Hplain in Hn. congruence. }
  assert (∀ p, Classify.initNodeTypes nodes cr !! p ≠ Some client) as Hbase.
  { intros p. rewrite initNodeTypes_lookup.
    case_decide; [|done]. rewrite decide_False by apply Hempty. done. }
  intros k Hk. rewrite Hty. rewrite decide_False.
  - rewrite initNodeTypes_lookup, decide_True by done.
    by rewrite decide_False by apply Hempty.
  - rewrite universalSet_mixed. intros [_ [(p & _ & Tp) _]].
    by apply Hbase in Tp.
Qed.

(** C4.  Cycle safety.  With a recursion budget above the number of nodes the
    traversal returns on every store, cyclic or not, with the set of the
    paths the entries reach; a call on a path already marked visited
    returns at once and leaves the set as it is.  A store of two nodes
    that import each other, neither client-marked, is classified server
    and server. *)
Theorem traversal_terminates_on_cycles (nodes : NodeStore) (fuel : nat)
    (entries : list string) :
  length nodes < fuel →
  (∃ clientReachable,
     Classify.getClientReachable fuel nodes entries = Some clientReachable ∧
     ∀ x, x ∈ clientReachable ↔ ∃ r, r ∈ entries ∧ rtc (edge nodes) r x) ∧
  (∀ fp clientReachable,
     fp ∈ clientReachable →
     Classify.visit fuel nodes fp clientReachable = Some clientReachable) ∧
  (∀ a b ta tb,
     a ≠ b →
     nodes ≡ₚ [ (a, mkFileNode a false [b] ta);
                (b, mkFileNode b false [a] tb) ] →
     ∃ types, Classify.computeComponentTypes nodes = Some types ∧
              types !! a = Some server ∧ types !! b = Some server).
Proof.
  intros Hf. split_and!.
  - by apply getClientReachable_reachable.
  - intros fp cr Hin. destruct fuel as [|fuel]; [lia|].
    cbn [Classify.visit]. by rewrite decide_True.
  - intros a b ta tb Hab HP.
    destruct (all_server_without_client_entry nodes) as (types & E & Hty).
    { intros k n Hn. rewrite HP in Hn. by elem_of_cases Hn. }
    exists types. split; [done|].
    split; apply Hty; unfold keys; rewrite HP; cbn [fmap list_fmap fst];
      rewrite !elem_of_cons; auto.
Qed.

Lemma traversal_terminates_on_cycles_witness :
  length Examples.cycle < 3 ∧
  (∃ clientReachable,
     Classify.getClientReachable 3 Examples.cycle ["/app/a.tsx"]
       = Some clientReachable ∧
     "/app/b.tsx" ∈ clientReachable) ∧
  ∃ types, Classify.computeComponentTypes Examples.cycle = Some types ∧
           types !! "/app/a.tsx" = Some server ∧
           types !! "/app/b.tsx" = Some server.
Proof.
  assert (length Examples.cycle < 3) as Hf by (simpl; lia).
  split; [exact Hf|].
  destruct (traversal_terminates_on_cycles Examples.cycle 3 ["/app/a.tsx"] Hf)
    as ((cr & E & Hcr) & _ & Hcycle).
  split.
  - exists cr. split; [done|]. apply Hcr. exists "/app/a.tsx". split; [left|].
    apply rtc_once. eexists. split_and!; [reflexivity|left|reflexivity].
  - by apply (Hcycle "/app/a.tsx" "/app/b.tsx" None None).
Defined.

(** C5.  [computeComponentTypes] returns on every store, and the map it returns
    has an entry for exactly the keys of the store, each client, server or
    universal.  The store is an argument of the function and no part of
    its result: the source has no write to the map or to a node, and the
    caller ([build]) writes the types back itself. *)
Theorem computeComponentTypes_covers_store (nodes : NodeStore) :
  ∃ types, Classify.computeComponentTypes nodes = Some types ∧
           dom types = list_to_set (keys nodes) ∧
           ∀ k, (k ∉ keys nodes → types !! k = None) ∧
                (k ∈ keys nodes →
                 types !! k = Some client ∨ types !! k = Some server ∨
                 types !! k = Some universal).
Proof.
  destruct (computeComponentTypes_steps nodes)
    as (cr & types & _ & Hcr & E & Hty).
  exists types. split; [done|].
  assert (∀ k, (k ∉ keys nodes → types !! k = None) ∧
               (k ∈ keys nodes →
                types !! k = Some client ∨ types !! k = Some server ∨
                types !! k = Some universal)) as Hk.
  { intros k. rewrite Hty, initNodeTypes_lookup. split; intros Hin.
    - rewrite (decide_False (P := k ∈ keys nodes)) by done.
      case_decide as HU; [|done].
      apply universalSet_mixed in HU as [(n & Hn & _) _].
      exfalso. apply Hin, list_elem_of_fmap. by exists (k, n).
    - rewrite (decide_True (P := k ∈ keys nodes)) by done.
      repeat case_decide; auto. }
  split; [|done]. apply set_eq. intros k.
  rewrite elem_of_dom, elem_of_list_to_set. destruct (Hk k) as [Hout Hin].
  split.
  - intros Hs. destruct (decide (k ∈ keys nodes)) as [|Hn]; [done|].
    apply Hout in Hn. rewrite Hn in Hs. by destruct Hs.
  - intros [->|[->| ->]]%Hin; by eexists.
Qed.

(** ** Writes to the node store *)

Section node_store_writes.
Implicit Types (nodes : NodeStore) (k p q : string) (n : FileNode).

Lemma nodes_get_delete nodes p q :
  nodes_get (nodes_delete nodes p) q
  = if decide (p = q) then None else nodes_get nodes q.
Proof.
  unfold nodes_delete. induction nodes as [|[k m] rest IH]; cbn [nodes_get].
  - by case_decide.
  - destruct (decide (k = p)) as [->|Hkp].
    + rewrite filter_cons_False by (simpl; tauto). rewrite IH.
      repeat case_decide; congruence.
    + rewrite filter_cons_True by done. cbn [nodes_get]. rewrite IH.
      repeat case_decide; congruence.
Qed.

Lemma nodes_get_set nodes k n q :
  nodes_get (nodes_set nodes k n) q
  = if decide (k = q) then Some n else nodes_get nodes q.
Proof.
  induction nodes as [|[k' m] rest IH]; cbn [nodes_set nodes_get].
  - done.
  - destruct (decide (k' = k)) as [->|Hne]; cbn [nodes_get].
    + repeat case_decide; congruence.
    + rewrite IH. repeat case_decide; congruence.
Qed.

Lemma nodes_get_applyTypes (types : gmap string ComponentType) nodes k :
  nodes_get (ComponentEnvGraph.applyTypes types nodes) k
  = (λ n, match types !! k with
          | Some ty => setType n ty
          | None => n
          end) <$> nodes_get nodes k.
Proof.
  unfold ComponentEnvGraph.applyTypes.
  induction nodes as [|[k' m] rest IH]; [done|].
  cbn [fmap list_fmap nodes_get]. fold (@fmap list _).
  destruct (decide (k' = k)) as [->|]; [done|]. apply IH.
Qed.

Lemma setAdd_elem_of (s : list string) x y :
  y ∈ setAdd s x ↔ y ∈ s ∨ y = x.
Proof.
  unfold setAdd. case_decide.
  - split; [by left|]. intros [?| ->]; done.
  - rewrite elem_of_app, list_elem_of_singleton. done.
Qed.

End node_store_writes.

(** ** The file set reconciler *)

Section reconciler.
Variable disk : Disk.
Implicit Types (project : Project) (nodes : NodeStore) (p q : string).

Lemma getSourceFiles_elem_of project q :
  q ∈ TsMorph.getSourceFiles project ↔ is_Some (project !! q).
Proof.
  unfold TsMorph.getSourceFiles. rewrite list_elem_of_fmap. split.
  - intros ([k sf] & -> & Hin). apply elem_of_map_to_list in Hin. by eexists.
  - intros [sf Hsf]. exists (q, sf). split; [done|].
    by apply elem_of_map_to_list.
Qed.

(** The loop of the deletion pass, over any list of paths. *)
Lemma removeDeleted_loop l : ∀ project nodes,
  let r := foldl (λ '(project, nodes) p,
                    if TsMorph.existsSync disk p then (project, nodes)
                    else (delete p project, nodes_delete nodes p))
                 (project, nodes) l in
  (∀ q, r.1 !! q
        = if decide (q ∈ l ∧ disk !! q = None) then None else project !! q) ∧
  (∀ q, nodes_get r.2 q
        = if decide (q ∈ l ∧ disk !! q = None) then None else nodes_get nodes q).
Proof.
  induction l as [|a l IH]; intros project nodes; cbn [foldl].
  - split; intros q; (rewrite decide_False; [done|]);
      intros [H _]; by apply elem_of_nil in H.
  - destruct (disk !! a) as [sf|] eqn:Ea.
    + assert (TsMorph.existsSync disk a = true) as ->.
      { unfold TsMorph.existsSync. rewrite Ea. apply bool_decide_eq_true_2. eauto. }
      destruct (IH project nodes) as [Hp Hn].
      split; intros q; [rewrite Hp|rewrite Hn];
        repeat case_decide; try done;
        (exfalso; rewrite elem_of_cons in *; naive_solver).
    + assert (TsMorph.existsSync disk a = false) as ->.
      { unfold TsMorph.existsSync. rewrite Ea. apply bool_decide_eq_false_2.
        by intros [? ?]. }
      destruct (IH (delete a project) (nodes_delete nodes a)) as [Hp Hn].
      split; intros q; [rewrite Hp, lookup_delete|rewrite Hn, nodes_get_delete];
        repeat case_decide; try done;
        (exfalso; rewrite elem_of_cons in *; naive_solver).
Qed.

(** The deletion pass: a registered file that is gone from the disk leaves
    the parse set and the node store; nothing else changes. *)
Lemma removeDeletedFiles_spec project nodes :
  (∀ q, (Files.removeDeletedFiles disk project nodes).1 !! q
        = if decide (disk !! q = None) then None else project !! q) ∧
  (∀ q, nodes_get (Files.removeDeletedFiles disk project nodes).2 q
        = if decide (is_Some (project !! q) ∧ disk !! q = None)
          then None else nodes_get nodes q).
Proof.
  unfold Files.removeDeletedFiles.
  destruct (removeDeleted_loop (TsMorph.getSourceFiles project) project nodes)
    as [Hp Hn].
  split; intros q.
  - rewrite Hp. repeat case_decide; try done.
    + naive_solver.
    + destruct (project !! q) eqn:E; [|done].
      exfalso. rewrite getSourceFiles_elem_of in *. naive_solver.
  - rewrite Hn. repeat case_decide; try done;
      exfalso; rewrite getSourceFiles_elem_of in *; naive_solver.
Qed.

(** [refreshChangedFiles]: what it does to the affected set, to the node
    store, and to a path that is excluded or is gone from the disk. *)
Lemma refreshChangedFiles_spec (excludes : string → bool) changedFiles :
  ∀ project nodes affectedFiles,
  let r := refreshedFiles disk project nodes changedFiles
             affectedFiles excludes in
  (∀ q, q ∈ r.2 ↔
        q ∈ affectedFiles ∨ (q ∈ changedFiles ∧ excludes q = false)) ∧
  (∀ q, nodes_get r.1.2 q
        = if decide (q ∈ changedFiles ∧ excludes q = true)
          then None else nodes_get nodes q) ∧
  (∀ q, q ∈ changedFiles → excludes q = true → r.1.1 !! q = None) ∧
  (∀ q, disk !! q = None → excludes q = false → project !! q = None →
        r.1.1 !! q = None) ∧
  (∀ q, q ∉ changedFiles → r.1.1 !! q = project !! q).
Proof.
  unfold refreshedFiles.
  induction changedFiles as [|c cs IH]; intros project nodes affected;
    cbn [foldl].
  - split_and!; intros q; cbn [fst snd].
    + rewrite elem_of_nil. naive_solver.
    + case_decide as H; [|done]. destruct H as [H _]. by apply elem_of_nil in H.
    + intros H. by apply elem_of_nil in H.
    + done.
    + done.
  - cbn [Files.refreshChangedFilesStep].
    destruct (excludes c) eqn:Ec.
    + match goal with |- context [foldl _ (?pr, ?ns, ?af) cs] =>
        destruct (IH pr ns af) as (Ha & Hn & He & Hg & Ho) end.
      clear IH. split_and!; intros q.
      * rewrite Ha, elem_of_cons. clear -Ec.
        split; [intros [?|[? ?]]; auto | intros [?|[[->|?] ?]]; auto; congruence].
      * rewrite Hn, nodes_get_delete. clear -Ec.
        repeat case_decide; try done;
          (exfalso; rewrite elem_of_cons in *; naive_solver).
      * intros [->|Hq]%elem_of_cons Hex; [|by apply He].
        destruct (decide (c ∈ cs)) as [|Hni]; [by apply He|].
        rewrite (Ho c Hni).
        destruct (project !! c) eqn:E; [by rewrite lookup_delete_eq|done].
      * intros Hd Hx Hq. apply Hg; [done..|].
        destruct (project !! c); [|done].
        rewrite lookup_delete_ne; [done|]. intros ->. congruence.
      * intros [Hne Hni]%not_elem_of_cons. rewrite (Ho q Hni).
        destruct (project !! c); [|done]. by rewrite lookup_delete_ne.
    + match goal with |- context [foldl _ (?pr, ?ns, ?af) cs] =>
        destruct (IH pr ns af) as (Ha & Hn & He & Hg & Ho) end.
      clear IH.
      assert (∀ q, q ≠ c →
        match project !! c with
        | Some _ => TsMorph.refreshFromFileSystemSync disk project c
        | None =>
            match TsMorph.addSourceFileAtPath disk project c with
            | Some project' => project'
            | None => project
            end
        end !! q = project !! q) as Hother.
      { intros q Hne. unfold TsMorph.refreshFromFileSystemSync,
          TsMorph.addSourceFileAtPath.
        destruct (project !! c), (disk !! c);
          rewrite ?lookup_insert_ne, ?lookup_delete_ne by done; done. }
      split_and!; intros q.
      * rewrite Ha, setAdd_elem_of, elem_of_cons. clear -Ec.
        split; [intros [[?| ->]|[? ?]]; auto | intros [?|[[->|?] ?]]; auto].
      * rewrite Hn. clear -Ec. repeat case_decide; try done;
          (exfalso; rewrite elem_of_cons in *; intuition (subst; congruence)).
      * intros [->|Hq]%elem_of_cons Hex; [congruence|by apply He].
      * intros Hd Hx Hq. apply Hg; [done..|].
        destruct (decide (q = c)) as [->|Hne]; [|by rewrite Hother].
        unfold TsMorph.addSourceFileAtPath. by rewrite Hq, Hd.
      * intros [Hne Hni]%not_elem_of_cons. by rewrite (Ho q Hni), Hother.
Qed.

(** The loop of [updateFileNodes]: an affected path gets the node freshly
    extracted from its registered source file, or none if it has no source
    file; the other nodes stay. *)
Lemma updateFileNodes_loop project l : ∀ nodes q,
  nodes_get
    (foldl (λ nodes filePath,
              match project !! filePath with
              | None => nodes_delete nodes filePath
              | Some sf => nodes_set nodes filePath (freshNode project filePath sf)
              end) nodes l) q
  = if decide (q ∈ l) then freshNode project q <$> project !! q
    else nodes_get nodes q.
Proof.
  induction l as [|a l IH]; intros nodes q; cbn [foldl].
  - rewrite decide_False; [done | apply not_elem_of_nil].
  - rewrite IH.
    destruct (decide (q ∈ l)) as [Hl|Hl],
             (decide (q ∈ a :: l)) as [Hal|Hal]; try done.
    + exfalso. apply Hal. by right.
    + apply elem_of_cons in Hal as [->|?]; [|done].
      destruct (project !! a) as [sf|] eqn:E.
      * by rewrite nodes_get_set, decide_True.
      * by rewrite nodes_get_delete, decide_True.
    + assert (a ≠ q) as Hne by (intros ->; apply Hal; left).
      destruct (project !! a) as [sf|].
      * by rewrite nodes_get_set, decide_False.
      * by rewrite nodes_get_delete, decide_False.
Qed.

End reconciler.

(** ** The engine *)

Section engine.
Variable disk : Disk.
Implicit Types (e : Engine) (changedFiles : option (list string)).

(** With a regular expression the loop of [refreshChangedFiles] runs to its
    end. *)
Lemma refreshChangedFiles_RegExp (test : string → bool) l :
  ∀ (pr : Project) (ns : NodeStore) (affectedFiles : list string),
    Files.refreshChangedFiles disk pr ns l affectedFiles (Files.RegExp test)
    = Normal (refreshedFiles disk pr ns l affectedFiles test).
Proof.
  unfold refreshedFiles.
  induction l as [|c cs IH]; intros pr ns affectedFiles; [done|].
  cbn [Files.refreshChangedFiles foldl].
  destruct (Files.refreshChangedFilesStep disk test (pr, ns, affectedFiles) c)
    as [[pr' ns'] affectedFiles'].
  apply IH.
Qed.

(** With the arrow function the first iteration throws. *)
Lemma refreshChangedFiles_ArrowFunction (call : string → bool) c cs
    (pr : Project) (ns : NodeStore) (affectedFiles : list string) :
  Files.refreshChangedFiles disk pr ns (c :: cs) affectedFiles
    (Files.ArrowFunction call)
  = Throw Files.notAFunction (pr, ns, affectedFiles).
Proof. done. Qed.

Lemma removeDeletedFiles_static e :
  log (ComponentEnvGraph.removeDeletedFiles disk e)
    = log e ++ [EvRemoveDeletedFiles] ∧
  listeners (ComponentEnvGraph.removeDeletedFiles disk e) = listeners e ∧
  isGlobExcluded (ComponentEnvGraph.removeDeletedFiles disk e)
    = isGlobExcluded e ∧
  inScope (ComponentEnvGraph.removeDeletedFiles disk e) = inScope e ∧
  project (ComponentEnvGraph.removeDeletedFiles disk e)
    = (Files.removeDeletedFiles disk (project e) (nodes e)).1 ∧
  nodes (ComponentEnvGraph.removeDeletedFiles disk e)
    = (Files.removeDeletedFiles disk (project e) (nodes e)).2.
Proof.
  unfold ComponentEnvGraph.removeDeletedFiles.
  by destruct (Files.removeDeletedFiles disk (project e) (nodes e)).
Qed.

(** A build with changed files: the deletion pass, then the exception of
    [excludes.test]. *)
Lemma updateProjectSourceFiles_incremental c cs e :
  ComponentEnvGraph.updateProjectSourceFiles disk (Some (c :: cs)) e
  = let e0 := ComponentEnvGraph.removeDeletedFiles disk e in
    Throw Files.notAFunction
          (withGraph e0 (project e0) (nodes e0) EvRefreshChangedFiles, []).
Proof. done. Qed.

Lemma build_incremental c cs e :
  ComponentEnvGraph.build disk (Some (c :: cs)) e
  = let e0 := ComponentEnvGraph.removeDeletedFiles disk e in
    Raised Files.notAFunction
           (withGraph e0 (project e0) (nodes e0) EvRefreshChangedFiles).
Proof. done. Qed.

Lemma updateProjectSourceFiles_full_scan changedFiles e :
  ComponentEnvGraph.nonEmpty changedFiles = None →
  ComponentEnvGraph.updateProjectSourceFiles disk changedFiles e
  = let r0 := Files.removeDeletedFiles disk (project e) (nodes e) in
    let project1 := Files.addAllSourceFiles disk (inScope e) (isGlobExcluded e)
                      r0.1 in
    Normal
      (withGraph (withGraph (withGraph e r0.1 r0.2 EvRemoveDeletedFiles)
                            project1 r0.2 EvAddAllSourceFiles)
                 project1 r0.2 EvMarkAllFilesAsAffected,
       Files.markAllFilesAsAffected project1 []).
Proof.
  intros Hne.
  unfold ComponentEnvGraph.updateProjectSourceFiles,
    ComponentEnvGraph.markAllFilesAsAffected,
    ComponentEnvGraph.addAllSourceFiles,
    ComponentEnvGraph.removeDeletedFiles.
  rewrite Hne.
  by destruct (Files.removeDeletedFiles disk (project e) (nodes e)) as [p0 n0].
Qed.

(** The classifier always returns, so [build] always reaches
    [fireDidUpdate] once [updateProjectSourceFiles] has returned. *)
Lemma classified_total (filesToUpdate : list string) e :
  ∃ (types : gmap string ComponentType) g,
    Classify.computeComponentTypes
      (nodes (ComponentEnvGraph.updateFileNodes filesToUpdate e)) = Some types ∧
    classified filesToUpdate e = Some g ∧
    ComponentEnvGraph.update filesToUpdate e = fireDidUpdate g ∧
    nodes g = ComponentEnvGraph.applyTypes types
                (nodes (ComponentEnvGraph.updateFileNodes filesToUpdate e)) ∧
    project g = project e ∧
    log g = log e ++ [EvUpdateFileNodes; EvClassify] ∧
    listeners g = listeners e ∧
    isGlobExcluded g = isGlobExcluded e ∧
    inScope g = inScope e.
Proof.
  destruct (computeComponentTypes_steps
              (nodes (ComponentEnvGraph.updateFileNodes filesToUpdate e)))
    as (_ & types & _ & _ & E & _).
  unfold classified, ComponentEnvGraph.update. rewrite E.
  eexists types, _. split_and!; try done.
  cbn [log withGraph ComponentEnvGraph.updateFileNodes].
  by rewrite <-app_assoc.
Qed.

Lemma build_graphUpdate changedFiles e g :
  graphUpdate disk changedFiles e = Some g →
  ComponentEnvGraph.build disk changedFiles e = fireDidUpdate g.
Proof.
  unfold graphUpdate, ComponentEnvGraph.build.
  destruct (ComponentEnvGraph.updateProjectSourceFiles disk changedFiles e)
    as [[e1 fs]|exn [e1 fs]]; [|done].
  destruct (classified_total fs e1) as (_ & g' & _ & -> & -> & _).
  by intros [= ->].
Qed.

(** A full scan always completes its graph update. *)
Lemma graphUpdate_full_scan changedFiles e :
  ComponentEnvGraph.nonEmpty changedFiles = None →
  let rc := reconcile disk (inScope e) (isGlobExcluded e) changedFiles
              (project e) (nodes e) in
  ∃ (types : gmap string ComponentType) g,
    Classify.computeComponentTypes (storeToClassify rc) = Some types ∧
    graphUpdate disk changedFiles e = Some g ∧
    nodes g = ComponentEnvGraph.applyTypes types (storeToClassify rc) ∧
    project g = rc.1.1 ∧
    log g = log e ++ fullScanPhases ∧
    listeners g = listeners e ∧
    isGlobExcluded g = isGlobExcluded e ∧
    inScope g = inScope e.
Proof.
  intros Hfull rc. unfold graphUpdate.
  rewrite updateProjectSourceFiles_full_scan by done. cbv beta iota zeta.
  match goal with |- context [classified ?fs ?e1] =>
    destruct (classified_total fs e1)
      as (types & g & E & -> & _ & Hn & Hp & Hl & Hls & Hx & Hs) end.
  exists types, g.
  assert (rc = (Files.addAllSourceFiles disk (inScope e) (isGlobExcluded e)
                  (Files.removeDeletedFiles disk (project e) (nodes e)).1,
                (Files.removeDeletedFiles disk (project e) (nodes e)).2,
                Files.markAllFilesAsAffected
                  (Files.addAllSourceFiles disk (inScope e) (isGlobExcluded e)
                     (Files.removeDeletedFiles disk (project e) (nodes e)).1)
                  [])) as Hrc.
  { unfold rc, reconcile. by rewrite Hfull. }
  rewrite Hrc. unfold storeToClassify, updateNodes. cbn [fst snd].
  split_and!; [exact E|done|exact Hn|exact Hp| |exact Hls|exact Hx|exact Hs].
  rewrite Hl. cbn [log withGraph]. unfold fullScanPhases.
  by rewrite <-!app_assoc.
Qed.

(** [emit] calls the listeners in order up to the first that throws; it
    leaves the graph as it is. *)
Lemma emit_spec (ls : list (NodeStore → option string)) : ∀ i e,
  ∃ e' k,
    resultEngine (emit ls i e) = Some e' ∧
    nodes e' = nodes e ∧ project e' = project e ∧
    log e' = log e ++ (EvListener <$> seq i k) ∧
    ((emit ls i e = Returned e' ∧ k = length ls ∧
      ∀ j l, ls !! j = Some l → l (nodes e) = None) ∨
     (∃ l exn, emit ls i e = Raised exn e' ∧
               ls !! (k - 1) = Some l ∧ 0 < k ∧ l (nodes e) = Some exn ∧
               ∀ j l', j < k - 1 → ls !! j = Some l' → l' (nodes e) = None)).
Proof.
  induction ls as [|l ls IH]; intros i e; cbn [emit].
  - exists e, 0. split_and!; [done..|by rewrite app_nil_r|].
    left. split_and!; [done..|]. intros j l H. by rewrite lookup_nil in H.
  - cbn [withGraph nodes].
    destruct (l (nodes e)) as [exn|] eqn:El.
    + eexists _, 1. split_and!; [done..|].
      right. exists l, exn. split_and!; [done|done|lia|done|].
      intros j l' Hj. lia.
    + destruct (IH (S i) (withGraph e (project e) (nodes e) (EvListener i)))
        as (e' & k & Hr & Hn & Hp & Hl & Hcase).
      exists e', (S k). split_and!; [done..| |].
      { rewrite Hl. cbn. by rewrite <-app_assoc. }
      destruct Hcase as [(Hret & -> & Hall)|(l0 & exn & Hraise & Hk & Hpos & Hthrow & Hbefore)].
      * left. split_and!; [done..|].
        intros [|j] l'; cbn; [by intros [= <-]|]. apply Hall.
      * right. exists l0, exn. split_and!; [done| |lia|done|].
        -- destruct k as [|k]; [lia|]. cbn in *.
           by rewrite Nat.sub_0_r in Hk.
        -- intros [|j] l' Hj; cbn; [by intros [= <-]|].
           apply Hbefore. lia.
Qed.

End engine.

Lemma refreshChangedFiles_affected (disk : Disk) (excludes : string → bool)
    (changedFiles : list string) :
  ∀ project nodes affectedFiles,
    (refreshedFiles disk project nodes changedFiles affectedFiles
       excludes).2
    = foldl (λ affectedFiles changed,
               if excludes changed then affectedFiles
               else setAdd affectedFiles changed)
            affectedFiles changedFiles.
Proof.
  unfold refreshedFiles.
  induction changedFiles as [|c cs IH]; intros project nodes affected;
    cbn [foldl]; [done|].
  cbn [Files.refreshChangedFilesStep]. destruct (excludes c); apply IH.
Qed.

(** After the refresh a changed path is registered exactly when it is not
    excluded and is on disk, with what the disk holds. *)
Lemma refreshChangedFiles_project (disk : Disk) (excludes : string → bool)
    (changedFiles : list string) :
  ∀ project nodes affectedFiles q,
    (refreshedFiles disk project nodes changedFiles affectedFiles
       excludes).1.1 !! q
    = if decide (q ∈ changedFiles)
      then (if excludes q then None else disk !! q)
      else project !! q.
Proof.
  unfold refreshedFiles.
  induction changedFiles as [|c cs IH]; intros project nodes affected q;
    cbn [foldl].
  - destruct (decide (q ∈ [])) as [H|]; [|done]. by apply elem_of_nil in H.
  - cbn [Files.refreshChangedFilesStep].
    destruct (excludes c) eqn:Ec; rewrite IH; clear IH.
    + destruct (decide (q ∈ cs)) as [Hcs|Hcs].
      * rewrite decide_True by (by right). done.
      * destruct (decide (q = c)) as [->|Hne].
        -- rewrite decide_True by left. rewrite Ec.
           destruct (project !! c) eqn:E; [by rewrite lookup_delete_eq|done].
        -- rewrite decide_False by (rewrite elem_of_cons; tauto).
           destruct (project !! c); [|done]. by rewrite lookup_delete_ne.
    + destruct (decide (q ∈ cs)) as [Hcs|Hcs].
      * rewrite decide_True by (by right). done.
      * unfold TsMorph.refreshFromFileSystemSync, TsMorph.addSourceFileAtPath.
        destruct (decide (q = c)) as [->|Hne].
        -- rewrite decide_True by left. rewrite Ec.
           destruct (project !! c) eqn:E, (disk !! c) eqn:Ed;
             by rewrite ?lookup_insert_eq, ?lookup_delete_eq.
        -- rewrite decide_False by (rewrite elem_of_cons; tauto).
           destruct (project !! c), (disk !! c);
             by rewrite ?lookup_insert_ne, ?lookup_delete_ne.
Qed.

(** After the scan a path is registered when it was, or when the glob
    selects it and it is on disk. *)
Lemma addSourceFilesAtPaths_lookup (disk : Disk) (selects : string → bool)
    (project : Project) (q : string) :
  TsMorph.addSourceFilesAtPaths disk selects project !! q
  = match project !! q with
    | Some sf => Some sf
    | None => if selects q then disk !! q else None
    end.
Proof.
  unfold TsMorph.addSourceFilesAtPaths.
  assert (∀ (l : list (string * SourceFile)) (pr : Project),
    foldl (λ project '(p, sf),
             if selects p then
               match project !! p with
               | Some _ => project
               | None => <[p := sf]> project
               end
             else project) pr l !! q
    = match pr !! q with
      | Some sf => Some sf
      | None =>
          if selects q then (list_to_map l : gmap string SourceFile) !! q
          else None
      end) as Hgen.
  { induction l as [|[k v] l IH]; intros pr; cbn [foldl list_to_map foldr].
    - rewrite lookup_empty. by destruct (pr !! q), (selects q).
    - rewrite IH. clear IH. cbn [uncurry].
      destruct (decide (k = q)) as [->|Hne].
      + rewrite lookup_insert_eq. destruct (selects q) eqn:Es; [|done].
        destruct (pr !! q) eqn:E; [by rewrite E|].
        by rewrite lookup_insert_eq.
      + rewrite (lookup_insert_ne _ k q) by done.
        destruct (selects k); [|done].
        destruct (pr !! k); [done|]. by rewrite lookup_insert_ne. }
  by rewrite Hgen, list_to_map_to_list.
Qed.

(** A full scan registers no excluded file. *)
Lemma addAllSourceFiles_excluded (disk : Disk) (inScope globExclude : string → bool)
    (project : Project) (p : string) :
  globExclude p = true →
  Files.addAllSourceFiles disk inScope globExclude project !! p = project !! p.
Proof.
  intros Hex. unfold Files.addAllSourceFiles, TsMorph.addSourceFilesAtPaths.
  generalize (map_to_list disk). intros l. revert project.
  induction l as [|[q sf] l IH]; intros project; cbn [foldl]; [done|].
  rewrite IH. destruct (inScope q && negb (globExclude q)) eqn:Hsel; [|done].
  destruct (project !! q); [done|].
  rewrite lookup_insert_ne; [done|]. intros ->.
  rewrite Hex in Hsel. by rewrite andb_false_r in Hsel.
Qed.

(** But it marks every registered file as affected, excluded or not. *)
Lemma markAllFilesAsAffected_elem_of (project : Project)
    (affectedFiles : list string) (q : string) :
  q ∈ Files.markAllFilesAsAffected project affectedFiles ↔
  q ∈ affectedFiles ∨ is_Some (project !! q).
Proof.
  unfold Files.markAllFilesAsAffected.
  rewrite <-getSourceFiles_elem_of.
  generalize (TsMorph.getSourceFiles project). intros l. revert affectedFiles.
  induction l as [|a l IH]; intros affectedFiles; cbn [foldl].
  - rewrite elem_of_nil. tauto.
  - rewrite IH, setAdd_elem_of, elem_of_cons. tauto.
Qed.

(** ** The deletion pass *)

(** The log of a full scan of [index.ts]: the deletion pass is entered
    first, before the scan, so the log does not have it after the
    additions. *)
Lemma deletion_pass_not_after_additions :
  buildLog (ComponentEnvGraph.build Examples.storiesDisk None
              Examples.storiesEngine)
  = [EvRemoveDeletedFiles; EvAddAllSourceFiles; EvMarkAllFilesAsAffected;
     EvUpdateFileNodes; EvClassify]
  ∧ ¬ deletionPassAfterAdditions
        (buildLog (ComponentEnvGraph.build Examples.storiesDisk None
                     Examples.storiesEngine)).
Proof.
  assert (buildLog (ComponentEnvGraph.build Examples.storiesDisk None
                      Examples.storiesEngine)
          = [EvRemoveDeletedFiles; EvAddAllSourceFiles;
             EvMarkAllFilesAsAffected; EvUpdateFileNodes; EvClassify]) as E
    by (by vm_compute).
  split; [exact E|]. rewrite E.
  intros (pre & post & Heq & Hpre & _ & Hadd & _).
  destruct pre as [|ev pre].
  - destruct Hadd as [H|H]; by apply elem_of_nil in H.
  - injection Heq as <- _. apply Hpre. left.
Qed.

(** C6.  Every [build()] of [index.ts] enters the deletion pass exactly once,
    as its first step: on a full scan before the project is scanned, the
    files are marked and the nodes are recomputed, and with changed files
    before these are refreshed.  The pass removes from the parse set and
    from the node store every registered file that is no longer on disk,
    and nothing else. *)
Theorem deletion_pass_runs_once_and_first (disk : Disk)
    (changedFiles : option (list string)) (e : Engine) :
  (∃ e' rest,
     resultEngine (ComponentEnvGraph.build disk changedFiles e) = Some e' ∧
     log e' = log e ++ EvRemoveDeletedFiles :: rest ∧
     (EvRemoveDeletedFiles ∉ rest) ∧
     match ComponentEnvGraph.nonEmpty changedFiles with
     | None =>
         ∃ notified,
           rest = [EvAddAllSourceFiles; EvMarkAllFilesAsAffected;
                   EvUpdateFileNodes; EvClassify]
                  ++ (EvListener <$> seq 0 notified)
     | Some _ => ∃ rest', rest = EvRefreshChangedFiles :: rest'
     end) ∧
  (∀ q, project (ComponentEnvGraph.removeDeletedFiles disk e) !! q
        = if decide (disk !! q = None) then None else project e !! q) ∧
  (∀ q, nodes_get (nodes (ComponentEnvGraph.removeDeletedFiles disk e)) q
        = if decide (is_Some (project e !! q) ∧ disk !! q = None)
          then None else nodes_get (nodes e) q).
Proof.
  split_and!.
  - destruct (ComponentEnvGraph.nonEmpty changedFiles) as [l|] eqn:Hne.
    + assert (∃ c cs, changedFiles = Some (c :: cs)) as (c & cs & ->).
      { destruct changedFiles as [[|c cs]|]; simplify_eq/=. eauto. }
      rewrite build_incremental. cbn zeta.
      destruct (removeDeletedFiles_static disk e) as (Hl & _).
      eexists _, [EvRefreshChangedFiles]. split_and!; [done| | |by eexists].
      * cbn [log withGraph]. by rewrite Hl, <-app_assoc.
      * apply not_elem_of_cons. split; [done|apply not_elem_of_nil].
    + destruct (graphUpdate_full_scan disk changedFiles e Hne)
        as (types & g & _ & Hg & _ & _ & Hl & _).
      rewrite (build_graphUpdate disk _ _ _ Hg). unfold fireDidUpdate.
      destruct (emit_spec (listeners g) 0 g) as (e' & k & Hr & _ & _ & Hl' & _).
      exists e', ([EvAddAllSourceFiles; EvMarkAllFilesAsAffected;
                   EvUpdateFileNodes; EvClassify]
                  ++ (EvListener <$> seq 0 k)).
      split_and!; [done| | |by exists k].
      * rewrite Hl', Hl. unfold fullScanPhases. by rewrite <-app_assoc.
      * rewrite elem_of_app. intros [H|(j & ? & _)%list_elem_of_fmap]; [|done].
        by elem_of_cases H.
  - intros q. destruct (removeDeletedFiles_static disk e)
      as (_ & _ & _ & _ & -> & _).
    by destruct (removeDeletedFiles_spec disk (project e) (nodes e)) as [-> _].
  - intros q. destruct (removeDeletedFiles_static disk e)
      as (_ & _ & _ & _ & _ & ->).
    by destruct (removeDeletedFiles_spec disk (project e) (nodes e)) as [_ ->].
Qed.

(** The single-file engine entered the deletion pass after the refresh or
    the scan, which is the order the log predicate describes. *)
Lemma historic_deletion_pass_after_additions (disk : Disk)
    (changedFiles : option (list string)) (e : Engine) :
  log e = [] →
  let r := Historic._updateProjectSourceFiles disk changedFiles e in
  deletionPassAfterAdditions (log (Historic._updateFileNodes r.2 r.1)).
Proof.
  intros Hlog. unfold Historic._updateProjectSourceFiles.
  destruct (ComponentEnvGraph.nonEmpty changedFiles) as [cs|].
  - unfold Historic._refreshChangedFiles.
    destruct (foldl _ (project e, []) cs) as [p1 affected].
    unfold Historic._removeDeletedFiles. cbn [withGraph project nodes].
    destruct (foldl _ (p1, nodes e) _) as [p2 n2].
    cbn [fst snd Historic._updateFileNodes withGraph log]. rewrite Hlog.
    exists [EvRefreshChangedFiles], [EvUpdateFileNodes]. cbn.
    split_and!; [done| | |left; left| |left];
      rewrite ?elem_of_cons, ?elem_of_nil; naive_solver.
  - unfold Historic._removeDeletedFiles, Historic._addAllSourceFiles.
    cbn [withGraph project nodes].
    destruct (foldl _ (_, nodes e) _) as [p2 n2].
    cbn [fst snd Historic._markAllFilesAsAffected Historic._updateFileNodes
         withGraph log]. rewrite Hlog.
    exists [EvAddAllSourceFiles],
           [EvMarkAllFilesAsAffected; EvUpdateFileNodes]. cbn.
    split_and!; [done| | |right; left| |right; left];
      rewrite ?elem_of_cons, ?elem_of_nil; naive_solver.
Qed.

(** ** Changed paths *)

(** C8.  A [build()] of [index.ts] with changed files does not reach the
    refresh.  [refreshChangedFiles] is handed the arrow function
    [isGlobExcluded] where files.ts calls [excludes.test]: the first
    iteration throws, before the path is added to the affected files, and
    nothing catches it.  The build leaves the graph as the deletion pass
    made it; [updateFileNodes], the classifier and the listeners are not
    reached. *)
Theorem changed_files_throw_before_the_refresh (disk : Disk)
    (changedFiles : list string) (e : Engine) :
  changedFiles ≠ [] →
  let e0 := ComponentEnvGraph.removeDeletedFiles disk e in
  let e1 := withGraph e0 (project e0) (nodes e0) EvRefreshChangedFiles in
  ComponentEnvGraph.updateProjectSourceFiles disk (Some changedFiles) e
    = Throw Files.notAFunction (e1, []) ∧
  ComponentEnvGraph.build disk (Some changedFiles) e
    = Raised Files.notAFunction e1 ∧
  graphUpdate disk (Some changedFiles) e = None ∧
  log e1 = log e ++ [EvRemoveDeletedFiles; EvRefreshChangedFiles].
Proof.
  intros Hne e0 e1. destruct changedFiles as [|c cs]; [done|].
  split_and!; [done..| |].
  - unfold graphUpdate. by rewrite updateProjectSourceFiles_incremental.
  - unfold e1, e0. cbn [log withGraph].
    destruct (removeDeletedFiles_static disk e) as (-> & _).
    by rewrite <-app_assoc.
Qed.

Lemma changed_files_throw_before_the_refresh_witness :
  ["/app/shared.tsx"] ≠ [] ∧
  is_Some (nodes_get (nodes Examples.sharedEngine) "/app/shared.tsx") ∧
  (∅ : Disk) !! "/app/shared.tsx" = None ∧
  match ComponentEnvGraph.build ∅ (Some ["/app/shared.tsx"])
          Examples.sharedEngine with
  | Raised exn e' =>
      exn = Files.notAFunction ∧
      log e' = [EvRemoveDeletedFiles; EvRefreshChangedFiles]
  | _ => False
  end.
Proof.
  assert (["/app/shared.tsx"] ≠ []) as Hne by done.
  split_and!; [exact Hne|by eexists|reflexivity|].
  destruct (changed_files_throw_before_the_refresh ∅ ["/app/shared.tsx"]
              Examples.sharedEngine Hne) as (_ & -> & _ & Hlog).
  split; [reflexivity|exact Hlog].
Defined.

(** The single-file engine kept an excluded path out of the node store in
    [_updateFileNodes] itself. *)
Lemma historic_updateFileNodes_excluded (filesToUpdate : list string)
    (e : Engine) (p : string) :
  p ∈ filesToUpdate →
  Historic.isExcludedFile p = true →
  nodes_get (nodes (Historic._updateFileNodes filesToUpdate e)) p = None.
Proof.
  intros Hin Hex. unfold Historic._updateFileNodes. cbn [nodes withGraph].
  generalize (nodes e). intros ns. revert ns Hin.
  induction filesToUpdate as [|a l IH]; intros ns Hin; cbn [foldl].
  - by apply elem_of_nil in Hin.
  - destruct (decide (p ∈ l)) as [Hl|Hl]; [by apply IH|].
    apply elem_of_cons in Hin as [<-|?]; [|done].
    assert (∀ l ns, p ∉ l →
      nodes_get
        (foldl (λ nodes filePath,
                  match project e !! filePath with
                  | Some sf =>
                      if Historic.isExcludedFile filePath
                      then nodes_delete nodes filePath
                      else nodes_set nodes filePath
                             (freshNode (project e) filePath sf)
                  | None => nodes_delete nodes filePath
                  end) ns l) p = nodes_get ns p) as Hkeep.
    { clear. induction l as [|a l IH]; intros ns Hni; cbn [foldl]; [done|].
      apply not_elem_of_cons in Hni as [Hne Hni]. rewrite IH by done.
      destruct (project e !! a); [destruct (Historic.isExcludedFile a)|];
        by rewrite ?nodes_get_delete, ?nodes_get_set, decide_False. }
    rewrite Hkeep by done. rewrite Hex.
    destruct (project e !! p); by rewrite nodes_get_delete, decide_True.
Qed.

(** C7.  [/app/a.stories.tsx] matches the exclusion patterns and is on disk when
    the engine is constructed, so the tsconfig file registers it.  The first
    [build()] of [index.ts], a full scan, makes it a node; the single-file
    engine, given the same, does not. *)
Theorem excluded_file_registered_at_construction_becomes_node :
  isGlobExcluded Examples.storiesEngine "/app/a.stories.tsx" = true ∧
  (keys ∘ nodes) <$>
    resultEngine (ComponentEnvGraph.build Examples.storiesDisk None
                    Examples.storiesEngine)
  = Some ["/app/a.stories.tsx"; "/app/a.tsx"] ∧
  (keys ∘ nodes) <$>
    resultEngine (Historic.build Examples.storiesDisk None
                    Examples.storiesEngine)
  = Some ["/app/a.tsx"].
Proof. split_and!; by vm_compute. Qed.

(** ** Listeners *)

(** A listener that throws: [build()] does not return normally, and the
    listener registered after it is never called. *)
Lemma listener_exception_leaves_build :
  match ComponentEnvGraph.build Examples.storiesDisk None
          Examples.listeningEngine with
  | Raised exn e' =>
      exn = "listener failed" ∧
      log e' = [EvRemoveDeletedFiles; EvAddAllSourceFiles;
                EvMarkAllFilesAsAffected; EvUpdateFileNodes; EvClassify;
                EvListener 0]
  | _ => False
  end
  ∧ ¬ ∃ e', ComponentEnvGraph.build Examples.storiesDisk None
              Examples.listeningEngine = Returned e'.
Proof.
  split; [by vm_compute|].
  intros [e' H].
  assert (resultEngine (ComponentEnvGraph.build Examples.storiesDisk None
                          Examples.listeningEngine) ≫= (λ e, last (log e))
          = Some (EvListener 0)) as Hlast by (by vm_compute).
  rewrite H in Hlast. cbn [resultEngine mbind option_bind] in Hlast.
  assert (match ComponentEnvGraph.build Examples.storiesDisk None
                  Examples.listeningEngine with
          | Returned _ => true | _ => false end = false) as Hnot
    by (by vm_compute).
  by rewrite H in Hnot.
Qed.

(** C9.  When [build()] has completed its graph update it notifies the
    listeners, synchronously and in the order they were registered, and the
    update is complete before the first of them is called.  When every
    listener returns, each has been called once and [build()] returns.
    When a listener throws, what it throws leaves [build()], and the
    listeners registered after it are not called. *)
Theorem listener_exception_propagates_after_update (disk : Disk)
    (changedFiles : option (list string)) (e g : Engine) :
  graphUpdate disk changedFiles e = Some g →
  ∃ e' notified,
    ComponentEnvGraph.build disk changedFiles e = fireDidUpdate g ∧
    resultEngine (ComponentEnvGraph.build disk changedFiles e) = Some e' ∧
    log e' = log g ++ (EvListener <$> seq 0 notified) ∧
    ((ComponentEnvGraph.build disk changedFiles e = Returned e' ∧
      notified = length (listeners g) ∧
      ∀ j l, listeners g !! j = Some l → l (nodes g) = None) ∨
     (∃ l exn,
        ComponentEnvGraph.build disk changedFiles e = Raised exn e' ∧
        listeners g !! (notified - 1) = Some l ∧ 0 < notified ∧
        l (nodes g) = Some exn ∧
        ∀ j l', j < notified - 1 → listeners g !! j = Some l' →
                l' (nodes g) = None)).
Proof.
  intros Hg. rewrite (build_graphUpdate disk _ _ _ Hg). unfold fireDidUpdate.
  destruct (emit_spec (listeners g) 0 g)
    as (e' & k & Hr & _ & _ & Hl & Hcase).
  by exists e', k.
Qed.

Lemma listener_exception_propagates_after_update_witness :
  ∃ g,
    graphUpdate Examples.storiesDisk None Examples.listeningEngine = Some g ∧
    ∃ e' notified,
      ComponentEnvGraph.build Examples.storiesDisk None
        Examples.listeningEngine = fireDidUpdate g ∧
      resultEngine (ComponentEnvGraph.build Examples.storiesDisk None
                      Examples.listeningEngine) = Some e' ∧
      log e' = log g ++ (EvListener <$> seq 0 notified) ∧
      ((ComponentEnvGraph.build Examples.storiesDisk None
          Examples.listeningEngine = Returned e' ∧
        notified = length (listeners g) ∧
        ∀ j l, listeners g !! j = Some l → l (nodes g) = None) ∨
       (∃ l exn,
          ComponentEnvGraph.build Examples.storiesDisk None
            Examples.listeningEngine = Raised exn e' ∧
          listeners g !! (notified - 1) = Some l ∧ 0 < notified ∧
          l (nodes g) = Some exn ∧
          ∀ j l', j < notified - 1 → listeners g !! j = Some l' →
                  l' (nodes g) = None)).
Proof.
  destruct (graphUpdate_full_scan Examples.storiesDisk None
              Examples.listeningEngine eq_refl) as (types & g & _ & Hg & _).
  exists g. split; [exact Hg|].
  exact (listener_exception_propagates_after_update Examples.storiesDisk None
           Examples.listeningEngine g Hg).
Defined.

(** ** The in-place classifier against the pure one *)

Section in_place.
Implicit Types (nodes cur : NodeStore) (cr : gset string).

Lemma nodes_get_setNodeTypes cr nodes k :
  nodes_get (InPlace.setNodeTypes cr nodes) k
  = (λ n, setType n (if decide (k ∈ cr) then client else server))
    <$> nodes_get nodes k.
Proof.
  unfold InPlace.setNodeTypes.
  induction nodes as [|[k' m] rest IH]; [done|].
  cbn [fmap list_fmap nodes_get]. fold (@fmap list _).
  destruct (decide (k' = k)) as [->|]; [done|]. apply IH.
Qed.

Lemma nodes_get_setType cur fp ty k :
  nodes_get (nodes_setType cur fp ty) k
  = if decide (fp = k) then (λ n, setType n ty) <$> nodes_get cur k
    else nodes_get cur k.
Proof.
  induction cur as [|[k' m] rest IH]; cbn [nodes_setType nodes_get].
  - by case_decide.
  - destruct (decide (k' = fp)) as [->|Hne]; cbn [nodes_get].
    + repeat case_decide; try done; congruence.
    + rewrite IH. repeat case_decide; try done; congruence.
Qed.

(** The importer index does not depend on the types of the nodes. *)
Lemma collectImporters_setNodeTypes cr nodes :
  Classify.collectImporters (InPlace.setNodeTypes cr nodes)
  = Classify.collectImporters nodes.
Proof.
  unfold Classify.collectImporters, InPlace.setNodeTypes.
  generalize (∅ : gmap string (gset string)).
  induction nodes as [|[k m] rest IH]; intros acc; [done|].
  cbn [fmap list_fmap foldl]. fold (@fmap list _). apply IH.
Qed.

Lemma in_place_isUniversalTypeLoop_true cur l hasClient hasServer :
  hasClient && hasServer = false →
  InPlace.isUniversalTypeLoop cur l hasClient hasServer = true ↔
  (hasClient = true ∨ ∃ p, p ∈ l ∧ nodes_get cur p ≫= type = Some client) ∧
  (hasServer = true ∨ ∃ q, q ∈ l ∧ nodes_get cur q ≫= type = Some server).
Proof.
  revert hasClient hasServer.
  induction l as [|a l IH]; intros hc hs Hinv;
    cbn [InPlace.isUniversalTypeLoop].
  - setoid_rewrite elem_of_nil. destruct hc, hs; naive_solver.
  - setoid_rewrite elem_of_cons.
    destruct (decide (nodes_get cur a ≫= type = Some client)) as [Ec|Ec];
      destruct (decide (nodes_get cur a ≫= type = Some server)) as [Es|Es];
      [congruence|..];
      destruct hc, hs; try discriminate Hinv; cbn [andb];
      try (rewrite IH by done);
      (split; [intros H | intros [[?|(p & [->|?] & ?)] [?|(q & [->|?] & ?)]]]);
      try congruence; try done; naive_solver.
Qed.

(** What the in-place classifier does differently, and only that: a node
    the pure classifier promotes may be left at its baseline type; every
    other node gets the type the pure classifier gives it. *)
Lemma in_place_promotes_less nodes :
  NoDup (keys nodes) →
  ∃ cr types nodes',
    Classify.getClientReachable (S (length nodes)) nodes
      (Classify.getClientEntries nodes) = Some cr ∧
    Classify.computeComponentTypes nodes = Some types ∧
    InPlace.classifyComponentTypes nodes = Some nodes' ∧
    ∀ k, match nodes_get nodes' k with
         | None => nodes_get nodes k = None
         | Some n' =>
             type n' = types !! k ∨
             (types !! k = Some universal ∧
              type n' = Classify.initNodeTypes nodes cr !! k)
         end.
Proof.
  intros ND.
  destruct (computeComponentTypes_steps nodes)
    as (cr & types & Ecr & Hcr & E & Hty).
  unfold InPlace.classifyComponentTypes, InPlace.classifyComponentTypesFuel.
  rewrite Ecr. eexists cr, types, _. split_and!; [done..|].
  rewrite collectImporters_setNodeTypes.
  set (baseline := Classify.initNodeTypes nodes cr) in *.
  set (importers := Classify.collectImporters nodes) in *.
  set (U := Classify.computeUniversalSet nodes importers baseline) in *.
  set (nodes1 := InPlace.setNodeTypes cr nodes).
  assert (∀ k n1, nodes_get nodes1 k = Some n1 →
                  type n1 = baseline !! k ∧ k ∈ keys nodes) as Hbase.
  { intros k n1. unfold nodes1. rewrite nodes_get_setNodeTypes.
    destruct (nodes_get nodes k) as [n|] eqn:En; [|done].
    intros [= <-]. assert (k ∈ keys nodes) by (apply nodes_get_is_Some; eauto).
    split; [|done]. unfold baseline. rewrite initNodeTypes_lookup.
    by rewrite (decide_True (P := k ∈ keys nodes)). }
  (* the invariant of the loop of [setUniversalTypes] *)
  set (inv := λ cur : NodeStore, ∀ k,
         match nodes_get cur k with
         | None => nodes_get nodes1 k = None
         | Some n =>
             ∃ n1, nodes_get nodes1 k = Some n1 ∧
                   (type n = type n1 ∨ (type n = Some universal ∧ k ∈ U))
         end).
  assert (∀ l cur,
    (∀ fp node, (fp, node) ∈ l → (fp, node) ∈ nodes1) →
    inv cur →
    inv (foldl (λ cur '(fp, node),
                  if isClient node then cur
                  else match importers !! fp with
                       | None => cur
                       | Some from =>
                           if InPlace.isUniversalType cur from
                           then nodes_setType cur fp universal
                           else cur
                       end) cur l)) as Hloop.
  { induction l as [|[fp node] l IH]; intros cur Hl Hinv; cbn [foldl]; [done|].
    apply IH; [intros; apply Hl; by right|].
    destruct (isClient node) eqn:Ec; [done|].
    destruct (importers !! fp) as [from|] eqn:Ei; [|done].
    destruct (InPlace.isUniversalType cur from) eqn:Eu; [|done].
    assert (fp ∈ U) as HU.
    { apply computeUniversalSet_elem_of.
      assert ((fp, node) ∈ nodes1) as Hin by (apply Hl; left).
      unfold nodes1, InPlace.setNodeTypes in Hin.
      apply list_elem_of_fmap in Hin as ([fp' n0] & [= -> ->] & Hin0).
      exists n0, from. split_and!; [done..|].
      apply isUniversalType_true.
      unfold InPlace.isUniversalType in Eu.
      apply in_place_isUniversalTypeLoop_true in Eu; [|done].
      setoid_rewrite elem_of_elements in Eu.
      assert (∀ p ty, ty ≠ universal →
                      nodes_get cur p ≫= type = Some ty →
                      baseline !! p = Some ty) as Hcur.
      { intros p ty Hne Hp. specialize (Hinv p).
        destruct (nodes_get cur p) as [n|]; [|done].
        destruct Hinv as (n1 & Hn1 & [Hsame|[Hu _]]).
        - cbn in Hp. destruct (Hbase p n1 Hn1) as [<- _]. congruence.
        - cbn in Hp. congruence. }
      destruct Eu as [[?|(p & Hp & Tp)] [?|(q & Hq & Tq)]]; try done.
      split; [exists p | exists q]; (split; [done|]); by apply Hcur. }
    intros k. rewrite nodes_get_setType. specialize (Hinv k).
    destruct (decide (fp = k)) as [->|]; [|done].
    destruct (nodes_get cur k) as [n|]; [|done]. cbn.
    destruct Hinv as (n1 & Hn1 & _). exists n1. split; [done|]. by right. }
  intros k.
  assert (inv nodes1) as Hinv0.
  { intros k'. destruct (nodes_get nodes1 k') as [n1|]; [|done].
    exists n1. split; [done|by left]. }
  specialize (Hloop nodes1 nodes1 (λ _ _ H, H) Hinv0 k).
  unfold InPlace.setUniversalTypes. fold nodes1.
  destruct (nodes_get (foldl _ nodes1 nodes1) k) as [n'|].
  - destruct Hloop as (n1 & Hn1 & Hcase).
    destruct (Hbase k n1 Hn1) as [Hb _]. rewrite Hty. fold baseline importers U.
    destruct Hcase as [Hsame|[Hu HU]].
    + destruct (decide (k ∈ U)); [right|left]; by rewrite Hsame, Hb.
    + left. by rewrite decide_True.
  - unfold nodes1 in Hloop. rewrite nodes_get_setNodeTypes in Hloop.
    by destruct (nodes_get nodes k).
Qed.

End in_place.

(** C10.  On the store [cascade] the pure classifier types [/app/t.tsx]
    universal, and the in-place classifier leaves it client: when it comes
    to [t], its importer [u] has already been rewritten to universal and
    counts neither as client nor as server.  With [t] inserted before [u]
    the in-place classifier types [t] universal too. *)
Theorem in_place_classifier_reads_promoted_types :
  Classify.computeComponentTypes Examples.cascade ≫= (.!! "/app/t.tsx")
  = Some universal ∧
  InPlace.classifyComponentTypes Examples.cascade
    ≫= (λ nodes, nodes_get nodes "/app/t.tsx" ≫= type)
  = Some client ∧
  InPlace.classifyComponentTypes Examples.cascadeReordered
    ≫= (λ nodes, nodes_get nodes "/app/t.tsx" ≫= type)
  = Some universal.
Proof. split_and!; by vm_compute. Qed.

(** ** The scenarios of the repository's tests *)

(** "client propagation across chain (a -> b -> c)" *)
Example chain_is_client :
  typesAfterBuild
    (ComponentEnvGraph.build Examples.chainDisk None Examples.emptyEngine)
  = Some [ ("/app/c.tsx", Some client); ("/app/a.tsx", Some client);
           ("/app/b.tsx", Some client) ].
Proof. by vm_compute. Qed.

(** "re-exported dependency from index.ts with use client" *)
Example reexport_is_client :
  typesAfterBuild
    (ComponentEnvGraph.build Examples.reexportDisk None Examples.emptyEngine)
  = Some [ ("/app/index.ts", Some client); ("/app/Button.tsx", Some client) ].
Proof. by vm_compute. Qed.

(** "excluded stories file should not effect graph": the stories file is
    written after the engine is made, and the full scan does not register
    it. *)
Example stories_written_after_construction :
  typesAfterBuild
    (ComponentEnvGraph.build Examples.storiesDisk None Examples.emptyEngine)
  = Some [ ("/app/a.tsx", Some server) ].
Proof. by vm_compute. Qed.

(** "removes node when file is deleted", on the version of the engine that
    hands the constant [EXCLUDES] to [refreshChangedFiles] *)
Example deleted_file_leaves_store :
  typesAfterBuild
    (Previous.build ∅ (Some ["/app/shared.tsx"]) Examples.sharedEngine)
  = Some [].
Proof. by vm_compute. Qed.

(** An import is resolved when the node is extracted: [a.tsx] imports
    [./b] before [b.tsx] exists, and the scan that registers [b.tsx] gives
    [a.tsx] its import. *)
Example import_resolved_once_its_target_is_registered :
  typesAfterBuild
    (ComponentEnvGraph.build (delete "/app/b.tsx" Examples.chainDisk) None
       Examples.emptyEngine)
  = Some [ ("/app/c.tsx", Some server); ("/app/a.tsx", Some client) ] ∧
  resultEngine
    (ComponentEnvGraph.build (delete "/app/b.tsx" Examples.chainDisk) None
       Examples.emptyEngine)
    ≫= (λ e, typesAfterBuild
                (ComponentEnvGraph.build Examples.chainDisk None e))
  = Some [ ("/app/c.tsx", Some client); ("/app/a.tsx", Some client);
           ("/app/b.tsx", Some client) ].
Proof. split; by vm_compute. Qed.

(** The directive counts as the first statement only, with or without the
    semicolon and in either quoting. *)
Example directive_locality :
  Analyze.hasUseClientDirective
    (mkSourceFile [Examples.useClient] [] []) = true ∧
  Analyze.hasUseClientDirective
    (mkSourceFile [mkStatement "ExpressionStatement" "'use client'"] [] []) = true ∧
  Analyze.hasUseClientDirective
    (mkSourceFile [mkStatement "VariableStatement" "const x = 1;";
                   Examples.useClient] [] []) = false ∧
  Analyze.hasUseClientDirective (mkSourceFile [] [] []) = false.
Proof. by vm_compute. Qed.

(** * Further properties *)

(** ** The classifier does not read the types *)

Section untyped.
Implicit Types (nodes : NodeStore) (k : string).

Lemma keys_untyped nodes : keys (untyped nodes) = keys nodes.
Proof.
  unfold keys, untyped. rewrite <-list_fmap_compose.
  apply list_fmap_ext. by intros i [k n].
Qed.

Lemma length_untyped nodes : length (untyped nodes) = length nodes.
Proof. unfold untyped. apply length_fmap. Qed.

Lemma nodes_get_untyped nodes k :
  nodes_get (untyped nodes) k = untypedNode <$> nodes_get nodes k.
Proof.
  unfold untyped. induction nodes as [|[k' n] rest IH]; [done|].
  cbn [fmap list_fmap nodes_get]. fold (@fmap list _).
  destruct (decide (k' = k)); [done|]. apply IH.
Qed.

Lemma nodes_has_untyped nodes k :
  nodes_has (untyped nodes) k = nodes_has nodes k.
Proof.
  unfold nodes_has. rewrite nodes_get_untyped.
  apply bool_decide_ext. by rewrite fmap_is_Some.
Qed.

Lemma getClientEntries_untyped nodes :
  Classify.getClientEntries (untyped nodes) = Classify.getClientEntries nodes.
Proof.
  unfold Classify.getClientEntries.
  assert (values (untyped nodes) = untypedNode <$> values nodes) as ->.
  { unfold values, untyped. rewrite <-!list_fmap_compose.
    apply list_fmap_ext. by intros i [k n]. }
  generalize (values nodes). intros l.
  induction l as [|n l IH]; [done|].
  rewrite fmap_cons, !filter_cons. cbn [untypedNode isClient].
  destruct (decide (isClient n = true)); rewrite ?fmap_cons;
    [f_equal|]; apply IH.
Qed.

Lemma visitImports_ext nodes nodes' rec rec' imps cr :
  (∀ imp, nodes_has nodes' imp = nodes_has nodes imp) →
  (∀ fp cr, rec' fp cr = rec fp cr) →
  Classify.visitImports nodes' rec' imps cr
  = Classify.visitImports nodes rec imps cr.
Proof.
  intros Hhas Hrec. revert cr.
  induction imps as [|imp rest IH]; intros cr; cbn [Classify.visitImports];
    [done|].
  rewrite Hhas, Hrec. destruct (nodes_has nodes imp); [|apply IH].
  destruct (rec imp cr); [apply IH|done].
Qed.

Lemma visit_untyped fuel nodes : ∀ fp cr,
  Classify.visit fuel (untyped nodes) fp cr = Classify.visit fuel nodes fp cr.
Proof.
  induction fuel as [|fuel IH]; intros fp cr; cbn [Classify.visit]; [done|].
  case_decide; [done|]. rewrite nodes_get_untyped.
  destruct (nodes_get nodes fp) as [n|]; cbn [fmap option_fmap option_map];
    [|done].
  cbn [untypedNode imports].
  apply visitImports_ext; [apply nodes_has_untyped | apply IH].
Qed.

Lemma getClientReachable_untyped fuel nodes entries :
  Classify.getClientReachable fuel (untyped nodes) entries
  = Classify.getClientReachable fuel nodes entries.
Proof.
  unfold Classify.getClientReachable. generalize (∅ : gset string).
  induction entries as [|entry rest IH]; intros cr;
    cbn [Classify.visitEntries]; [done|].
  rewrite visit_untyped. destruct (Classify.visit fuel nodes entry cr);
    [apply IH|done].
Qed.

Lemma collectImporters_untyped nodes :
  Classify.collectImporters (untyped nodes) = Classify.collectImporters nodes.
Proof.
  unfold Classify.collectImporters, untyped.
  generalize (∅ : gmap string (gset string)).
  induction nodes as [|[k m] rest IH]; intros acc; [done|].
  cbn [fmap list_fmap foldl]. fold (@fmap list _). apply IH.
Qed.

Lemma computeUniversalSet_untyped nodes importers types :
  Classify.computeUniversalSet (untyped nodes) importers types
  = Classify.computeUniversalSet nodes importers types.
Proof.
  unfold Classify.computeUniversalSet, untyped.
  generalize (∅ : gset string).
  induction nodes as [|[k m] rest IH]; intros acc; [done|].
  cbn [fmap list_fmap foldl]. fold (@fmap list _). apply IH.
Qed.

Lemma computeComponentTypes_untyped nodes :
  Classify.computeComponentTypes (untyped nodes)
  = Classify.computeComponentTypes nodes.
Proof.
  unfold Classify.computeComponentTypes, Classify.computeComponentTypesFuel.
  rewrite length_untyped, getClientEntries_untyped, getClientReachable_untyped.
  destruct (Classify.getClientReachable _ nodes _) as [cr|]; [|done].
  rewrite collectImporters_untyped, computeUniversalSet_untyped.
  unfold Classify.initNodeTypes. by rewrite keys_untyped.
Qed.

End untyped.

(** X4.  The classifier reads no [type] field: two stores that differ in
    the types of their nodes only are classified alike. *)
Theorem classification_ignores_type_fields (nodes nodes' : NodeStore) :
  untyped nodes = untyped nodes' →
  Classify.computeComponentTypes nodes = Classify.computeComponentTypes nodes'.
Proof.
  intros H. by rewrite <-(computeComponentTypes_untyped nodes), H,
    computeComponentTypes_untyped.
Qed.

Lemma classification_ignores_type_fields_witness :
  untyped Examples.cascade
  = untyped (ComponentEnvGraph.applyTypes
               (<["/app/x.tsx" := server]> ∅) Examples.cascade) ∧
  Classify.computeComponentTypes Examples.cascade
  = Classify.computeComponentTypes
      (ComponentEnvGraph.applyTypes
         (<["/app/x.tsx" := server]> ∅) Examples.cascade).
Proof.
  assert (untyped Examples.cascade
          = untyped (ComponentEnvGraph.applyTypes
                       (<["/app/x.tsx" := server]> ∅) Examples.cascade))
    as H by (by vm_compute).
  split; [exact H|].
  exact (classification_ignores_type_fields _ _ H).
Defined.

(** ** The classification in closed form *)

Section closed_form.
Implicit Types (nodes : NodeStore) (k : string).

Lemma elem_of_keys nodes k n : (k, n) ∈ nodes → k ∈ keys nodes.
Proof. intros H. apply list_elem_of_fmap. by exists (k, n). Qed.

Lemma classification_closed_form nodes :
  NoDup (keys nodes) →
  ∃ types, Classify.computeComponentTypes nodes = Some types ∧
  ∀ k,
    (types !! k = None ↔ k ∉ keys nodes) ∧
    (types !! k = Some server ↔ k ∈ keys nodes ∧ ¬ clientReach nodes k) ∧
    (types !! k = Some universal ↔ promoted nodes k) ∧
    (types !! k = Some client ↔
       k ∈ keys nodes ∧ clientReach nodes k ∧ ¬ promoted nodes k).
Proof.
  intros ND.
  destruct (computeComponentTypes_steps nodes)
    as (cr & types & _ & Hcr & E & Hty).
  exists types. split; [done|]. intros k.
  set (base := Classify.initNodeTypes nodes cr) in *.
  set (U := Classify.computeUniversalSet nodes
              (Classify.collectImporters nodes) base) in *.
  assert (∀ p, base !! p = Some client ↔ p ∈ keys nodes ∧ clientReach nodes p)
    as Hbc.
  { intros p. unfold base. rewrite initNodeTypes_lookup, <-Hcr.
    repeat case_decide; naive_solver. }
  assert (∀ p, base !! p = Some server ↔ p ∈ keys nodes ∧ ¬ clientReach nodes p)
    as Hbs.
  { intros p. unfold base. rewrite initNodeTypes_lookup, <-Hcr.
    repeat case_decide; naive_solver. }
  assert (∀ p, base !! p ≠ Some universal) as Hbu.
  { intros p. unfold base. rewrite initNodeTypes_lookup.
    repeat case_decide; done. }
  assert (∀ p, base !! p = None ↔ p ∉ keys nodes) as Hbn.
  { intros p. unfold base. rewrite initNodeTypes_lookup.
    repeat case_decide; naive_solver. }
  assert (∀ t p, importer nodes t p ↔ importsNode nodes p t) as Himp.
  { intros t p. unfold importer, importsNode. split; intros (n & Hn & Ht);
      exists n; (split; [|done]);
      [by apply nodes_get_of_elem | by apply nodes_get_elem_of]. }
  assert (∀ t, t ∈ U ↔ promoted nodes t) as HU.
  { intros t. unfold U. rewrite universalSet_mixed.
    unfold mixedImporters, promoted.
    setoid_rewrite Himp. setoid_rewrite Hbc. setoid_rewrite Hbs. split.
    - intros [(n & Hn & Hc) [(p & Hp & _ & Rp) (q & Hq & _ & Rq)]].
      split_and!; [exists n|exists p|exists q]; split; try done.
      by apply nodes_get_of_elem.
    - intros [(n & Hn & Hc) [(p & Hp & Rp) (q & Hq & Rq)]].
      split; [exists n; split; [by apply nodes_get_elem_of|done]|].
      split; [exists p|exists q]; (split_and!; [done| |done]).
      + destruct Hp as (? & ? & _). apply nodes_get_is_Some. eauto.
      + destruct Hq as (? & ? & _). apply nodes_get_is_Some. eauto. }
  assert (∀ t, promoted nodes t → t ∈ keys nodes ∧ clientReach nodes t)
    as Hpr.
  { intros t [(n & Hn & _) [(p & (m & Hm & Ht) & (e & He & Hrt)) _]].
    assert (t ∈ keys nodes) as Hk by (apply nodes_get_is_Some; eauto).
    split; [done|]. exists e. split; [done|].
    eapply rtc_r; [done|]. exists m. split_and!; [done..|].
    by apply nodes_has_true. }
  rewrite (Hty k). destruct (decide (k ∈ U)) as [Hin|Hout].
  - pose proof (proj1 (HU k) Hin) as Hp. destruct (Hpr k Hp) as [Hk Hr].
    split_and!; split; try done; tauto.
  - assert (¬ promoted nodes k) as Hnp by (by rewrite <-HU).
    rewrite Hbn, Hbs, Hbc. split_and!; try tauto.
    split; [intros H; by destruct (Hbu k)|tauto].
Qed.

(** Two stores with the same keys, the same reachable nodes and the same
    promoted nodes are classified alike. *)
Lemma classification_determined nodes nodes' :
  NoDup (keys nodes) → NoDup (keys nodes') →
  (∀ k, k ∈ keys nodes ↔ k ∈ keys nodes') →
  (∀ k, clientReach nodes k ↔ clientReach nodes' k) →
  (∀ k, promoted nodes k ↔ promoted nodes' k) →
  Classify.computeComponentTypes nodes = Classify.computeComponentTypes nodes'.
Proof.
  intros ND ND' Hk Hr Hp.
  destruct (classification_closed_form nodes ND) as (types & -> & H).
  destruct (classification_closed_form nodes' ND') as (types' & -> & H').
  f_equal. apply map_eq. intros k.
  destruct (H k) as (Hn & Hs & Hu & Hc).
  destruct (H' k) as (Hn' & Hs' & Hu' & Hc').
  destruct (types !! k) as [[]|] eqn:E; symmetry.
  - apply Hc'. rewrite <-Hk, <-Hr, <-Hp. by apply Hc.
  - apply Hs'. rewrite <-Hk, <-Hr. by apply Hs.
  - apply Hu'. rewrite <-Hp. by apply Hu.
  - apply Hn'. rewrite <-Hk. by apply Hn.
Qed.

Lemma clientReach_ext nodes nodes' :
  (∀ e, e ∈ Classify.getClientEntries nodes ↔
        e ∈ Classify.getClientEntries nodes') →
  (∀ x y, edge nodes x y ↔ edge nodes' x y) →
  ∀ k, clientReach nodes k ↔ clientReach nodes' k.
Proof.
  intros He Hedge k. unfold clientReach.
  split; intros (e & Hin & Hrt); exists e; (split; [by apply He|]);
    (eapply rtc_subrel; [|done]); intros x y; by apply Hedge.
Qed.

Lemma promoted_ext nodes nodes' :
  (∀ k, clientReach nodes k ↔ clientReach nodes' k) →
  (∀ k, (∃ n, nodes_get nodes k = Some n ∧ isClient n = false) ↔
        (∃ n, nodes_get nodes' k = Some n ∧ isClient n = false)) →
  (∀ p k, is_Some (nodes_get nodes k) →
          importsNode nodes p k ↔ importsNode nodes' p k) →
  ∀ k, promoted nodes k ↔ promoted nodes' k.
Proof.
  intros Hr Hn Hi k. unfold promoted. split.
  - intros [Hk [(p & Hp & Rp) (q & Hq & Rq)]].
    assert (is_Some (nodes_get nodes k)) as Hs
      by (destruct Hk as (? & ? & _); eauto).
    split; [by apply Hn|]. split; [exists p | exists q].
    + split; [by apply (Hi _ _ Hs) | by apply Hr].
    + split; [by apply (Hi _ _ Hs) | by rewrite <-Hr].
  - intros [Hk [(p & Hp & Rp) (q & Hq & Rq)]].
    apply Hn in Hk.
    assert (is_Some (nodes_get nodes k)) as Hs
      by (destruct Hk as (? & ? & _); eauto).
    split; [done|]. split; [exists p | exists q].
    + split; [by apply (Hi _ _ Hs) | by apply Hr].
    + split; [by apply (Hi _ _ Hs) | by rewrite Hr].
Qed.

End closed_form.

Section store_maps.
Implicit Types (nodes : NodeStore) (k : string) (f : FileNode → FileNode).

Lemma keys_map_values f nodes :
  keys ((λ '(k, n), (k, f n)) <$> nodes) = keys nodes.
Proof.
  unfold keys. rewrite <-list_fmap_compose. apply list_fmap_ext.
  by intros i [k n].
Qed.

Lemma nodes_get_map_values f nodes k :
  nodes_get ((λ '(k, n), (k, f n)) <$> nodes) k = f <$> nodes_get nodes k.
Proof.
  induction nodes as [|[k' n] rest IH]; [done|].
  cbn [fmap list_fmap nodes_get]. fold (@fmap list _).
  destruct (decide (k' = k)); [done|]. apply IH.
Qed.

Lemma nodes_has_map_values f nodes k :
  nodes_has ((λ '(k, n), (k, f n)) <$> nodes) k = nodes_has nodes k.
Proof.
  unfold nodes_has. rewrite nodes_get_map_values.
  apply bool_decide_ext. by rewrite fmap_is_Some.
Qed.

Lemma keys_perm nodes nodes' : nodes ≡ₚ nodes' → keys nodes ≡ₚ keys nodes'.
Proof. intros HP. unfold keys. by apply fmap_Permutation. Qed.

Lemma nodes_has_perm nodes nodes' k :
  nodes ≡ₚ nodes' → nodes_has nodes' k = nodes_has nodes k.
Proof.
  intros HP. apply eq_true_iff_eq. rewrite !nodes_has_true.
  by rewrite (keys_perm _ _ HP).
Qed.

Lemma keys_pruneImports nodes : keys (pruneImports nodes) = keys nodes.
Proof. unfold pruneImports. apply (keys_map_values _ nodes). Qed.

Lemma nodes_get_pruneImports nodes k :
  nodes_get (pruneImports nodes) k =
  (λ n, mkFileNode (filePath n) (isClient n)
          (filter (λ imp, nodes_has nodes imp = true) (imports n)) (type n))
    <$> nodes_get nodes k.
Proof. unfold pruneImports. apply (nodes_get_map_values _ nodes). Qed.

Lemma nodes_has_pruneImports nodes k :
  nodes_has (pruneImports nodes) k = nodes_has nodes k.
Proof. unfold pruneImports. apply (nodes_has_map_values _ nodes). Qed.

Lemma edge_pruneImports nodes x y :
  edge (pruneImports nodes) x y ↔ edge nodes x y.
Proof.
  unfold edge. setoid_rewrite nodes_get_pruneImports.
  setoid_rewrite nodes_has_pruneImports. split.
  - intros (n & Hn & Hy & Hh).
    destruct (nodes_get nodes x) as [m|]; simplify_eq/=.
    apply list_elem_of_filter in Hy as [_ Hy]. eauto.
  - intros (n & -> & Hy & Hh). eexists. split; [done|]. split; [|done].
    cbn. by apply list_elem_of_filter.
Qed.

Lemma importsNode_pruneImports nodes p k :
  is_Some (nodes_get nodes k) →
  importsNode nodes p k ↔ importsNode (pruneImports nodes) p k.
Proof.
  intros Hk%nodes_get_is_Some%nodes_has_true. unfold importsNode.
  setoid_rewrite nodes_get_pruneImports. split.
  - intros (n & -> & Hy). eexists. split; [done|].
    cbn. by apply list_elem_of_filter.
  - intros (n & Hn & Hy).
    destruct (nodes_get nodes p) as [m|]; simplify_eq/=.
    apply list_elem_of_filter in Hy as [_ Hy]. eauto.
Qed.

End store_maps.

(** X1.  The classification in closed form, for a store without duplicate
    keys.  The result has an entry for the keys of the store and for nothing
    else.  A key is server exactly when no client entry reaches it along
    imports between nodes of the store.  It is universal exactly when its
    node is not client-marked, one of the nodes importing it is reached and
    another is not.  It is client in the remaining case: reached, and not
    promoted. *)
Theorem classification_by_reachability (nodes : NodeStore) :
  NoDup (keys nodes) →
  ∃ types, Classify.computeComponentTypes nodes = Some types ∧
  ∀ k,
    (types !! k = None ↔ k ∉ keys nodes) ∧
    (types !! k = Some server ↔ k ∈ keys nodes ∧ ¬ clientReach nodes k) ∧
    (types !! k = Some universal ↔ promoted nodes k) ∧
    (types !! k = Some client ↔
       k ∈ keys nodes ∧ clientReach nodes k ∧ ¬ promoted nodes k).
Proof. apply classification_closed_form. Qed.

Lemma classification_by_reachability_witness :
  NoDup (keys Examples.cascade) ∧
  ∃ types, Classify.computeComponentTypes Examples.cascade = Some types ∧
  ∀ k,
    (types !! k = None ↔ k ∉ keys Examples.cascade) ∧
    (types !! k = Some server ↔
       k ∈ keys Examples.cascade ∧ ¬ clientReach Examples.cascade k) ∧
    (types !! k = Some universal ↔ promoted Examples.cascade k) ∧
    (types !! k = Some client ↔
       k ∈ keys Examples.cascade ∧ clientReach Examples.cascade k ∧
       ¬ promoted Examples.cascade k).
Proof.
  assert (NoDup (keys Examples.cascade)) as ND.
  { unfold keys, Examples.cascade. cbn [fmap list_fmap fst].
    repeat constructor; rewrite ?elem_of_cons, ?elem_of_nil; naive_solver. }
  split; [exact ND|].
  exact (classification_by_reachability Examples.cascade ND).
Defined.

(** X2.  The classification does not depend on the insertion order of the
    node store: two stores without duplicate keys that hold the same entries
    get the same map of types. *)
Theorem classification_ignores_insertion_order (nodes nodes' : NodeStore) :
  NoDup (keys nodes) → nodes ≡ₚ nodes' →
  Classify.computeComponentTypes nodes = Classify.computeComponentTypes nodes'.
Proof.
  intros ND HP.
  assert (NoDup (keys nodes')) as ND' by (by rewrite <-(keys_perm _ _ HP)).
  assert (∀ k, clientReach nodes k ↔ clientReach nodes' k) as Hr.
  { apply clientReach_ext.
    - intros e. rewrite !getClientEntries_elem_of.
      by setoid_rewrite (elem_of_Permutation_proper _ _ _ HP).
    - intros x y. unfold edge.
      rewrite (nodes_get_perm _ _ x ND HP), (nodes_has_perm _ _ y HP). done. }
  apply classification_determined; [done..| |done|].
  - intros k. by rewrite (keys_perm _ _ HP).
  - apply promoted_ext; [done|..].
    + intros k. by rewrite (nodes_get_perm _ _ k ND HP).
    + intros p k _. unfold importsNode.
      by rewrite (nodes_get_perm _ _ p ND HP).
Qed.

Lemma classification_ignores_insertion_order_witness :
  NoDup (keys Examples.cascade) ∧
  Examples.cascade ≡ₚ Examples.cascadeReordered ∧
  Classify.computeComponentTypes Examples.cascade =
  Classify.computeComponentTypes Examples.cascadeReordered.
Proof.
  assert (NoDup (keys Examples.cascade)) as ND.
  { unfold keys, Examples.cascade. cbn [fmap list_fmap fst].
    repeat constructor; rewrite ?elem_of_cons, ?elem_of_nil; naive_solver. }
  assert (Examples.cascade ≡ₚ Examples.cascadeReordered) as HP.
  { unfold Examples.cascade, Examples.cascadeReordered.
    do 2 apply perm_skip. apply perm_swap. }
  split; [exact ND|]. split; [exact HP|].
  exact (classification_ignores_insertion_order _ _ ND HP).
Defined.

(** X3.  An import of a path that is not a key of the store has no effect:
    dropping every such import from every node leaves the classification
    as it is. *)
Theorem dangling_imports_are_inert (nodes : NodeStore) :
  NoDup (keys nodes) →
  Classify.computeComponentTypes (pruneImports nodes) =
  Classify.computeComponentTypes nodes.
Proof.
  intros ND. symmetry.
  assert (∀ k, clientReach nodes k ↔ clientReach (pruneImports nodes) k)
    as Hr.
  { apply clientReach_ext.
    - intros e. rewrite !getClientEntries_elem_of. split.
      + intros (k & n & Hin & Hc & Hf).
        apply nodes_get_of_elem in Hin; [|done].
        exists k, (mkFileNode (filePath n) (isClient n)
                     (filter (λ imp, nodes_has nodes imp = true) (imports n))
                     (type n)).
        split; [|by split].
        apply nodes_get_elem_of. by rewrite nodes_get_pruneImports, Hin.
      + intros (k & n & Hin & Hc & Hf).
        apply nodes_get_of_elem in Hin; [|by rewrite keys_pruneImports].
        rewrite nodes_get_pruneImports in Hin.
        destruct (nodes_get nodes k) as [m|] eqn:Hm; simplify_eq/=.
        exists k, m. split; [by apply nodes_get_elem_of|done].
    - intros x y. by rewrite edge_pruneImports. }
  apply classification_determined;
    rewrite ?keys_pruneImports; [done..| |].
  - done.
  - apply promoted_ext; [done|..].
    + intros k. rewrite nodes_get_pruneImports. split.
      * intros (n & -> & Hc). eexists. split; [done|]. done.
      * intros (n & Hn & Hc).
        destruct (nodes_get nodes k) as [m|]; simplify_eq/=. eauto.
    + intros p k. apply importsNode_pruneImports.
Qed.

Lemma dangling_imports_are_inert_witness :
  pruneImports Examples.dangling =
    [ ("/app/a.tsx", mkFileNode "/app/a.tsx" true ["/app/b.tsx"] None);
      ("/app/b.tsx", mkFileNode "/app/b.tsx" false [] None) ] ∧
  Classify.computeComponentTypes (pruneImports Examples.dangling) =
  Classify.computeComponentTypes Examples.dangling.
Proof.
  split; [by vm_compute|].
  apply (dangling_imports_are_inert Examples.dangling).
  unfold keys, Examples.dangling. cbn [fmap list_fmap fst].
  repeat constructor; rewrite ?elem_of_cons, ?elem_of_nil; naive_solver.
Defined.

(** ** The importer index and the promotion test *)

Section importer_index.
Implicit Types (nodes : NodeStore) (importers : gmap string (gset string)).

Lemma addImporter_nonempty fp importers imp :
  (∀ t from, importers !! t = Some from → from ≠ ∅) →
  ∀ t from, Classify.addImporter fp importers imp !! t = Some from → from ≠ ∅.
Proof.
  intros Hne t from. unfold Classify.addImporter.
  destruct (importers !! imp) as [from0|] eqn:E.
  - rewrite E. destruct (decide (t = imp)) as [->|Hti].
    + rewrite lookup_insert_eq. intros [= <-]. set_solver.
    + rewrite lookup_insert_ne by done. apply Hne.
  - rewrite lookup_insert_eq. destruct (decide (t = imp)) as [->|Hti].
    + rewrite lookup_insert_eq. intros [= <-]. set_solver.
    + rewrite !lookup_insert_ne by done. apply Hne.
Qed.

Lemma collectImporters_nonempty nodes t from :
  Classify.collectImporters nodes !! t = Some from → from ≠ ∅.
Proof.
  unfold Classify.collectImporters. revert t from.
  assert (∀ fp imps importers,
    (∀ t from, importers !! t = Some from → from ≠ ∅) →
    ∀ t from, foldl (Classify.addImporter fp) importers imps !! t = Some from →
              from ≠ ∅) as Hinner.
  { intros fp. induction imps as [|imp imps IH]; intros importers Hne;
      cbn [foldl]; [done|].
    apply IH. by apply addImporter_nonempty. }
  assert (∀ l importers,
    (∀ t from, importers !! t = Some from → from ≠ ∅) →
    ∀ t from,
      foldl (λ importers '(fp, node),
               foldl (Classify.addImporter fp) importers (imports node))
            importers l !! t = Some from →
      from ≠ ∅) as Houter.
  { induction l as [|[fp node] l IH]; intros importers Hne; cbn [foldl];
      [done|].
    apply IH. by apply Hinner. }
  apply Houter. intros t from. by rewrite lookup_empty.
Qed.

End importer_index.

(** X5.  [collectImporters] is the reverse index of the imports: the set
    stored under a path holds exactly the keys of the entries whose node
    imports that path, it is never empty, and a path that no node imports
    has no entry.  Imported paths that are not nodes are indexed like the
    others. *)
Theorem collectImporters_reverse_index (nodes : NodeStore) (t : string) :
  match Classify.collectImporters nodes !! t with
  | Some from => from ≠ ∅ ∧ ∀ p, p ∈ from ↔ importer nodes t p
  | None => ∀ p, ¬ importer nodes t p
  end.
Proof.
  pose proof (collectImporters_recorded nodes t) as Hrec.
  pose proof (collectImporters_nonempty nodes t) as Hne.
  unfold recorded in Hrec.
  destruct (Classify.collectImporters nodes !! t) as [from|].
  - split; [by apply Hne|]. intros p. rewrite <-Hrec. naive_solver.
  - intros p Hp. apply Hrec in Hp as (? & ? & _). done.
Qed.

(** X6.  [isUniversalType], a loop with two flags and an early return, answers
    true exactly when the set of importers holds a path typed client and a
    path typed server; importers typed universal, and importers without a
    type, count for neither. *)
Theorem isUniversalType_mixed (types : gmap string ComponentType)
    (from : gset string) :
  (Classify.isUniversalType types from = true ↔
   (∃ p, p ∈ from ∧ types !! p = Some client) ∧
   (∃ q, q ∈ from ∧ types !! q = Some server)) ∧
  ((∀ p, p ∈ from → types !! p = Some universal ∨ types !! p = None) →
   Classify.isUniversalType types from = false) ∧
  (size from ≤ 1 → Classify.isUniversalType types from = false).
Proof.
  pose proof (isUniversalType_true types from) as Ht. split_and!; [done|..].
  - intros Hall. apply not_true_is_false. rewrite Ht.
    intros [(p & Hp & Hc) _]. destruct (Hall p Hp); congruence.
  - intros Hsz. apply not_true_is_false. rewrite Ht.
    intros [(p & Hp & Hc) (q & Hq & Hs)].
    assert (p ≠ q) as Hpq by congruence.
    assert ({[p; q]} ⊆ from) as Hsub by set_solver.
    apply subseteq_size in Hsub. rewrite size_union in Hsub by set_solver.
    rewrite !size_singleton in Hsub. lia.
Qed.

(** ** The in-place classifier writes types and nothing else *)

Section in_place_writes.
Implicit Types (nodes cur : NodeStore).

Lemma untyped_setNodeTypes cr nodes :
  untyped (InPlace.setNodeTypes cr nodes) = untyped nodes.
Proof.
  unfold untyped, InPlace.setNodeTypes. rewrite <-list_fmap_compose.
  apply list_fmap_ext. by intros i [k n].
Qed.

Lemma untyped_nodes_setType cur fp ty :
  untyped (nodes_setType cur fp ty) = untyped cur.
Proof.
  unfold untyped. induction cur as [|[k m] rest IH]; [done|].
  cbn [nodes_setType]. destruct (decide (k = fp)); [done|].
  rewrite !fmap_cons. by rewrite IH.
Qed.

Lemma typed_nodes_setType cur fp ty :
  Forall (λ kn, is_Some (type kn.2)) cur →
  Forall (λ kn, is_Some (type kn.2)) (nodes_setType cur fp ty).
Proof.
  induction 1 as [|[k m] rest Hm Hrest IH]; [done|].
  cbn [nodes_setType]. destruct (decide (k = fp)).
  - constructor; [by eexists|done].
  - by constructor.
Qed.

Lemma setUniversalTypes_writes importers nodes :
  Forall (λ kn, is_Some (type kn.2)) nodes →
  untyped (InPlace.setUniversalTypes importers nodes) = untyped nodes ∧
  Forall (λ kn, is_Some (type kn.2)) (InPlace.setUniversalTypes importers nodes).
Proof.
  intros Hty. unfold InPlace.setUniversalTypes.
  assert (∀ l cur,
    Forall (λ kn, is_Some (type kn.2)) cur →
    let r := foldl (λ cur '(fp, node),
                      if isClient node then cur
                      else match importers !! fp with
                           | None => cur
                           | Some from =>
                               if InPlace.isUniversalType cur from
                               then nodes_setType cur fp universal
                               else cur
                           end) cur l in
    untyped r = untyped cur ∧ Forall (λ kn, is_Some (type kn.2)) r) as Hloop.
  { induction l as [|[fp node] l IH]; intros cur Hcur; cbn [foldl]; [done|].
    destruct (isClient node); [by apply IH|].
    destruct (importers !! fp) as [from|]; [|by apply IH].
    destruct (InPlace.isUniversalType cur from); [|by apply IH].
    destruct (IH (nodes_setType cur fp universal)) as [Hu Ht];
      [by apply typed_nodes_setType|].
    split; [|done]. cbn zeta in Hu. by rewrite Hu, untyped_nodes_setType. }
  by apply Hloop.
Qed.

End in_place_writes.

(** X7.  The in-place classifier of the single-file engine returns on every
    store, types every node, and writes nothing but types: keys, order,
    paths, client marks and imports are those of the store it was given. *)
Theorem in_place_classifier_writes_types_only (nodes : NodeStore) :
  ∃ nodes', InPlace.classifyComponentTypes nodes = Some nodes' ∧
            untyped nodes' = untyped nodes ∧
            ∀ k n, (k, n) ∈ nodes' → is_Some (type n).
Proof.
  destruct (computeComponentTypes_steps nodes) as (cr & _ & Ecr & _).
  unfold InPlace.classifyComponentTypes, InPlace.classifyComponentTypesFuel.
  rewrite Ecr. eexists. split; [done|].
  destruct (setUniversalTypes_writes
              (Classify.collectImporters (InPlace.setNodeTypes cr nodes))
              (InPlace.setNodeTypes cr nodes)) as [Hu Ht].
  { unfold InPlace.setNodeTypes. apply Forall_fmap, Forall_forall.
    intros [k n] _. by eexists. }
  split; [by rewrite Hu, untyped_setNodeTypes|].
  intros k n Hin. by apply (proj1 (Forall_forall _ _) Ht (k, n)).
Qed.

(** X8.  On a store without duplicate keys the in-place classifier differs
    from the pure one by missing promotions only: a node gets the type the
    pure classifier gives it, or the pure classifier makes it universal
    and the in-place one leaves it client.  The two have the same keys. *)
Theorem in_place_classifier_misses_promotions_only (nodes : NodeStore) :
  NoDup (keys nodes) →
  ∃ types nodes',
    Classify.computeComponentTypes nodes = Some types ∧
    InPlace.classifyComponentTypes nodes = Some nodes' ∧
    ∀ k, match nodes_get nodes' k with
         | None => nodes_get nodes k = None ∧ types !! k = None
         | Some n' =>
             type n' = types !! k ∨
             (types !! k = Some universal ∧ type n' = Some client)
         end.
Proof.
  intros ND.
  destruct (in_place_promotes_less nodes ND)
    as (cr & types & nodes' & Ecr & E & E' & H).
  destruct (computeComponentTypes_steps nodes)
    as (cr' & types' & Ecr' & Hcr & Et & Hty).
  assert (cr' = cr) as -> by congruence.
  assert (types' = types) as -> by congruence.
  exists types, nodes'. split_and!; [done..|]. intros k. specialize (H k).
  destruct (nodes_get nodes' k) as [n'|] eqn:En.
  - destruct H as [H|[Hu Hb]]; [by left|right]. split; [done|].
    rewrite Hb, initNodeTypes_lookup.
    assert (k ∈ keys nodes) as Hk.
    { destruct (decide (k ∈ keys nodes)) as [|Hn]; [done|].
      rewrite Hty, initNodeTypes_lookup in Hu.
      rewrite (decide_False (P := k ∈ keys nodes)) in Hu by done.
      case_decide as HU; [|done].
      apply universalSet_mixed in HU as [(n & Hn' & _) _].
      destruct Hn. by eapply elem_of_keys. }
    rewrite (decide_True (P := k ∈ keys nodes)) by done.
    destruct (decide (k ∈ cr)) as [|Hc]; [done|]. exfalso.
    destruct (classification_closed_form nodes ND) as (types2 & E2 & Hcf).
    assert (types2 = types) as -> by congruence.
    destruct (Hcf k) as (_ & Hs & _).
    assert (types !! k = Some server) by (apply Hs; by rewrite <-Hcr).
    congruence.
  - split; [done|]. rewrite Hty, initNodeTypes_lookup.
    apply nodes_get_None in H.
    rewrite (decide_False (P := k ∈ keys nodes)) by done.
    case_decide as HU; [|done].
    apply universalSet_mixed in HU as [(n & Hn' & _) _].
    destruct H. by eapply elem_of_keys.
Qed.

Lemma in_place_classifier_misses_promotions_only_witness :
  NoDup (keys Examples.cascade) ∧
  ∃ types nodes',
    Classify.computeComponentTypes Examples.cascade = Some types ∧
    InPlace.classifyComponentTypes Examples.cascade = Some nodes' ∧
    ∀ k, match nodes_get nodes' k with
         | None => nodes_get Examples.cascade k = None ∧ types !! k = None
         | Some n' =>
             type n' = types !! k ∨
             (types !! k = Some universal ∧ type n' = Some client)
         end.
Proof.
  assert (NoDup (keys Examples.cascade)) as ND.
  { unfold keys, Examples.cascade. cbn [fmap list_fmap fst].
    repeat constructor; rewrite ?elem_of_cons, ?elem_of_nil; naive_solver. }
  split; [exact ND|].
  exact (in_place_classifier_misses_promotions_only Examples.cascade ND).
Defined.

(** ** What a build makes of the graph *)

Section build_store.
Variable disk : Disk.
Implicit Types (e : Engine) (changedFiles : option (list string)).

Lemma untypedNode_setType n ty : untypedNode (setType n ty) = untypedNode n.
Proof. done. Qed.

Lemma untypedNode_freshNode (project : Project) q sf :
  untypedNode (freshNode project q sf) = freshNode project q sf.
Proof. done. Qed.

Lemma keys_applyTypes (types : gmap string ComponentType) (nodes : NodeStore) :
  keys (ComponentEnvGraph.applyTypes types nodes) = keys nodes.
Proof.
  unfold keys, ComponentEnvGraph.applyTypes. rewrite <-list_fmap_compose.
  apply list_fmap_ext. by intros i [k n].
Qed.

Lemma untyped_applyTypes (types : gmap string ComponentType)
    (nodes : NodeStore) :
  untyped (ComponentEnvGraph.applyTypes types nodes) = untyped nodes.
Proof.
  unfold untyped, ComponentEnvGraph.applyTypes. rewrite <-list_fmap_compose.
  apply list_fmap_ext. intros i [k n] _. cbn. by destruct (types !! k).
Qed.

Lemma computeComponentTypes_applyTypes (types : gmap string ComponentType)
    (nodes : NodeStore) :
  Classify.computeComponentTypes (ComponentEnvGraph.applyTypes types nodes)
  = Classify.computeComponentTypes nodes.
Proof.
  by rewrite <-computeComponentTypes_untyped, untyped_applyTypes,
             computeComponentTypes_untyped.
Qed.

Lemma computeComponentTypes_keys (nodes : NodeStore)
    (types : gmap string ComponentType) k :
  Classify.computeComponentTypes nodes = Some types →
  is_Some (types !! k) ↔ k ∈ keys nodes.
Proof.
  intros E.
  destruct (computeComponentTypes_steps nodes)
    as (cr & types' & _ & _ & E' & Hty).
  assert (types' = types) as -> by congruence.
  rewrite Hty, initNodeTypes_lookup. case_decide as HU.
  - apply universalSet_mixed in HU as [(n & Hn & _) _].
    split; [intros _; by eapply elem_of_keys | by eexists].
  - case_decide; [split; [done|by eexists]|].
    split; [by intros [? ?]|done].
Qed.

(** The parse set, the node store and the affected files that
    [updateProjectSourceFiles] leaves, path by path. *)
Lemma reconcile_spec (inScope exclude : string → bool) changedFiles
    (project : Project) (nodes : NodeStore) :
  let rc := reconcile disk inScope exclude changedFiles project nodes in
  (∀ q, rc.1.1 !! q =
        match ComponentEnvGraph.nonEmpty changedFiles with
        | Some l =>
            if decide (q ∈ l) then (if exclude q then None else disk !! q)
            else if decide (disk !! q = None) then None else project !! q
        | None =>
            match (if decide (disk !! q = None) then None else project !! q)
            with
            | Some sf => Some sf
            | None => if inScope q && negb (exclude q) then disk !! q else None
            end
        end) ∧
  (∀ q, nodes_get rc.1.2 q =
        match ComponentEnvGraph.nonEmpty changedFiles with
        | Some l =>
            if decide (q ∈ l ∧ exclude q = true) then None
            else if decide (is_Some (project !! q) ∧ disk !! q = None)
                 then None else nodes_get nodes q
        | None =>
            if decide (is_Some (project !! q) ∧ disk !! q = None)
            then None else nodes_get nodes q
        end) ∧
  (∀ q, q ∈ rc.2 ↔
        match ComponentEnvGraph.nonEmpty changedFiles with
        | Some l => q ∈ l ∧ exclude q = false
        | None => is_Some (rc.1.1 !! q)
        end).
Proof.
  unfold reconcile.
  destruct (removeDeletedFiles_spec disk project nodes) as [Hp0 Hn0].
  destruct (ComponentEnvGraph.nonEmpty changedFiles) as [l|]; cbn zeta.
  - destruct (refreshChangedFiles_spec disk exclude l
                (Files.removeDeletedFiles disk project nodes).1
                (Files.removeDeletedFiles disk project nodes).2 [])
      as (Ha & Hn & _).
    split_and!; intros q.
    + by rewrite refreshChangedFiles_project, Hp0.
    + by rewrite Hn, Hn0.
    + rewrite Ha, elem_of_nil. naive_solver.
  - cbn [fst snd]. split_and!; intros q.
    + unfold Files.addAllSourceFiles.
      by rewrite addSourceFilesAtPaths_lookup, Hp0.
    + apply Hn0.
    + rewrite markAllFilesAsAffected_elem_of, elem_of_nil. naive_solver.
Qed.


(** With the deletion pass after the additions or refreshes, the parse set
    and the affected files come out the same, and so does the node under
    every path that is not affected. *)
Lemma reconcileLast_reconcile (inScope exclude : string → bool) changedFiles
    (pr : Project) (ns : NodeStore) :
  let first := reconcile disk inScope exclude changedFiles pr ns in
  let last := reconcileLast disk inScope exclude changedFiles pr ns in
  first.1.1 = last.1.1 ∧ first.2 = last.2 ∧
  ∀ q, q ∉ first.2 → nodes_get first.1.2 q = nodes_get last.1.2 q.
Proof.
  intros first last. unfold first, last, reconcile, reconcileLast.
  clear first last.
  destruct (removeDeletedFiles_spec disk pr ns) as [Hp0 Hn0].
  destruct (ComponentEnvGraph.nonEmpty changedFiles) as [cs|]; cbn zeta.
  - pose proof (refreshChangedFiles_spec disk exclude cs pr ns [])
      as (_ & Hn1 & _).
    pose proof (refreshChangedFiles_project disk exclude cs pr ns []) as Hp1.
    pose proof (refreshChangedFiles_affected disk exclude cs pr ns []) as Ha1.
    destruct (refreshedFiles disk pr ns cs [] exclude) as [[p1 n1] a1].
    cbn [fst snd] in *.
    destruct (removeDeletedFiles_spec disk p1 n1) as [Hp2 Hn2].
    destruct (Files.removeDeletedFiles disk p1 n1) as [p2 n2].
    cbn [fst snd] in *.
    pose proof (refreshChangedFiles_spec disk exclude cs
                  (Files.removeDeletedFiles disk pr ns).1
                  (Files.removeDeletedFiles disk pr ns).2 [])
      as (Ha3 & Hn3 & _).
    pose proof (refreshChangedFiles_project disk exclude cs
                  (Files.removeDeletedFiles disk pr ns).1
                  (Files.removeDeletedFiles disk pr ns).2 [])
      as Hp3.
    split_and!.
    + apply map_eq. intros q. rewrite Hp3, Hp2, Hp1, Hp0.
      repeat case_decide; try done; destruct (exclude q); congruence.
    + by rewrite refreshChangedFiles_affected, Ha1.
    + intros q Hq. rewrite Hn3, Hn2, Hn1, Hn0, Hp1.
      assert (¬ (q ∈ cs ∧ exclude q = false)) as Hq'.
      { intros ?. apply Hq, Ha3. by right. }
      clear -Hq'. destruct (exclude q);
        repeat case_decide; try done; exfalso; naive_solver.
  - unfold Files.addAllSourceFiles. cbn [fst snd].
    set (sel := λ p, inScope p && negb (exclude p)).
    destruct (removeDeletedFiles_spec disk
                (TsMorph.addSourceFilesAtPaths disk sel pr) ns) as [Hp2 Hn2].
    assert (TsMorph.addSourceFilesAtPaths disk sel
              (Files.removeDeletedFiles disk pr ns).1
            = (Files.removeDeletedFiles disk
                 (TsMorph.addSourceFilesAtPaths disk sel pr) ns).1) as Heq.
    { apply map_eq. intros q.
      rewrite Hp2, !addSourceFilesAtPaths_lookup, Hp0.
      repeat case_decide; try done;
        destruct (pr !! q), (sel q); congruence. }
    rewrite Heq. split_and!; [done..|].
    intros q _. rewrite Hn2, Hn0, addSourceFilesAtPaths_lookup.
    clear. destruct (decide (is_Some (pr !! q) ∧ disk !! q = None))
      as [[[sf Hsf] Hd]|Hno].
    + rewrite decide_True; [done|]. rewrite Hsf. split; [by eexists|done].
    + rewrite decide_False; [done|]. intros [Hs Hd]. apply Hno.
      split; [|done]. destruct (pr !! q); [by eexists|].
      rewrite Hd in Hs. destruct (sel q); by destruct Hs.
Qed.

(** The store the classifier is given: a fresh extraction under an
    affected path, the node that was there under any other. *)
Lemma storeToClassify_lookup (r : Project * NodeStore * list string) q :
  nodes_get (storeToClassify r) q
  = if decide (q ∈ r.2) then freshNode r.1.1 q <$> r.1.1 !! q
    else nodes_get r.1.2 q.
Proof. apply updateFileNodes_loop. Qed.

Lemma storeToClassify_reconcileLast (inScope exclude : string → bool)
    changedFiles (pr : Project) (ns : NodeStore) q :
  nodes_get (storeToClassify
               (reconcileLast disk inScope exclude changedFiles pr ns)) q
  = nodes_get (storeToClassify
                 (reconcile disk inScope exclude changedFiles pr ns)) q.
Proof.
  destruct (reconcileLast_reconcile inScope exclude changedFiles pr ns)
    as (Hp & Ha & Hn).
  rewrite !storeToClassify_lookup, <-Hp, <-Ha.
  case_decide; [done|]. symmetry. by apply Hn.
Qed.

Lemma typed_store_lookup (types : gmap string ComponentType)
    (r : Project * NodeStore * list string) q :
  untypedNode <$> nodes_get (ComponentEnvGraph.applyTypes types
                               (storeToClassify r)) q
  = if decide (q ∈ r.2) then freshNode r.1.1 q <$> r.1.1 !! q
    else untypedNode <$> nodes_get r.1.2 q.
Proof.
  rewrite nodes_get_applyTypes, storeToClassify_lookup,
    <-option_fmap_compose.
  case_decide.
  - rewrite <-option_fmap_compose. apply option_fmap_ext.
    intros sf. cbn. by destruct (types !! q).
  - apply option_fmap_ext. intros n. cbn. by destruct (types !! q).
Qed.

(** The types written into a store are its classification, and every node
    has one. *)
Lemma applyTypes_typed (ns : NodeStore) (types : gmap string ComponentType) :
  Classify.computeComponentTypes ns = Some types →
  Classify.computeComponentTypes (ComponentEnvGraph.applyTypes types ns)
    = Some types ∧
  ∀ k n, (k, n) ∈ ComponentEnvGraph.applyTypes types ns →
         type n = types !! k ∧ is_Some (type n).
Proof.
  intros E. rewrite computeComponentTypes_applyTypes. split; [done|].
  intros k n Hin. unfold ComponentEnvGraph.applyTypes in Hin.
  apply list_elem_of_fmap in Hin as ([k' m] & [= -> ->] & Hin).
  assert (is_Some (types !! k')) as [ty Hty].
  { apply (computeComponentTypes_keys _ _ _ E). by eapply elem_of_keys. }
  rewrite Hty. cbn. split; [done|by eexists].
Qed.

(** From what [updateProjectSourceFiles] leaves to the state the listeners
    are notified in. *)
Lemma classified_store (fs : list string) e
    (r : Project * NodeStore * list string) :
  project e = r.1.1 → nodes e = r.1.2 → fs = r.2 →
  ∃ (types : gmap string ComponentType) g,
    Classify.computeComponentTypes (storeToClassify r) = Some types ∧
    classified fs e = Some g ∧
    ComponentEnvGraph.update fs e = fireDidUpdate g ∧
    nodes g = ComponentEnvGraph.applyTypes types (storeToClassify r) ∧
    project g = r.1.1 ∧
    listeners g = listeners e ∧
    isGlobExcluded g = isGlobExcluded e ∧
    inScope g = inScope e.
Proof.
  intros Hp Hn ->.
  destruct (classified_total r.2 e)
    as (types & g & E & Hg & Hu & Hng & Hpg & _ & Hl & Hx & Hs).
  assert (nodes (ComponentEnvGraph.updateFileNodes r.2 e) = storeToClassify r)
    as Heq.
  { unfold ComponentEnvGraph.updateFileNodes, storeToClassify, updateNodes.
    cbn [nodes withGraph]. by rewrite Hp, Hn. }
  rewrite Heq in E, Hng.
  exists types, g. split_and!; try done. by rewrite Hpg.
Qed.

(** The revision with the regular expression: an incremental build gets
    through its refresh. *)
Lemma previous_updateProjectSourceFiles_incremental c cs e :
  let rl := reconcileLast disk (inScope e) Constants.EXCLUDES
              (Some (c :: cs)) (project e) (nodes e) in
  ∃ e1,
    Previous.updateProjectSourceFiles disk (Some (c :: cs)) e
      = Normal (e1, rl.2) ∧
    project e1 = rl.1.1 ∧ nodes e1 = rl.1.2 ∧
    listeners e1 = listeners e ∧ isGlobExcluded e1 = isGlobExcluded e ∧
    inScope e1 = inScope e.
Proof.
  intros rl. unfold rl, reconcileLast,
    Previous.updateProjectSourceFiles, Previous.refreshChangedFiles.
  cbn [ComponentEnvGraph.nonEmpty]. cbv zeta.
  rewrite refreshChangedFiles_RegExp. unfold ComponentEnvGraph.refreshed.
  destruct (refreshedFiles disk (project e) (nodes e) (c :: cs) []
              Constants.EXCLUDES) as [[p1 n1] a1].
  unfold ComponentEnvGraph.removeDeletedFiles.
  cbn [fst snd project nodes withGraph].
  destruct (Files.removeDeletedFiles disk p1 n1) as [p2 n2].
  eexists. split; [done|]. by split_and!.
Qed.

Lemma previous_updateProjectSourceFiles_full_scan changedFiles e :
  ComponentEnvGraph.nonEmpty changedFiles = None →
  let rl := reconcileLast disk (inScope e) (isGlobExcluded e)
              changedFiles (project e) (nodes e) in
  ∃ e1,
    Previous.updateProjectSourceFiles disk changedFiles e
      = Normal (e1, rl.2) ∧
    project e1 = rl.1.1 ∧ nodes e1 = rl.1.2 ∧
    listeners e1 = listeners e ∧ isGlobExcluded e1 = isGlobExcluded e ∧
    inScope e1 = inScope e.
Proof.
  intros Hfull rl. unfold rl, reconcileLast,
    Previous.updateProjectSourceFiles.
  rewrite Hfull. cbv zeta.
  unfold ComponentEnvGraph.addAllSourceFiles,
    ComponentEnvGraph.removeDeletedFiles,
    ComponentEnvGraph.markAllFilesAsAffected.
  cbn [fst snd project nodes withGraph inScope isGlobExcluded].
  destruct (Files.removeDeletedFiles disk
              (Files.addAllSourceFiles disk (inScope e) (isGlobExcluded e)
                 (project e)) (nodes e)) as [p2 n2].
  eexists. split; [done|]. by split_and!.
Qed.

Lemma previousUpdate_store changedFiles e
    (rl : Project * NodeStore * list string) e1 :
  Previous.updateProjectSourceFiles disk changedFiles e = Normal (e1, rl.2) →
  project e1 = rl.1.1 → nodes e1 = rl.1.2 →
  ∃ (types : gmap string ComponentType) g,
    Classify.computeComponentTypes (storeToClassify rl) = Some types ∧
    previousUpdate disk changedFiles e = Some g ∧
    Previous.build disk changedFiles e = fireDidUpdate g ∧
    nodes g = ComponentEnvGraph.applyTypes types (storeToClassify rl) ∧
    project g = rl.1.1 ∧
    listeners g = listeners e1 ∧
    isGlobExcluded g = isGlobExcluded e1 ∧
    inScope g = inScope e1.
Proof.
  intros Hu Hp Hn. unfold previousUpdate, Previous.build. rewrite Hu.
  by apply classified_store.
Qed.

End build_store.
(** ** The store after a build, path by path *)

Section build_paths.
Variable disk : Disk.
Implicit Types (e : Engine) (changedFiles : option (list string))
  (nodes : NodeStore).

Lemma NoDup_keys_delete nodes p :
  NoDup (keys nodes) → NoDup (keys (nodes_delete nodes p)).
Proof.
  intros ND. eapply sublist_NoDup; [exact ND|]. unfold keys, nodes_delete.
  apply fmap_sublist, sublist_filter.
Qed.

Lemma elem_of_keys_set nodes k n x :
  x ∈ keys (nodes_set nodes k n) ↔ x ∈ keys nodes ∨ x = k.
Proof.
  rewrite <-!nodes_get_is_Some, nodes_get_set.
  case_decide; subst; [|naive_solver].
  split; [by right | by eexists].
Qed.

Lemma NoDup_keys_set nodes k n :
  NoDup (keys nodes) → NoDup (keys (nodes_set nodes k n)).
Proof.
  induction nodes as [|[k' m] rest IH]; cbn [nodes_set].
  - intros _. unfold keys. cbn. apply NoDup_singleton.
  - unfold keys in *. destruct (decide (k' = k)) as [->|Hne]; [done|].
    rewrite !fmap_cons, !NoDup_cons. cbn [fst]. intros [Hk ND].
    split; [|by apply IH].
    intros [Hin|Heq]%elem_of_keys_set; [done|]. by subst.
Qed.

Lemma NoDup_keys_updateNodes (project : Project) l : ∀ nodes,
  NoDup (keys nodes) → NoDup (keys (updateNodes project l nodes)).
Proof.
  unfold updateNodes. induction l as [|a l IH]; intros nodes ND; cbn [foldl];
    [done|].
  apply IH. destruct (project !! a);
    [by apply NoDup_keys_set | by apply NoDup_keys_delete].
Qed.

(** Both passes of the reconciler only delete from the node store. *)
Lemma removeDeletedFiles_nodes_ind (P : NodeStore → Prop)
    (project : Project) nodes :
  (∀ nodes p, P nodes → P (nodes_delete nodes p)) →
  P nodes → P (Files.removeDeletedFiles disk project nodes).2.
Proof.
  intros Hdel. unfold Files.removeDeletedFiles.
  generalize (TsMorph.getSourceFiles project). intros l.
  revert project nodes. induction l as [|a l IH]; intros project nodes HP;
    cbn [foldl]; [done|].
  destruct (TsMorph.existsSync disk a); apply IH; [done|by apply Hdel].
Qed.

Lemma refreshChangedFiles_nodes_ind (P : NodeStore → Prop)
    (excludes : string → bool) l : ∀ (project : Project) nodes affectedFiles,
  (∀ nodes p, P nodes → P (nodes_delete nodes p)) →
  P nodes →
  P (refreshedFiles disk project nodes l affectedFiles excludes).1.2.
Proof.
  unfold refreshedFiles.
  induction l as [|a l IH]; intros project nodes affectedFiles Hdel HP;
    cbn [foldl]; [done|].
  unfold Files.refreshChangedFilesStep at 2.
  destruct (excludes a); apply IH; try done. by apply Hdel.
Qed.

Lemma reconcile_nodes_ind (P : NodeStore → Prop)
    (inScope exclude : string → bool) changedFiles (project : Project) nodes :
  (∀ nodes p, P nodes → P (nodes_delete nodes p)) →
  P nodes →
  P (reconcile disk inScope exclude changedFiles project nodes).1.2.
Proof.
  intros Hdel HP. unfold reconcile.
  destruct (ComponentEnvGraph.nonEmpty changedFiles); cbn zeta.
  - apply refreshChangedFiles_nodes_ind; [done|].
    by apply removeDeletedFiles_nodes_ind.
  - cbn [fst snd]. by apply removeDeletedFiles_nodes_ind.
Qed.

Lemma reconcile_on_disk (inScope exclude : string → bool) changedFiles
    (project : Project) nodes q :
  is_Some ((reconcile disk inScope exclude changedFiles project nodes).1.1 !! q)
  → is_Some (disk !! q).
Proof.
  destruct (reconcile_spec disk inScope exclude changedFiles project nodes)
    as (Hp & _). rewrite Hp.
  destruct (ComponentEnvGraph.nonEmpty changedFiles).
  - repeat case_decide; try done; [by destruct (exclude q)|].
    intros _. by apply not_eq_None_Some.
  - case_decide as Hd; [|intros _; by apply not_eq_None_Some].
    by destruct (inScope q && negb (exclude q)).
Qed.

Lemma reconcileLast_nodes_ind (P : NodeStore → Prop)
    (inScope exclude : string → bool) changedFiles (project : Project) nodes :
  (∀ nodes p, P nodes → P (nodes_delete nodes p)) →
  P nodes →
  P (reconcileLast disk inScope exclude changedFiles project nodes).1.2.
Proof.
  intros Hdel HP. unfold reconcileLast.
  destruct (ComponentEnvGraph.nonEmpty changedFiles); cbn zeta; cbn [fst snd].
  - apply removeDeletedFiles_nodes_ind; [done|].
    by apply refreshChangedFiles_nodes_ind.
  - by apply removeDeletedFiles_nodes_ind.
Qed.

Lemma nonEmpty_Some (l : list string) :
  l ≠ [] → ComponentEnvGraph.nonEmpty (Some l) = Some l.
Proof. by destruct l. Qed.

Lemma typed_store_types (ns : NodeStore) (types : gmap string ComponentType) :
  Classify.computeComponentTypes ns = Some types →
  ∀ q n, nodes_get (ComponentEnvGraph.applyTypes types ns) q = Some n →
         type n = types !! q.
Proof.
  intros E q n. rewrite nodes_get_applyTypes.
  destruct (nodes_get ns q) as [m|] eqn:Hm; [|done].
  assert (is_Some (types !! q)) as [ty Hty].
  { apply (computeComponentTypes_keys _ _ _ E), nodes_get_is_Some. eauto. }
  rewrite Hty. by intros [= <-].
Qed.

(** A full scan, path by path: the parse set it leaves, and the nodes in
    the state the listeners are notified in.  Every file left registered
    has a fresh node. *)
Lemma full_scan_pointwise changedFiles e :
  ComponentEnvGraph.nonEmpty changedFiles = None →
  ∃ (types : gmap string ComponentType) g,
    graphUpdate disk changedFiles e = Some g ∧
    ComponentEnvGraph.build disk changedFiles e = fireDidUpdate g ∧
    Classify.computeComponentTypes (nodes g) = Some types ∧
    (∀ q n, nodes_get (nodes g) q = Some n → type n = types !! q) ∧
    (∀ q, project g !! q
          = match (if decide (disk !! q = None) then None
                   else project e !! q) with
            | Some sf => Some sf
            | None => if inScope e q && negb (isGlobExcluded e q)
                      then disk !! q else None
            end) ∧
    (∀ q, untypedNode <$> nodes_get (nodes g) q
          = match project g !! q with
            | Some sf => Some (freshNode (project g) q sf)
            | None =>
                if decide (is_Some (project e !! q) ∧ disk !! q = None)
                then None else untypedNode <$> nodes_get (nodes e) q
            end) ∧
    (NoDup (keys (nodes e)) → NoDup (keys (nodes g))).
Proof.
  intros Hfull.
  destruct (graphUpdate_full_scan disk changedFiles e Hfull)
    as (types & g & E & Hg & Hn & Hp & _).
  destruct (reconcile_spec disk (inScope e) (isGlobExcluded e) changedFiles
              (project e) (nodes e)) as (Hrp & Hrn & Hra).
  rewrite Hfull in Hrp, Hrn, Hra.
  set (rc := reconcile disk (inScope e) (isGlobExcluded e) changedFiles
               (project e) (nodes e)) in *.
  destruct (applyTypes_typed _ _ E) as [E' _].
  exists types, g. split_and!.
  - done.
  - by apply build_graphUpdate.
  - by rewrite Hn.
  - rewrite Hn. by apply typed_store_types.
  - intros q. by rewrite Hp, Hrp.
  - intros q. rewrite Hn, Hp, typed_store_lookup.
    case_decide as Haff.
    + apply Hra in Haff as [sf Hsf]. by rewrite Hsf.
    + rewrite Hra in Haff. apply eq_None_not_Some in Haff.
      rewrite Haff, Hrn. by case_decide.
  - intros ND. rewrite Hn, keys_applyTypes.
    apply NoDup_keys_updateNodes.
    apply (reconcile_nodes_ind (λ ns, NoDup (keys ns))); [|done].
    intros ns p. apply NoDup_keys_delete.
Qed.

(** An incremental build of the revision with the regular expression, path
    by path. *)
Lemma previous_incremental_pointwise (l : list string) e :
  l ≠ [] →
  ∃ (types : gmap string ComponentType) g,
    previousUpdate disk (Some l) e = Some g ∧
    Previous.build disk (Some l) e = fireDidUpdate g ∧
    Classify.computeComponentTypes (nodes g) = Some types ∧
    (∀ q n, nodes_get (nodes g) q = Some n → type n = types !! q) ∧
    (∀ q, project g !! q
          = if decide (q ∈ l)
            then (if Constants.EXCLUDES q then None else disk !! q)
            else if decide (disk !! q = None) then None
                 else project e !! q) ∧
    (∀ q, untypedNode <$> nodes_get (nodes g) q
          = if decide (q ∈ l)
            then (if Constants.EXCLUDES q then None
                  else freshNode (project g) q <$> disk !! q)
            else if decide (is_Some (project e !! q) ∧ disk !! q = None)
                 then None else untypedNode <$> nodes_get (nodes e) q) ∧
    (NoDup (keys (nodes e)) → NoDup (keys (nodes g))).
Proof.
  intros Hne. destruct l as [|c cs]; [done|].
  destruct (previous_updateProjectSourceFiles_incremental disk c cs e)
    as (e1 & Hu & Hp1 & Hn1 & _).
  destruct (previousUpdate_store disk _ e _ e1 Hu Hp1 Hn1)
    as (types & g & E & Hg & Hb & Hn & Hp & _).
  destruct (reconcile_spec disk (inScope e) Constants.EXCLUDES
              (Some (c :: cs)) (project e) (nodes e)) as (Hrp & Hrn & Hra).
  destruct (reconcileLast_reconcile disk (inScope e) Constants.EXCLUDES
              (Some (c :: cs)) (project e) (nodes e)) as (Hpl & _ & _).
  cbn [ComponentEnvGraph.nonEmpty] in Hrp, Hrn, Hra.
  set (rl := reconcileLast disk (inScope e) Constants.EXCLUDES
               (Some (c :: cs)) (project e) (nodes e)) in *.
  set (rc := reconcile disk (inScope e) Constants.EXCLUDES
               (Some (c :: cs)) (project e) (nodes e)) in *.
  destruct (applyTypes_typed _ _ E) as [E' _].
  exists types, g. split_and!.
  - done.
  - done.
  - by rewrite Hn.
  - rewrite Hn. by apply typed_store_types.
  - intros q. by rewrite Hp, <-Hpl, Hrp.
  - intros q.
    rewrite Hn, nodes_get_applyTypes.
    unfold rl. rewrite storeToClassify_reconcileLast. fold rc.
    rewrite <-nodes_get_applyTypes, typed_store_lookup.
    destruct (decide (q ∈ c :: cs)) as [Hq|Hq].
    + destruct (Constants.EXCLUDES q) eqn:Hx.
      * rewrite decide_False by (rewrite Hra; intros [_ ?]; congruence).
        by rewrite Hrn, decide_True.
      * rewrite decide_True by (by apply Hra).
        by rewrite Hp, <-Hpl, Hrp, decide_True, Hx.
    + rewrite decide_False by (rewrite Hra; by intros [? _]).
      rewrite Hrn, decide_False by (by intros [? _]).
      by case_decide.
  - intros ND. rewrite Hn, keys_applyTypes.
    apply NoDup_keys_updateNodes.
    apply (reconcileLast_nodes_ind (λ ns, NoDup (keys ns))); [|done].
    intros ns p. apply NoDup_keys_delete.
Qed.

End build_paths.

(** The revision with the regular expression does what [index.ts]
    attempts for a changed path that is not excluded and is gone from disk:
    the path is among the affected files, and it has no node when the
    listeners are called. *)
Lemma previous_deleted_changed_path_is_evicted (disk : Disk)
    (changedFiles : list string) (e : Engine) (p : string) :
  p ∈ changedFiles →
  Constants.EXCLUDES p = false →
  disk !! p = None →
  ∃ e1 filesToUpdate g,
    Previous.updateProjectSourceFiles disk (Some changedFiles) e
      = Normal (e1, filesToUpdate) ∧
    p ∈ filesToUpdate ∧
    previousUpdate disk (Some changedFiles) e = Some g ∧
    Previous.build disk (Some changedFiles) e = fireDidUpdate g ∧
    project g !! p = None ∧
    nodes_get (nodes g) p = None.
Proof.
  intros Hp Hx Hd.
  assert (changedFiles ≠ []) as Hne
    by (intros ->; by apply elem_of_nil in Hp).
  destruct (previous_incremental_pointwise disk changedFiles e Hne)
    as (types & g & Hg & Hb & _ & _ & Hpg & Hpt & _).
  destruct changedFiles as [|c cs]; [done|].
  destruct (previous_updateProjectSourceFiles_incremental disk c cs e)
    as (e1 & Hu & _).
  destruct (reconcileLast_reconcile disk (inScope e) Constants.EXCLUDES
              (Some (c :: cs)) (project e) (nodes e)) as (_ & Ha & _).
  destruct (reconcile_spec disk (inScope e) Constants.EXCLUDES
              (Some (c :: cs)) (project e) (nodes e)) as (_ & _ & Hra).
  cbn [ComponentEnvGraph.nonEmpty] in Hra.
  eexists e1, _, g. split_and!; [exact Hu| |done|done|..].
  - rewrite <-Ha. by apply Hra.
  - by rewrite Hpg, decide_True, Hx.
  - specialize (Hpt p). rewrite decide_True, Hx, Hd in Hpt by done.
    by destruct (nodes_get (nodes g) p).
Qed.

Lemma construct_consistent (disk : Disk)
    (tsConfigFiles inScope exclude : string → bool) :
  consistent (construct disk tsConfigFiles inScope exclude).
Proof. split; [apply NoDup_nil_2|]. by intros q n. Qed.

(** X9.  When a full scan has updated the graph and [build] calls the
    listeners, every node carries a type, and the types the store holds
    are the classification of the store as it is then: running the
    classifier on these nodes gives back, for each node, the type it
    carries. *)
Theorem full_scan_stores_the_classification (disk : Disk)
    (changedFiles : option (list string)) (e : Engine) :
  ComponentEnvGraph.nonEmpty changedFiles = None →
  ∃ g types,
    graphUpdate disk changedFiles e = Some g ∧
    ComponentEnvGraph.build disk changedFiles e = fireDidUpdate g ∧
    Classify.computeComponentTypes (nodes g) = Some types ∧
    ∀ k n, (k, n) ∈ nodes g → type n = types !! k ∧ is_Some (type n).
Proof.
  intros Hfull.
  destruct (graphUpdate_full_scan disk changedFiles e Hfull)
    as (types & g & E & Hg & Hn & _).
  destruct (applyTypes_typed _ _ E) as [E' Hty].
  exists g, types. split_and!; [done|by apply build_graphUpdate|..].
  all: by rewrite Hn.
Qed.

Lemma full_scan_stores_the_classification_witness :
  ComponentEnvGraph.nonEmpty None = None ∧
  ∃ g types,
    graphUpdate Examples.storiesDisk None Examples.storiesEngine = Some g ∧
    ComponentEnvGraph.build Examples.storiesDisk None Examples.storiesEngine
      = fireDidUpdate g ∧
    Classify.computeComponentTypes (nodes g) = Some types ∧
    ∀ k n, (k, n) ∈ nodes g → type n = types !! k ∧ is_Some (type n).
Proof.
  split; [reflexivity|].
  exact (full_scan_stores_the_classification Examples.storiesDisk None
           Examples.storiesEngine eq_refl).
Defined.

(** ** The node store and the parse set stay consistent *)

(** X10.  A full scan keeps the node store consistent with the parse set.
    An engine is consistent when its node store has no duplicate key and
    every node is stored under its own path and carries the client mark of
    the source file registered under that path.  The constructor gives such
    an engine; a full scan turns a consistent engine into one that is
    consistent when the listeners are called, and the files it leaves
    registered, and so the nodes, all exist on disk. *)
Theorem full_scan_keeps_engine_consistent (disk : Disk)
    (changedFiles : option (list string)) (e : Engine) :
  ComponentEnvGraph.nonEmpty changedFiles = None →
  consistent e →
  ∃ g,
    graphUpdate disk changedFiles e = Some g ∧
    ComponentEnvGraph.build disk changedFiles e = fireDidUpdate g ∧
    consistent g ∧
    (∀ q, is_Some (project g !! q) → is_Some (disk !! q)) ∧
    (∀ q, is_Some (nodes_get (nodes g) q) → is_Some (disk !! q)).
Proof.
  intros Hfull [ND Hc].
  destruct (full_scan_pointwise disk changedFiles e Hfull)
    as (types & g & Hg & Hb & _ & _ & Hp & Hpt & HND).
  assert (∀ q, is_Some (project g !! q) → is_Some (disk !! q)) as Hdisk.
  { intros q. rewrite Hp. case_decide as Hd.
    - by destruct (inScope e q && negb (isGlobExcluded e q)).
    - intros _. by apply not_eq_None_Some. }
  assert (∀ q n, nodes_get (nodes g) q = Some n →
                 filePath n = q ∧
                 ∃ sf, project g !! q = Some sf ∧
                       isClient n = Analyze.hasUseClientDirective sf) as Hc'.
  { intros q n Hq. specialize (Hpt q). rewrite Hq in Hpt.
    destruct (project g !! q) as [sf|] eqn:Hsf.
    - change (Some (untypedNode n) = Some (freshNode (project g) q sf)) in Hpt.
      apply (inj Some) in Hpt. unfold untypedNode, freshNode in Hpt.
      injection Hpt as Hf Hcl _. split; [done|]. by exists sf.
    - exfalso. case_decide as Hgone; [done|].
      destruct (nodes_get (nodes e) q) as [m|] eqn:Hm; [|done].
      destruct (Hc q m Hm) as (_ & sf & Hsf' & _).
      rewrite Hp, Hsf' in Hsf. case_decide as Hd; [|done].
      apply Hgone. split; [by eexists|done]. }
  exists g. split_and!; [done|done|by split; [apply HND|]|done|].
  intros q [n Hn]. apply Hdisk.
  destruct (Hc' q n Hn) as (_ & sf & Hsf & _). by eexists.
Qed.

Lemma full_scan_keeps_engine_consistent_witness :
  ComponentEnvGraph.nonEmpty None = None ∧
  consistent Examples.storiesEngine ∧
  ∃ g,
    graphUpdate Examples.storiesDisk None Examples.storiesEngine = Some g ∧
    ComponentEnvGraph.build Examples.storiesDisk None Examples.storiesEngine
      = fireDidUpdate g ∧
    consistent g ∧
    (∀ q, is_Some (project g !! q) → is_Some (Examples.storiesDisk !! q)) ∧
    (∀ q, is_Some (nodes_get (nodes g) q) →
          is_Some (Examples.storiesDisk !! q)).
Proof.
  assert (consistent Examples.storiesEngine) as Hs
    by apply construct_consistent.
  split; [reflexivity|]. split; [exact Hs|].
  exact (full_scan_keeps_engine_consistent Examples.storiesDisk None
           Examples.storiesEngine eq_refl Hs).
Defined.

(** ** What a build does to one path *)



(** X12.  An incremental build of that revision is local.  For a path that
    is not among the changed files, the parse set keeps its entry and the
    node store keeps its node (path, client mark and imports; the type may
    change, since the classification is of the whole graph), except that
    both drop a registered file that no longer exists on disk. *)
Theorem incremental_build_is_local (disk : Disk) (changedFiles : list string)
    (e : Engine) (q : string) :
  changedFiles ≠ [] →
  q ∉ changedFiles →
  ∃ g,
    previousUpdate disk (Some changedFiles) e = Some g ∧
    Previous.build disk (Some changedFiles) e = fireDidUpdate g ∧
    project g !! q
    = (if decide (disk !! q = None) then None else project e !! q) ∧
    untypedNode <$> nodes_get (nodes g) q
    = (if decide (is_Some (project e !! q) ∧ disk !! q = None) then None
       else untypedNode <$> nodes_get (nodes e) q).
Proof.
  intros Hne Hq.
  destruct (previous_incremental_pointwise disk changedFiles e Hne)
    as (types & g & Hg & Hb & _ & _ & Hp & Hpt & _).
  exists g. split_and!; [done|done|..].
  - by rewrite Hp, decide_False.
  - by rewrite Hpt, decide_False.
Qed.

Lemma incremental_build_is_local_witness :
  ["/app/a.tsx"] ≠ [] ∧ ("/app/shared.tsx" ∉ ["/app/a.tsx"]) ∧
  ∃ g,
    previousUpdate Examples.storiesDisk (Some ["/app/a.tsx"])
      Examples.sharedEngine = Some g ∧
    Previous.build Examples.storiesDisk (Some ["/app/a.tsx"])
      Examples.sharedEngine = fireDidUpdate g ∧
    project g !! "/app/shared.tsx"
    = (if decide (Examples.storiesDisk !! "/app/shared.tsx" = None) then None
       else project Examples.sharedEngine !! "/app/shared.tsx") ∧
    untypedNode <$> nodes_get (nodes g) "/app/shared.tsx"
    = (if decide (is_Some (project Examples.sharedEngine !! "/app/shared.tsx")
                  ∧ Examples.storiesDisk !! "/app/shared.tsx" = None)
       then None
       else untypedNode <$>
              nodes_get (nodes Examples.sharedEngine) "/app/shared.tsx").
Proof.
  assert (["/app/a.tsx"] ≠ []) as Hne by done.
  assert ("/app/shared.tsx" ∉ ["/app/a.tsx"]) as Hq.
  { intros [?|H]%elem_of_cons; [done|]. exact (not_elem_of_nil _ H). }
  split; [exact Hne|]. split; [exact Hq|].
  exact (incremental_build_is_local Examples.storiesDisk ["/app/a.tsx"]
           Examples.sharedEngine "/app/shared.tsx" Hne Hq).
Defined.



(** X14.  A file that starts with the directive is a client component.  When
    a full scan has updated the graph, the node of every registered file for
    which [hasUseClientDirective] holds is typed client, whatever imports
    it. *)
Theorem use_client_file_is_client (disk : Disk)
    (changedFiles : option (list string)) (e : Engine) :
  ComponentEnvGraph.nonEmpty changedFiles = None →
  NoDup (keys (nodes e)) →
  ∃ g,
    graphUpdate disk changedFiles e = Some g ∧
    ComponentEnvGraph.build disk changedFiles e = fireDidUpdate g ∧
    ∀ q sf,
      project g !! q = Some sf →
      Analyze.hasUseClientDirective sf = true →
      ∃ n, nodes_get (nodes g) q = Some n ∧ type n = Some client.
Proof.
  intros Hfull ND0.
  destruct (full_scan_pointwise disk changedFiles e Hfull)
    as (types & g & Hg & Hb & E & Hty & _ & Hpt & HND).
  specialize (HND ND0).
  exists g. split_and!; [done..|]. intros q sf Hsf Hdir.
  specialize (Hpt q). rewrite Hsf in Hpt.
  destruct (nodes_get (nodes g) q) as [n|] eqn:Hn; [|done].
  change (Some (untypedNode n) = Some (freshNode (project g) q sf)) in Hpt.
  apply (inj Some) in Hpt. unfold untypedNode, freshNode in Hpt.
  injection Hpt as Hf Hcl _.
  exists n. split; [done|]. rewrite (Hty q n Hn).
  destruct (classification_closed_form (nodes g) HND) as (types' & E' & Hcf).
  assert (types' = types) as -> by congruence.
  apply (Hcf q). split_and!.
  - apply nodes_get_is_Some. eauto.
  - exists q. split; [|done]. apply getClientEntries_elem_of.
    exists q, n. split_and!; [by apply nodes_get_elem_of|congruence|done].
  - intros [(n' & Hn' & Hc') _]. congruence.
Qed.

Lemma use_client_file_is_client_witness :
  ComponentEnvGraph.nonEmpty None = None ∧
  NoDup (keys (nodes Examples.emptyEngine)) ∧
  ∃ g,
    graphUpdate Examples.chainDisk None Examples.emptyEngine = Some g ∧
    ComponentEnvGraph.build Examples.chainDisk None Examples.emptyEngine
      = fireDidUpdate g ∧
    ∀ q sf,
      project g !! q = Some sf →
      Analyze.hasUseClientDirective sf = true →
      ∃ n, nodes_get (nodes g) q = Some n ∧ type n = Some client.
Proof.
  assert (NoDup (keys (nodes Examples.emptyEngine))) as ND
    by apply NoDup_nil_2.
  split; [reflexivity|]. split; [exact ND|].
  exact (use_client_file_is_client Examples.chainDisk None
           Examples.emptyEngine eq_refl ND).
Defined.

(** ** Building twice *)

Section rebuild.
Variable disk : Disk.
Implicit Types (e : Engine) (nodes : NodeStore) (project : Project).

Lemma nodes_delete_absent nodes p :
  nodes_get nodes p = None → nodes_delete nodes p = nodes.
Proof.
  rewrite nodes_get_None. unfold nodes_delete, keys.
  induction nodes as [|[k n] rest IH]; [done|].
  rewrite fmap_cons, not_elem_of_cons. cbn [fst]. intros [Hne Hrest].
  rewrite filter_cons_True by (cbn; congruence). by rewrite IH.
Qed.

Lemma untyped_nodes_set_same nodes k m n :
  nodes_get nodes k = Some m → untypedNode m = untypedNode n →
  untyped (nodes_set nodes k n) = untyped nodes.
Proof.
  intros Hm Hmn. unfold untyped.
  induction nodes as [|[k' m'] rest IH]; [done|].
  cbn [nodes_get nodes_set] in *. destruct (decide (k' = k)) as [->|Hne].
  - injection Hm as ->. rewrite !fmap_cons. by rewrite Hmn.
  - rewrite !fmap_cons. by rewrite IH.
Qed.

(** [updateFileNodes] on a store that already holds the extraction of every
    affected file leaves the store as it is, up to the types. *)
Lemma updateNodes_untyped_id project l : ∀ nodes,
  (∀ q, q ∈ l →
        nodes_get (untyped nodes) q = freshNode project q <$> project !! q) →
  untyped (updateNodes project l nodes) = untyped nodes.
Proof.
  unfold updateNodes. induction l as [|a l IH]; intros nodes Hl; cbn [foldl];
    [done|].
  assert (untyped (match project !! a with
                   | Some sf => nodes_set nodes a (freshNode project a sf)
                   | None => nodes_delete nodes a
                   end) = untyped nodes) as Hstep.
  { pose proof (Hl a (list_elem_of_here _ _)) as Ha.
    rewrite nodes_get_untyped in Ha.
    destruct (project !! a) as [sf|]; cbn in Ha.
    - destruct (nodes_get nodes a) as [m|] eqn:Hm; [|done].
      cbn in Ha. injection Ha as Hf Hc Hi.
      apply (untyped_nodes_set_same _ _ m); [done|].
      unfold untypedNode, freshNode. cbn. by rewrite Hf, Hc, Hi.
    - destruct (nodes_get nodes a) as [m|] eqn:Hm; [done|].
      by rewrite nodes_delete_absent. }
  destruct (project !! a); (rewrite IH; [done|]);
    intros q Hq; rewrite Hstep; apply Hl; by right.
Qed.

Lemma applyTypes_untyped_ext (types : gmap string ComponentType) :
  ∀ nodes nodes',
    untyped nodes = untyped nodes' →
    (∀ k, k ∈ keys nodes → is_Some (types !! k)) →
    ComponentEnvGraph.applyTypes types nodes
    = ComponentEnvGraph.applyTypes types nodes'.
Proof.
  unfold untyped, ComponentEnvGraph.applyTypes, keys. intros ns.
  induction ns as [|[k n] rest IH]; intros [|[k' n'] rest'] Hu Hk;
    try done.
  rewrite !fmap_cons in Hu. injection Hu as -> Hf Hc Hi Hrest.
  rewrite !fmap_cons. f_equal.
  - destruct (Hk k') as [ty ->]; [rewrite fmap_cons; left|].
    unfold setType. by rewrite Hf, Hc, Hi.
  - apply IH; [done|]. intros k Hin. apply Hk. rewrite fmap_cons. by right.
Qed.

Lemma removeDeletedFiles_id project nodes :
  (∀ q, is_Some (project !! q) → is_Some (disk !! q)) →
  Files.removeDeletedFiles disk project nodes = (project, nodes).
Proof.
  intros Hd. unfold Files.removeDeletedFiles.
  assert (∀ p, p ∈ TsMorph.getSourceFiles project →
               TsMorph.existsSync disk p = true) as Hl.
  { intros p Hp%getSourceFiles_elem_of. unfold TsMorph.existsSync.
    apply bool_decide_eq_true. by apply Hd. }
  revert Hl. generalize (TsMorph.getSourceFiles project). intros l.
  generalize project as pr. generalize nodes as ns.
  induction l as [|a l IH]; intros ns pr Hl; cbn [foldl]; [done|].
  rewrite (Hl a) by left. apply IH. intros p Hp. apply Hl. by right.
Qed.

Lemma refreshChangedFiles_nodes (excludes : string → bool) l :
  ∀ project nodes affectedFiles,
    (∀ c, c ∈ l → excludes c = true → nodes_get nodes c = None) →
    (refreshedFiles disk project nodes l affectedFiles excludes).1.2
    = nodes.
Proof.
  unfold refreshedFiles.
  induction l as [|a l IH]; intros project nodes affectedFiles Hl;
    cbn [foldl]; [done|].
  unfold Files.refreshChangedFilesStep at 2.
  destruct (excludes a) eqn:Ex.
  - rewrite nodes_delete_absent by (apply Hl; [left|done]).
    apply IH. intros c Hc. apply Hl. by right.
  - apply IH. intros c Hc. apply Hl. by right.
Qed.

(** The state a build leaves is a fixed point of the reconciler. *)
Lemma reconcile_again (inScope exclude : string → bool)
    (changedFiles : option (list string)) project nodes nodes1 :
  let rc := reconcile disk inScope exclude changedFiles project nodes in
  (∀ c l, ComponentEnvGraph.nonEmpty changedFiles = Some l → c ∈ l →
          exclude c = true → nodes_get nodes1 c = None) →
  reconcile disk inScope exclude changedFiles rc.1.1 nodes1
  = (rc.1.1, nodes1, rc.2).
Proof.
  intros rc Hex.
  assert (∀ q, is_Some (rc.1.1 !! q) → is_Some (disk !! q)) as Hd
    by (intros q; apply reconcile_on_disk).
  destruct (reconcile_spec disk inScope exclude changedFiles project nodes)
    as (Hrp & _ & _). fold rc in Hrp.
  unfold reconcile at 1. rewrite (removeDeletedFiles_id _ nodes1 Hd).
  cbn [fst snd].
  destruct (ComponentEnvGraph.nonEmpty changedFiles) as [l|] eqn:El.
  - assert (rc.2 = (refreshedFiles disk rc.1.1 nodes1 l []
                      exclude).2) as ->.
    { unfold rc, reconcile. rewrite El. cbn zeta.
      by rewrite !refreshChangedFiles_affected. }
    assert ((refreshedFiles disk rc.1.1 nodes1 l [] exclude).1.1
            = rc.1.1) as Hp.
    { apply map_eq. intros q. rewrite refreshChangedFiles_project, Hrp.
      by case_decide. }
    assert ((refreshedFiles disk rc.1.1 nodes1 l [] exclude).1.2
            = nodes1) as Hn.
    { apply refreshChangedFiles_nodes. intros c Hc. by apply (Hex c l). }
    destruct (refreshedFiles disk rc.1.1 nodes1 l [] exclude)
      as [[p n] a]. cbn [fst snd] in *. by subst.
  - assert (Files.addAllSourceFiles disk inScope exclude rc.1.1 = rc.1.1)
      as ->.
    { apply map_eq. intros q. unfold Files.addAllSourceFiles.
      rewrite addSourceFilesAtPaths_lookup.
      destruct (rc.1.1 !! q) as [sf|] eqn:Eq; [done|].
      rewrite Hrp in Eq.
      destruct (inScope q && negb (exclude q)); [|done].
      case_decide as Hdq; [by rewrite Hdq|].
      by destruct (project !! q). }
    f_equal. unfold rc, reconcile. by rewrite El.
Qed.

Lemma graphUpdate_full_scan_again (changedFiles : option (list string)) e :
  ComponentEnvGraph.nonEmpty changedFiles = None →
  ∃ g1,
    graphUpdate disk changedFiles e = Some g1 ∧
    ∀ e1,
      nodes e1 = nodes g1 → project e1 = project g1 →
      inScope e1 = inScope e → isGlobExcluded e1 = isGlobExcluded e →
      ∃ g2,
        graphUpdate disk changedFiles e1 = Some g2 ∧
        nodes g2 = nodes g1 ∧ project g2 = project g1.
Proof.
  intros Hfull.
  destruct (graphUpdate_full_scan disk changedFiles e Hfull)
    as (types1 & g1 & E1 & Hg1 & Hn1 & Hp1 & _).
  exists g1. split; [done|]. intros e1 Hne1 Hpe1 Hse1 Hxe1.
  destruct (graphUpdate_full_scan disk changedFiles e1 Hfull)
    as (types2 & g2 & E2 & Hg2 & Hn2 & Hp2 & _).
  exists g2. split; [done|].
  rewrite Hse1, Hxe1, Hpe1, Hne1, Hp1 in E2, Hn2, Hp2.
  set (rc := reconcile disk (inScope e) (isGlobExcluded e) changedFiles
               (project e) (nodes e)) in *.
  pose proof (reconcile_again (inScope e) (isGlobExcluded e) changedFiles
                (project e) (nodes e) (nodes g1)) as Hagain.
  cbn zeta in Hagain. fold rc in Hagain.
  rewrite Hagain in Hp2, Hn2, E2 by (intros c l El; congruence).
  unfold storeToClassify in Hn2, E2. cbn [fst snd] in Hp2, Hn2, E2.
  split; [|congruence].
  assert (untyped (updateNodes rc.1.1 rc.2 (nodes g1)) = untyped (nodes g1))
    as Hu.
  { apply updateNodes_untyped_id. intros q Hq.
    rewrite nodes_get_untyped, Hn1, typed_store_lookup.
    by rewrite decide_True. }
  assert (untyped (updateNodes rc.1.1 rc.2 (nodes g1))
          = untyped (storeToClassify rc)) as Hu'.
  { by rewrite Hu, Hn1, untyped_applyTypes. }
  assert (types2 = types1) as ->.
  { rewrite <-computeComponentTypes_untyped, Hu',
            computeComponentTypes_untyped in E2. congruence. }
  rewrite Hn2. etrans; [|symmetry; exact Hn1].
  apply applyTypes_untyped_ext; [exact Hu'|].
  intros k Hk. apply (computeComponentTypes_keys _ _ _ E2), Hk.
Qed.

End rebuild.

(** X15.  Scanning twice changes nothing.  When a full scan is run again on
    the same disk, from an engine that holds the graph and the parse set
    the first scan made and the same scope and exclusions, the node store,
    with its order and its types, and the parse set come out as the first
    scan left them.  This holds from any engine state. *)
Theorem second_full_scan_changes_nothing (disk : Disk)
    (changedFiles : option (list string)) (e : Engine) :
  ComponentEnvGraph.nonEmpty changedFiles = None →
  ∃ g1,
    graphUpdate disk changedFiles e = Some g1 ∧
    ComponentEnvGraph.build disk changedFiles e = fireDidUpdate g1 ∧
    ∀ e1,
      nodes e1 = nodes g1 → project e1 = project g1 →
      inScope e1 = inScope e → isGlobExcluded e1 = isGlobExcluded e →
      ∃ g2,
        graphUpdate disk changedFiles e1 = Some g2 ∧
        ComponentEnvGraph.build disk changedFiles e1 = fireDidUpdate g2 ∧
        nodes g2 = nodes g1 ∧ project g2 = project g1.
Proof.
  intros Hfull.
  destruct (graphUpdate_full_scan_again disk changedFiles e Hfull)
    as (g1 & Hg1 & Hagain).
  exists g1. split_and!; [done|by apply build_graphUpdate|].
  intros e1 Hn Hp Hs Hx.
  destruct (Hagain e1 Hn Hp Hs Hx) as (g2 & Hg2 & Hn2 & Hp2).
  exists g2. split_and!; [done|by apply build_graphUpdate|done..].
Qed.

Lemma second_full_scan_changes_nothing_witness :
  ComponentEnvGraph.nonEmpty None = None ∧
  ∃ g1,
    graphUpdate Examples.chainDisk None Examples.emptyEngine = Some g1 ∧
    ComponentEnvGraph.build Examples.chainDisk None Examples.emptyEngine
      = fireDidUpdate g1 ∧
    ∀ e1,
      nodes e1 = nodes g1 → project e1 = project g1 →
      inScope e1 = inScope Examples.emptyEngine →
      isGlobExcluded e1 = isGlobExcluded Examples.emptyEngine →
      ∃ g2,
        graphUpdate Examples.chainDisk None e1 = Some g2 ∧
        ComponentEnvGraph.build Examples.chainDisk None e1
          = fireDidUpdate g2 ∧
        nodes g2 = nodes g1 ∧ project g2 = project g1.
Proof.
  split; [reflexivity|].
  exact (second_full_scan_changes_nothing Examples.chainDisk None
           Examples.emptyEngine eq_refl).
Defined.

(** ** The single-file engine keeps excluded files out of the store *)

Section historic_exclusion.
Variable disk : Disk.
Implicit Types (e : Engine) (ns : NodeStore).

Lemma in_place_writes ns :
  ∃ ns', InPlace.classifyComponentTypes ns = Some ns' ∧
         untyped ns' = untyped ns.
Proof.
  destruct (computeComponentTypes_steps ns) as (cr & _ & Ecr & _).
  unfold InPlace.classifyComponentTypes, InPlace.classifyComponentTypesFuel.
  rewrite Ecr. eexists. split; [done|].
  destruct (setUniversalTypes_writes
              (Classify.collectImporters (InPlace.setNodeTypes cr ns))
              (InPlace.setNodeTypes cr ns)) as [Hu _].
  { unfold InPlace.setNodeTypes. apply Forall_fmap, Forall_forall.
    intros [k n] _. by eexists. }
  by rewrite Hu, untyped_setNodeTypes.
Qed.

Lemma historic_removeDeletedFiles_absent e p :
  nodes_get (nodes e) p = None →
  nodes_get (nodes (Historic._removeDeletedFiles disk e)) p = None.
Proof.
  unfold Historic._removeDeletedFiles.
  generalize (TsMorph.getSourceFiles (project e)). intros l.
  generalize (project e) as pr. generalize (nodes e) as ns.
  induction l as [|a l IH]; intros ns pr Hns; cbn [foldl]; [done|].
  destruct (TsMorph.existsSync disk a); [by apply IH|].
  specialize (IH (nodes_delete ns a) (delete a pr)).
  destruct (foldl _ (delete a pr, nodes_delete ns a) l) as [pr' ns'] eqn:Ef.
  cbn [nodes withGraph] in *. apply IH.
  rewrite nodes_get_delete. by case_decide.
Qed.

Lemma historic_updateProjectSourceFiles_absent
    (changedFiles : option (list string)) e p :
  nodes_get (nodes e) p = None →
  nodes_get
    (nodes (Historic._updateProjectSourceFiles disk changedFiles e).1) p
  = None.
Proof.
  intros Hp. unfold Historic._updateProjectSourceFiles.
  destruct (ComponentEnvGraph.nonEmpty changedFiles) as [l|].
  - unfold Historic._refreshChangedFiles.
    destruct (foldl _ (project e, []) l) as [pr aff].
    cbn [fst]. by apply historic_removeDeletedFiles_absent.
  - cbn [fst Historic._markAllFilesAsAffected nodes withGraph].
    by apply historic_removeDeletedFiles_absent.
Qed.

Lemma historic_updateFileNodes_absent (filesToUpdate : list string) e p :
  Historic.isExcludedFile p = true →
  nodes_get (nodes e) p = None →
  nodes_get (nodes (Historic._updateFileNodes filesToUpdate e)) p = None.
Proof.
  intros Hx. unfold Historic._updateFileNodes. cbn [nodes withGraph].
  generalize (nodes e) as ns.
  induction filesToUpdate as [|a l IH]; intros ns Hns; cbn [foldl]; [done|].
  apply IH. destruct (project e !! a) as [sf|].
  - destruct (Historic.isExcludedFile a) eqn:Ea.
    + rewrite nodes_get_delete. by case_decide.
    + rewrite nodes_get_set. case_decide; [congruence|done].
  - rewrite nodes_get_delete. by case_decide.
Qed.

Lemma historic_build_result (changedFiles : option (list string)) e :
  let r := Historic._updateProjectSourceFiles disk changedFiles e in
  ∃ e',
    resultEngine (Historic.build disk changedFiles e) = Some e' ∧
    untyped (nodes e') = untyped (nodes (Historic._updateFileNodes r.2 r.1)).
Proof.
  intros r. unfold Historic.build. fold r. destruct r as [e1 fs]. cbn [fst snd].
  destruct (in_place_writes (nodes (Historic._updateFileNodes fs e1)))
    as (ns' & -> & Hu).
  unfold fireDidUpdate.
  destruct (emit_spec
              (listeners (withGraph (Historic._updateFileNodes fs e1)
                            (project (Historic._updateFileNodes fs e1)) ns'
                            EvClassify)) 0
              (withGraph (Historic._updateFileNodes fs e1)
                 (project (Historic._updateFileNodes fs e1)) ns' EvClassify))
    as (e' & k & He' & Hn & _).
  exists e'. split; [done|]. by rewrite Hn.
Qed.

End historic_exclusion.

(** X16.  The single-file engine keeps excluded files out of the node store.
    Its [_updateFileNodes] tests every affected path against [EXCLUDES]
    before it writes a node, so an affected path that matches ends without
    a node, and a store that holds no node for a matching path holds none
    after a build, full or incremental, whatever the parse set has
    registered. *)
Theorem historic_build_keeps_excluded_files_out (disk : Disk)
    (changedFiles : option (list string)) (e : Engine) :
  (∀ p, Historic.isExcludedFile p = true → nodes_get (nodes e) p = None) →
  ∃ e',
    resultEngine (Historic.build disk changedFiles e) = Some e' ∧
    ∀ p, Historic.isExcludedFile p = true → nodes_get (nodes e') p = None.
Proof.
  intros Hclean.
  destruct (historic_build_result disk changedFiles e) as (e' & He' & Hu).
  exists e'. split; [done|]. intros p Hx.
  assert (nodes_get (untyped (nodes e')) p = None) as Hnone.
  { rewrite Hu, nodes_get_untyped.
    rewrite historic_updateFileNodes_absent; [done..|].
    apply historic_updateProjectSourceFiles_absent. by apply Hclean. }
  rewrite nodes_get_untyped in Hnone. by destruct (nodes_get (nodes e') p).
Qed.

Lemma historic_build_keeps_excluded_files_out_witness :
  (∀ p, Historic.isExcludedFile p = true →
        nodes_get (nodes Examples.storiesEngine) p = None) ∧
  ∃ e',
    resultEngine (Historic.build Examples.storiesDisk None
                    Examples.storiesEngine) = Some e' ∧
    ∀ p, Historic.isExcludedFile p = true → nodes_get (nodes e') p = None.
Proof.
  assert (∀ p, Historic.isExcludedFile p = true →
               nodes_get (nodes Examples.storiesEngine) p = None) as Hclean
    by (intros p _; reflexivity).
  split; [exact Hclean|].
  exact (historic_build_keeps_excluded_files_out Examples.storiesDisk None
           Examples.storiesEngine Hclean).
Defined.


(** ** The position of the deletion pass *)

Section deletion_pass_position.
Variable disk : Disk.
Implicit Types (e : Engine) (changedFiles : option (list string)).

Lemma updateProjectSourceFiles_full_scan_reconcile changedFiles e :
  ComponentEnvGraph.nonEmpty changedFiles = None →
  let rc := reconcile disk (inScope e) (isGlobExcluded e) changedFiles
              (project e) (nodes e) in
  ∃ e1,
    ComponentEnvGraph.updateProjectSourceFiles disk changedFiles e
      = Normal (e1, rc.2) ∧
    project e1 = rc.1.1 ∧ nodes e1 = rc.1.2.
Proof.
  intros Hfull rc. rewrite updateProjectSourceFiles_full_scan by done.
  unfold rc, reconcile. rewrite Hfull. cbv zeta. cbn [fst snd].
  eexists. by split_and!.
Qed.

Lemma updateFileNodes_store (fs : list string) e
    (r : Project * NodeStore * list string) :
  project e = r.1.1 → nodes e = r.1.2 → fs = r.2 →
  nodes (ComponentEnvGraph.updateFileNodes fs e) = storeToClassify r.
Proof.
  intros Hp Hn ->.
  unfold ComponentEnvGraph.updateFileNodes, storeToClassify, updateNodes.
  cbn [nodes withGraph]. by rewrite Hp, Hn.
Qed.

End deletion_pass_position.

(** X17.  On a full scan, where the deletion pass stands makes no difference
    to the graph.  The revision of [index.ts] that hands [EXCLUDES] to
    [refreshChangedFiles] runs it after the additions, [index.ts] runs it
    first; on a given disk both leave the same parse set and the same
    affected files, and [updateFileNodes] then leaves the same node under
    every path. *)
Theorem deletion_pass_order_is_unobservable (disk : Disk)
    (changedFiles : option (list string)) (e : Engine) :
  ComponentEnvGraph.nonEmpty changedFiles = None →
  ∃ first last filesToUpdate,
    ComponentEnvGraph.updateProjectSourceFiles disk changedFiles e
      = Normal (first, filesToUpdate) ∧
    Previous.updateProjectSourceFiles disk changedFiles e
      = Normal (last, filesToUpdate) ∧
    project first = project last ∧
    ∀ q,
      nodes_get
        (nodes (ComponentEnvGraph.updateFileNodes filesToUpdate first)) q
      = nodes_get
          (nodes (ComponentEnvGraph.updateFileNodes filesToUpdate last)) q.
Proof.
  intros Hfull.
  destruct (updateProjectSourceFiles_full_scan_reconcile disk changedFiles e
              Hfull) as (first & Hf & Hpf & Hnf).
  destruct (previous_updateProjectSourceFiles_full_scan disk changedFiles e
              Hfull) as (last & Hl & Hpl & Hnl & _).
  destruct (reconcileLast_reconcile disk (inScope e) (isGlobExcluded e)
              changedFiles (project e) (nodes e)) as (Hp & Ha & _).
  exists first, last,
    (reconcile disk (inScope e) (isGlobExcluded e) changedFiles
       (project e) (nodes e)).2.
  split_and!; [done|by rewrite Hl, Ha|by rewrite Hpf, Hpl|].
  intros q.
  rewrite (updateFileNodes_store _ first _ Hpf Hnf eq_refl).
  rewrite (updateFileNodes_store _ last _ Hpl Hnl Ha).
  by rewrite storeToClassify_reconcileLast.
Qed.

Lemma deletion_pass_order_is_unobservable_witness :
  ComponentEnvGraph.nonEmpty None = None ∧
  ∃ first last filesToUpdate,
    ComponentEnvGraph.updateProjectSourceFiles Examples.storiesDisk None
      Examples.sharedEngine = Normal (first, filesToUpdate) ∧
    Previous.updateProjectSourceFiles Examples.storiesDisk None
      Examples.sharedEngine = Normal (last, filesToUpdate) ∧
    project first = project last ∧
    ∀ q,
      nodes_get
        (nodes (ComponentEnvGraph.updateFileNodes filesToUpdate first)) q
      = nodes_get
          (nodes (ComponentEnvGraph.updateFileNodes filesToUpdate last)) q.
Proof.
  split; [reflexivity|].
  exact (deletion_pass_order_is_unobservable Examples.storiesDisk None
           Examples.sharedEngine eq_refl).
Defined.

(** ** The exclusion test *)

Section exclusion_test.
Implicit Types (s sub suffix pre post : string).

Lemma append_cons a s post : String a s +:+ post = String a (s +:+ post).
Proof. done. Qed.

Lemma append_nil s : "" +:+ s = s.
Proof. done. Qed.

Lemma prefix_app sub s :
  String.prefix sub s = true ↔ ∃ post, s = sub +:+ post.
Proof.
  revert s. induction sub as [|a sub IH]; intros [|b s]; cbn;
    setoid_rewrite append_cons || setoid_rewrite append_nil.
  - split; [intros _; by exists ""|done].
  - split; [intros _; by exists (String b s)|done].
  - split; [done|by intros [? ?]].
  - destruct (Ascii.ascii_dec a b) as [->|Hne].
    + rewrite IH. split; intros [post Hp]; exists post; congruence.
    + split; [done|]. intros [post Hp]. congruence.
Qed.

Lemma endsWith_app suffix s :
  Constants.endsWith suffix s = true ↔ ∃ pre, s = pre +:+ suffix.
Proof.
  induction s as [|a s IH]; cbn [Constants.endsWith].
  - rewrite orb_false_r, bool_decide_eq_true. split.
    + intros <-. by exists "".
    + intros [[|b pre] Hp]; rewrite ?append_cons, ?append_nil in Hp;
        [done|discriminate].
  - rewrite orb_true_iff, bool_decide_eq_true, IH. split.
    + intros [<-|[pre ->]]; [by exists ""|]. by exists (String a pre).
    + intros [[|b pre] Hp]; rewrite ?append_cons, ?append_nil in Hp;
        [by left|].
      right. exists pre. congruence.
Qed.

Lemma includes_app sub s :
  Constants.includes sub s = true ↔ ∃ pre post, s = pre +:+ sub +:+ post.
Proof.
  induction s as [|a s IH]; cbn [Constants.includes].
  - rewrite orb_false_r, prefix_app. split.
    + intros [post Hp]. by exists "", post.
    + intros ([|b pre] & post & Hp); rewrite ?append_cons, ?append_nil in Hp;
        [by exists post|discriminate].
  - rewrite orb_true_iff, prefix_app, IH. split.
    + intros [[post Hp]|(pre & post & ->)]; [by exists "", post|].
      by exists (String a pre), post.
    + intros ([|b pre] & post & Hp); rewrite ?append_cons, ?append_nil in Hp;
        [left; by exists post|].
      right. exists pre, post. congruence.
Qed.

End exclusion_test.

(** X18.  [EXCLUDES], the regular expression
    [/\.(stories|config|d|test|spec)\.(ts|tsx)$|__mocks__/], accepts exactly
    the paths that end with a dot, one of the five kinds, a dot and [ts] or
    [tsx], and the paths that have [__mocks__] anywhere in them. *)
Theorem EXCLUDES_matches (p : string) :
  Constants.EXCLUDES p = true ↔
  (∃ pre kind ext,
     kind ∈ ["stories"; "config"; "d"; "test"; "spec"] ∧
     ext ∈ ["ts"; "tsx"] ∧
     p = pre +:+ "." +:+ kind +:+ "." +:+ ext) ∨
  (∃ pre post, p = pre +:+ "__mocks__" +:+ post).
Proof.
  unfold Constants.EXCLUDES.
  rewrite orb_true_iff, includes_app, existsb_exists.
  apply or_iff_compat_r. split.
  - intros (kind & Hk%list_elem_of_In & (ext & He%list_elem_of_In & Hm)%existsb_exists).
    apply endsWith_app in Hm as [pre ->]. by exists pre, kind, ext.
  - intros (pre & kind & ext & Hk & He & ->).
    exists kind. split; [by apply list_elem_of_In|].
    apply existsb_exists. exists ext. split; [by apply list_elem_of_In|].
    apply endsWith_app. by exists pre.
Qed.

(** ** Imports never lead from the client side to a server node *)

(** X19.  Every importer of a server node is a server node, on a store
    without duplicate keys: a node that a client or universal node imports
    is never typed server. *)
Theorem server_node_has_server_importers (nodes : NodeStore)
    (types : gmap string ComponentType) (p t : string) :
  NoDup (keys nodes) →
  Classify.computeComponentTypes nodes = Some types →
  importsNode nodes p t →
  types !! t = Some server →
  types !! p = Some server.
Proof.
  intros ND E (n & Hn & Ht) Hs.
  destruct (classification_closed_form nodes ND) as (types' & E' & Hcf).
  assert (types' = types) as -> by congruence.
  apply (Hcf t) in Hs as [Hk Hr]. apply (Hcf p).
  split; [apply nodes_get_is_Some; by eauto|].
  intros (e & He & Hrt). apply Hr. exists e. split; [done|].
  eapply rtc_r; [done|]. exists n. split_and!; [done..|].
  by apply nodes_has_true.
Qed.

Lemma server_node_has_server_importers_witness :
  NoDup (keys Examples.cycle) ∧
  Classify.computeComponentTypes Examples.cycle
    = Some (<["/app/a.tsx" := server]> (<["/app/b.tsx" := server]> ∅)) ∧
  importsNode Examples.cycle "/app/a.tsx" "/app/b.tsx" ∧
  (<["/app/a.tsx" := server]> (<["/app/b.tsx" := server]> ∅)
     : gmap string ComponentType) !! "/app/b.tsx" = Some server ∧
  (<["/app/a.tsx" := server]> (<["/app/b.tsx" := server]> ∅)
     : gmap string ComponentType) !! "/app/a.tsx" = Some server.
Proof.
  assert (NoDup (keys Examples.cycle)) as ND.
  { unfold keys, Examples.cycle. cbn [fmap list_fmap fst].
    repeat constructor; rewrite ?elem_of_cons, ?elem_of_nil; naive_solver. }
  assert (Classify.computeComponentTypes Examples.cycle
          = Some (<["/app/a.tsx" := server]> (<["/app/b.tsx" := server]> ∅)))
    as E by (by vm_compute).
  assert (importsNode Examples.cycle "/app/a.tsx" "/app/b.tsx") as Hi.
  { eexists. split; [reflexivity|]. apply list_elem_of_here. }
  assert ((<["/app/a.tsx" := server]> (<["/app/b.tsx" := server]> ∅)
             : gmap string ComponentType) !! "/app/b.tsx" = Some server) as Hs
    by (by vm_compute).
  split_and!; [exact ND|exact E|exact Hi|exact Hs|].
  exact (server_node_has_server_importers Examples.cycle _
           "/app/a.tsx" "/app/b.tsx" ND E Hi Hs).
Defined.

(** ** Changed paths that are excluded *)

(** X20.  An incremental build of the revision of [index.ts] that hands
    [EXCLUDES] to [refreshChangedFiles] evicts an excluded path.  A path
    among the changed files that [EXCLUDES] matches is not among the
    affected files, and when the listeners are called the parse set has no
    file and the node store no node for it, whatever the engine held for
    the path before and whether or not the file exists. *)
Theorem excluded_changed_file_is_evicted (disk : Disk)
    (changedFiles : list string) (e : Engine) (q : string) :
  q ∈ changedFiles →
  Constants.EXCLUDES q = true →
  ∃ e1 filesToUpdate g,
    Previous.updateProjectSourceFiles disk (Some changedFiles) e
      = Normal (e1, filesToUpdate) ∧
    (q ∉ filesToUpdate) ∧
    previousUpdate disk (Some changedFiles) e = Some g ∧
    Previous.build disk (Some changedFiles) e = fireDidUpdate g ∧
    project g !! q = None ∧
    nodes_get (nodes g) q = None.
Proof.
  intros Hq Hx.
  assert (changedFiles ≠ []) as Hne
    by (intros ->; by apply elem_of_nil in Hq).
  destruct (previous_incremental_pointwise disk changedFiles e Hne)
    as (types & g & Hg & Hb & _ & _ & Hp & Hpt & _).
  destruct changedFiles as [|c cs]; [done|].
  destruct (previous_updateProjectSourceFiles_incremental disk c cs e)
    as (e1 & Hu & _).
  destruct (reconcileLast_reconcile disk (inScope e) Constants.EXCLUDES
              (Some (c :: cs)) (project e) (nodes e)) as (_ & Ha & _).
  destruct (reconcile_spec disk (inScope e) Constants.EXCLUDES
              (Some (c :: cs)) (project e) (nodes e)) as (_ & _ & Hra).
  cbn [ComponentEnvGraph.nonEmpty] in Hra.
  eexists e1, _, g. split_and!; [exact Hu| |done|done|..].
  - rewrite <-Ha, Hra. intros [_ ?]. congruence.
  - by rewrite Hp, decide_True, Hx.
  - specialize (Hpt q). rewrite decide_True, Hx in Hpt by done.
    by destruct (nodes_get (nodes g) q).
Qed.

Lemma excluded_changed_file_is_evicted_witness :
  "/app/a.stories.tsx" ∈ ["/app/a.stories.tsx"] ∧
  Constants.EXCLUDES "/app/a.stories.tsx" = true ∧
  ∃ e1 filesToUpdate g,
    Previous.updateProjectSourceFiles Examples.storiesDisk
      (Some ["/app/a.stories.tsx"]) Examples.storiesEngine
      = Normal (e1, filesToUpdate) ∧
    ("/app/a.stories.tsx" ∉ filesToUpdate) ∧
    previousUpdate Examples.storiesDisk (Some ["/app/a.stories.tsx"])
      Examples.storiesEngine = Some g ∧
    Previous.build Examples.storiesDisk (Some ["/app/a.stories.tsx"])
      Examples.storiesEngine = fireDidUpdate g ∧
    project g !! "/app/a.stories.tsx" = None ∧
    nodes_get (nodes g) "/app/a.stories.tsx" = None.
Proof.
  assert ("/app/a.stories.tsx" ∈ ["/app/a.stories.tsx"]) as Hin
    by apply list_elem_of_here.
  assert (Constants.EXCLUDES "/app/a.stories.tsx" = true) as Hx
    by (by vm_compute).
  split; [exact Hin|]. split; [exact Hx|].
  exact (excluded_changed_file_is_evicted Examples.storiesDisk
           ["/app/a.stories.tsx"] Examples.storiesEngine
           "/app/a.stories.tsx" Hin Hx).
Defined.

(** ** The directive test *)

Section directive_test.
Implicit Types (s t : string) (cs ws : list string).

Lemma characters_head a s :
  ∃ r cs, Analyze.characters (String a s) = String a r :: cs.
Proof.
  cbn [Analyze.characters]. destruct (Analyze.characters s) as [|c cs].
  - by eexists _, _.
  - destruct (Analyze.startsCharacter c); by eexists _, _.
Qed.

Lemma characters_startsCharacter s c cs :
  Analyze.characters s = c :: cs →
  Analyze.startsCharacter c = Analyze.startsCharacter s.
Proof.
  destruct s as [|a s]; [done|].
  destruct (characters_head a s) as (r & cs' & ->). by intros [= <- _].
Qed.

(** Where a text is cut before a character, its characters are those of
    the two parts. *)
Lemma characters_app s t :
  Analyze.startsCharacter t = true →
  Analyze.characters (s +:+ t) = Analyze.characters s ++ Analyze.characters t.
Proof.
  intros Ht. induction s as [|a s IH]; [done|].
  rewrite append_cons. cbn [Analyze.characters]. rewrite IH.
  destruct (Analyze.characters s) as [|c cs];
    [|cbn [app]; by destruct (Analyze.startsCharacter c)].
  cbn [app]. destruct (Analyze.characters t) as [|c cs] eqn:Et; [done|].
  by rewrite (characters_startsCharacter _ _ _ Et), Ht.
Qed.

Lemma whiteSpace_character w :
  w ∈ Analyze.whiteSpace →
  Analyze.characters w = [w] ∧ Analyze.startsCharacter w = true.
Proof.
  assert (Forall (λ w, Analyze.characters w = [w]
                       ∧ Analyze.startsCharacter w = true)
                 Analyze.whiteSpace) as H.
  { unfold Analyze.whiteSpace. repeat (constructor; [by vm_compute|]).
    constructor. }
  rewrite Forall_forall in H. apply H.
Qed.

Lemma characters_join ws :
  Forall (.∈ Analyze.whiteSpace) ws →
  Analyze.characters (Analyze.join ws) = ws ∧
  Analyze.startsCharacter (Analyze.join ws) = true.
Proof.
  induction 1 as [|w ws Hw _ [IH1 IH2]]; [done|].
  destruct (whiteSpace_character w Hw) as [Hc Hs].
  cbn [Analyze.join foldr]. fold (Analyze.join ws). split.
  - by rewrite characters_app, Hc, IH1.
  - destruct w as [|a w]; [|done]. by rewrite append_nil.
Qed.

Lemma isSpace_whiteSpace ws :
  Forall (.∈ Analyze.whiteSpace) ws →
  Forall (λ c, Analyze.isSpace c = true) ws.
Proof.
  intros H. eapply Forall_impl; [exact H|].
  intros c Hc. by apply bool_decide_eq_true.
Qed.

Lemma trimStart_space ws :
  Forall (λ c, Analyze.isSpace c = true) ws → Analyze.trimStart ws = [].
Proof. induction 1 as [|c ws Hc _ IH]; [done|]. cbn. by rewrite Hc. Qed.

Lemma trimStart_app_space ws cs :
  Forall (λ c, Analyze.isSpace c = true) ws →
  Analyze.trimStart (ws ++ cs) = Analyze.trimStart cs.
Proof. induction 1 as [|c ws Hc _ IH]; [done|]. cbn. by rewrite Hc. Qed.

Lemma trimEnd_space ws :
  Forall (λ c, Analyze.isSpace c = true) ws → Analyze.trimEnd ws = [].
Proof.
  induction 1 as [|c ws Hc _ IH]; [done|].
  cbn [Analyze.trimEnd]. by rewrite IH, Hc.
Qed.

Lemma trimEnd_app_space cs ws :
  Forall (λ c, Analyze.isSpace c = true) ws →
  Analyze.trimEnd (cs ++ ws) = Analyze.trimEnd cs.
Proof.
  intros Hws. induction cs as [|c cs IH].
  - by apply trimEnd_space.
  - cbn [app Analyze.trimEnd]. by rewrite IH.
Qed.

Lemma trimStart_app cs ws :
  Forall (λ c, Analyze.isSpace c = true) ws →
  Analyze.trimStart (cs ++ ws)
  = match Analyze.trimStart cs with
    | [] => []
    | r => r ++ ws
    end.
Proof.
  intros Hws. induction cs as [|c cs IH].
  - by apply trimStart_space.
  - cbn [app Analyze.trimStart]. by destruct (Analyze.isSpace c).
Qed.

(** White space around a text is stripped. *)
Lemma trim_outer_space ws s ws' :
  Forall (.∈ Analyze.whiteSpace) ws →
  Forall (.∈ Analyze.whiteSpace) ws' →
  Analyze.startsCharacter s = true →
  Analyze.trim (Analyze.join ws +:+ s +:+ Analyze.join ws') = Analyze.trim s.
Proof.
  intros Hws Hws' Hs.
  destruct (characters_join ws Hws) as [Hc _].
  destruct (characters_join ws' Hws') as [Hc' Hs'].
  apply isSpace_whiteSpace in Hws, Hws'.
  assert (Analyze.startsCharacter (s +:+ Analyze.join ws') = true) as Hs2.
  { destruct s as [|a s]; [|done]. by rewrite append_nil. }
  unfold Analyze.trim. f_equal.
  rewrite characters_app, Hc by done.
  rewrite (characters_app s), Hc' by done.
  rewrite trimStart_app_space, trimStart_app by done.
  destruct (Analyze.trimStart (Analyze.characters s)) as [|c r]; [done|].
  by apply trimEnd_app_space.
Qed.

End directive_test.

(** X21.  The directive test looks at the first statement only and trims
    its text: white space before and after the text of the first
    statement, the statements that follow, and the import and export
    declarations make no difference to [hasUseClientDirective].  The white
    space is any sequence of the white-space characters and line
    terminators of ECMAScript, the non-breaking space and the byte order
    mark among them; the text is in UTF-8 and begins with a character. *)
Theorem directive_test_reads_trimmed_first_statement
    (kind txt : string) (ws ws' : list string) (rest rest' : list Statement)
    (imps imps' exps exps' : list (option string)) :
  Forall (.∈ Analyze.whiteSpace) ws →
  Forall (.∈ Analyze.whiteSpace) ws' →
  Analyze.startsCharacter txt = true →
  Analyze.hasUseClientDirective
    (mkSourceFile
       (mkStatement kind (Analyze.join ws +:+ txt +:+ Analyze.join ws')
          :: rest) imps exps)
  = Analyze.hasUseClientDirective
      (mkSourceFile (mkStatement kind txt :: rest') imps' exps').
Proof.
  intros Hws Hws' Htxt. unfold Analyze.hasUseClientDirective.
  cbn [statements kindName text]. by rewrite trim_outer_space.
Qed.

Lemma directive_test_reads_trimmed_first_statement_witness :
  Forall (.∈ Analyze.whiteSpace) [Examples.noBreakSpace; " "] ∧
  Forall (.∈ Analyze.whiteSpace) [Examples.lineFeed] ∧
  Analyze.startsCharacter "'use client';" = true ∧
  Analyze.hasUseClientDirective
    (mkSourceFile
       [mkStatement "ExpressionStatement"
          (Analyze.join [Examples.noBreakSpace; " "] +:+ "'use client';"
             +:+ Analyze.join [Examples.lineFeed]);
        mkStatement "VariableStatement" "export const A = () => null;"]
       [Some "/app/b.tsx"] [])
  = Analyze.hasUseClientDirective
      (mkSourceFile [mkStatement "ExpressionStatement" "'use client';"] [] []).
Proof.
  assert (Forall (.∈ Analyze.whiteSpace) [Examples.noBreakSpace; " "]) as Hws.
  { repeat constructor. }
  assert (Forall (.∈ Analyze.whiteSpace) [Examples.lineFeed]) as Hws'.
  { repeat constructor. }
  split; [exact Hws|]. split; [exact Hws'|]. split; [reflexivity|].
  exact (directive_test_reads_trimmed_first_statement
           "ExpressionStatement" "'use client';"
           [Examples.noBreakSpace; " "] [Examples.lineFeed]
           [mkStatement "VariableStatement" "export const A = () => null;"] []
           [Some "/app/b.tsx"] [] [] [] Hws Hws' eq_refl).
Defined.

(** X22.  Server is the default: when no node of the store is client-marked,
    the classifier types every node server, whatever the imports are. *)
Theorem store_without_client_mark_is_all_server (nodes : NodeStore) :
  (∀ k n, (k, n) ∈ nodes → isClient n = false) →
  ∃ types, Classify.computeComponentTypes nodes = Some types ∧
           ∀ k, types !! k = if decide (k ∈ keys nodes) then Some server
                             else None.
Proof.
  intros Hplain.
  destruct (all_server_without_client_entry nodes Hplain) as (types & E & Hs).
  exists types. split; [done|]. intros k. case_decide as Hk; [by apply Hs|].
  apply eq_None_not_Some. by rewrite (computeComponentTypes_keys _ _ _ E).
Qed.

Lemma store_without_client_mark_is_all_server_witness :
  (∀ k n, (k, n) ∈ Examples.cycle → isClient n = false) ∧
  ∃ types, Classify.computeComponentTypes Examples.cycle = Some types ∧
           ∀ k, types !! k = if decide (k ∈ keys Examples.cycle)
                             then Some server else None.
Proof.
  assert (∀ k n, (k, n) ∈ Examples.cycle → isClient n = false) as Hplain.
  { intros k n Hin. unfold Examples.cycle in Hin.
    apply elem_of_cons in Hin as [Hin|Hin]; [by injection Hin as -> ->|].
    apply elem_of_cons in Hin as [Hin|Hin]; [by injection Hin as -> ->|].
    exfalso. exact (not_elem_of_nil _ Hin). }
  split; [exact Hplain|].
  exact (store_without_client_mark_is_all_server Examples.cycle Hplain).
Defined.
